(** * Gas Station Simulator: cars, pumps and one waiting line

    A shallow embedding of [gas_station.cpp].  The program starts
    [MAX_CARS] car threads that share a waiting line ([MyQueue<int>]) and a
    pool of [MAX_PUMPS] pumps ([MyQueue<GasPump*>]); the main thread lets
    them run, clears the [running] flag, joins them and deletes the pumps.

    Modelling conventions.
    - [int] and [unsigned int] values are [Z]; the only arithmetic that can
      wrap is [++m_count], written out modulo [2^32].
    - A [GasPump*] is [option nat]: [None] is [nullptr], [Some p] the
      [p]-th object allocated by [new].
    - The whole program is an interleaving of steps, one per statement of
      a thread.  A call of a member function of [MyQueue] is one step, and
      steps of different threads are interleaved in any order.  Durations of
      [sleep_for] are not represented: a sleep is a step without effect.
      The finer view in which the statements inside the queue operations
      interleave is the subject of module [Locking].
    - Calling [front()] or [pop()] of an empty [std::queue], dereferencing
      or deleting an object that was already deleted, is undefined
      behaviour; the thread that does it moves to a distinguished
      [Undefined] program point. *)

From stdpp Require Import base list strings pretty.
From Stdlib Require Import ZArith Lia.

Local Open Scope Z_scope.

(** ** Program constants (lines 50-53) *)

Record Config := {
  MAX_CARS : Z;
  MAX_PUMPS : Z;
  PROGRAM_TIME_S : Z;
  PUMP_TIME_MS : Z
}.

Definition gas_station : Config :=
  {| MAX_CARS := 10; MAX_PUMPS := 2; PROGRAM_TIME_S := 30; PUMP_TIME_MS := 30 |}.

(** ** MyQueue (lines 56-80)

    The contents of [m_queue], oldest element first.  Every operation is
    given as the function from the contents before the call to the result
    and the contents after it. *)

Module MyQueue.

Abbreviation t := list.

Section Ops.
Context {T : Type}.

(* m_queue.push(item) *)
Definition push (item : T) (q : t T) : t T := q ++ [item].

(* T rv = m_queue.front(); m_queue.pop(); return rv;
   [None] on an empty queue, where std::queue::front is undefined. *)
Definition pop (q : t T) : option (T * t T) :=
  match q with
  | [] => None
  | rv :: rest => Some (rv, rest)
  end.

(* return m_queue.size()<=0; *)
Definition empty (q : t T) : bool := Z.of_nat (length q) <=? 0.
End Ops.

(* int front(void) { return (m_queue.front()); }
   The return type is [int] whatever [T] is, so the member only
   instantiates for the queue of car ids. *)
Definition front (q : t Z) : option Z :=
  match q with
  | [] => None
  | x :: _ => Some x
  end.

(** Histories of calls on one queue, used to state the FIFO discipline. *)
Inductive Call (T : Type) :=
| CPush (item : T)
| CPop.
Arguments CPush {T} item.
Arguments CPop {T}.

(* The items handed to push, in call order. *)
Fixpoint pushed {T} (cs : list (Call T)) : list T :=
  match cs with
  | [] => []
  | CPush x :: cs' => x :: pushed cs'
  | CPop :: cs' => pushed cs'
  end.

(* Runs the calls in order; returns the values returned by the pops, in
   call order, and the final contents. *)
Fixpoint calls {T} (cs : list (Call T)) (q : t T) : option (list T * t T) :=
  match cs with
  | [] => Some ([], q)
  | CPush x :: cs' => calls cs' (push x q)
  | CPop :: cs' =>
      match pop q with
      | None => None
      | Some (rv, q') =>
          match calls cs' q' with
          | None => None
          | Some (rvs, q'') => Some (rv :: rvs, q'')
          end
      end
  end.

End MyQueue.

(** ** Metrics, GasPump, Car data (lines 83-115) *)

Definition UINT_MOD : Z := 2 ^ 32.

Record Metrics := {
  m_name : string;
  m_id : Z;
  m_count : Z   (* unsigned int *)
}.

(* Metrics(string s, int id) : m_name(s), m_id(id), m_count = 0 *)
Definition new_Metrics (s : string) (id : Z) : Metrics :=
  {| m_name := s; m_id := id; m_count := 0 |}.

(* void Inc(void) { ++m_count; } *)
Definition Inc (m : Metrics) : Metrics :=
  {| m_name := m_name m; m_id := m_id m;
     m_count := (m_count m + 1) mod UINT_MOD |}.

Definition GetId (m : Metrics) : Z := m_id m.

(* What printf's %d shows for an unsigned int argument. *)
Definition as_int (u : Z) : Z := if u <? 2 ^ 31 then u else u - 2 ^ 32.

(* LOG_INFO("%s %d filled up %d times\n", m_name.c_str(), m_id, m_count);
   the text of the line, without the newline. *)
Definition PrintStats (m : Metrics) : string :=
  m_name m +:+ " " +:+ pretty (m_id m) +:+ " filled up " +:+
  pretty (as_int (m_count m)) +:+ " times".

(* ~Metrics(void) { if (m_count>0) PrintStats(); }
   The lines the destructor writes to stdout. *)
Definition dtor_Metrics (m : Metrics) : list string :=
  if 0 <? m_count m then [PrintStats m] else [].

(* GasPump(int id) : Metrics("Pump", id) *)
Definition new_GasPump (id : Z) : Metrics := new_Metrics "Pump" id.

(* void PumpGas(void) { sleep_for(PUMP_TIME_MS); Inc(); } *)
Definition PumpGas (p : Metrics) : Metrics := Inc p.

(* Car(int id) : Metrics("Car", id) *)
Definition new_Car (id : Z) : Metrics := new_Metrics "Car" id.

(** ** The running program: threads, shared state, steps *)

(* A pump object on the free store, and whether [delete] has run on it. *)
Record Cell := {
  obj : Metrics;
  live : bool
}.

(** Program points of [Car::operator()] (lines 117-140); each names the
    statement the thread executes next. *)
Inductive CarPC :=
| AtEnterLine               (* 120: line.push(GetId()) *)
| AtRunningCheck            (* 123: while (running.load()) *)
| AtFrontCheck              (* 125: if (line.front() == GetId()) *)
| AtPumpsEmpty              (* 127: while (pumps.empty()) sleep_for(1ms) *)
| AtPumpsPop                (* 129-130: myPump = pumps.pop(); null test *)
| AtLinePop (myPump : nat)  (* 131: line.pop() *)
| AtPumpGas (myPump : nat)  (* 132: myPump->PumpGas() *)
| AtInc (myPump : nat)      (* 133: Inc() *)
| AtPumpsPush (myPump : nat) (* 134: pumps.push(myPump) *)
| AtLineRepush              (* 135: line.push(GetId()) *)
| AtSleep                   (* 138: sleep_for(5ms) *)
| Stopped                   (* left the loop of line 123 and returned *)
| Aborted                   (* returned at line 130 *)
| Undefined.

Global Instance CarPC_eq_dec : EqDecision CarPC.
Proof. solve_decision. Defined.

Record CarThread := {
  c_car : Metrics;   (* the thread's copy of the Car functor *)
  c_pc : CarPC
}.

(** Program points of [main] (lines 144-180). *)
Inductive MainPC :=
| MBanner                 (* 146 *)
| MSetup (i : Z)          (* 152-154: for i<MAX_PUMPS push(new GasPump(i+1)) *)
| MSpawn (i : Z)          (* 158-160: for i<MAX_CARS thread(Car(i+1),...) *)
| MSleep                  (* 163 *)
| MStop                   (* 166: running = false *)
| MJoin (k : nat)         (* 169: for (auto& t : cars) t.join() *)
| MDrainCheck             (* 172: while (!openPumps.empty()) *)
| MDrainBody              (* 173-174: p = openPumps.pop(); delete p *)
| MExit                   (* 179: return 0 *)
| MUndefined.

Record State := {
  running : bool;
  carLine : MyQueue.t Z;
  openPumps : MyQueue.t (option nat);
  heap : list Cell;
  cars : list CarThread;
  main_pc : MainPC;
  stdout : list string;   (* one entry per line written *)
  stderr : list string
}.

Inductive Tid :=
| TMain
| TCar (i : nat).

Global Instance Tid_eq_dec : EqDecision Tid.
Proof. solve_decision. Defined.

(** What a step did; the trace of a run is the list of these, each with
    the thread that took the step. *)
Inductive Action :=
| ABanner
| ANewPump (p : nat)
| ASpawn (id : Z)
| ALoopEnd
| AMainSleep
| AStop
| AJoin (k : nat)
| ADrainCheck (is_empty : bool)
| ADelete (p : option nat)
| ALinePush (id : Z)
| ARunningLoad (b : bool)
| ALineFront (x : Z)
| APumpsEmpty (is_empty : bool)
| APumpsPop (p : option nat)
| ALinePop (x : Z)
| APumpGas (p : nat)
| AInc
| APumpsPush (p : nat)
| ASleep
| AUndefined.

Definition Trace := list (Tid * Action).

Definition set_running (b : bool) (s : State) : State :=
  {| running := b; carLine := carLine s; openPumps := openPumps s;
     heap := heap s; cars := cars s; main_pc := main_pc s;
     stdout := stdout s; stderr := stderr s |}.
Definition set_line (l : MyQueue.t Z) (s : State) : State :=
  {| running := running s; carLine := l; openPumps := openPumps s;
     heap := heap s; cars := cars s; main_pc := main_pc s;
     stdout := stdout s; stderr := stderr s |}.
Definition set_pumps (q : MyQueue.t (option nat)) (s : State) : State :=
  {| running := running s; carLine := carLine s; openPumps := q;
     heap := heap s; cars := cars s; main_pc := main_pc s;
     stdout := stdout s; stderr := stderr s |}.
Definition set_heap (h : list Cell) (s : State) : State :=
  {| running := running s; carLine := carLine s; openPumps := openPumps s;
     heap := h; cars := cars s; main_pc := main_pc s;
     stdout := stdout s; stderr := stderr s |}.
Definition set_cars (cs : list CarThread) (s : State) : State :=
  {| running := running s; carLine := carLine s; openPumps := openPumps s;
     heap := heap s; cars := cs; main_pc := main_pc s;
     stdout := stdout s; stderr := stderr s |}.
Definition set_main (pc : MainPC) (s : State) : State :=
  {| running := running s; carLine := carLine s; openPumps := openPumps s;
     heap := heap s; cars := cars s; main_pc := pc;
     stdout := stdout s; stderr := stderr s |}.
Definition print (ls : list string) (s : State) : State :=
  {| running := running s; carLine := carLine s; openPumps := openPumps s;
     heap := heap s; cars := cars s; main_pc := main_pc s;
     stdout := stdout s ++ ls; stderr := stderr s |}.
Definition log_error (l : string) (s : State) : State :=
  {| running := running s; carLine := carLine s; openPumps := openPumps s;
     heap := heap s; cars := cars s; main_pc := main_pc s;
     stdout := stdout s; stderr := stderr s ++ [l] |}.

(* A thread whose function has returned; [join] waits for this. *)
Definition exited (pc : CarPC) : bool :=
  match pc with
  | Stopped | Aborted => true
  | _ => false
  end.

(** One step of car thread [i], whose current record is [c].  When the
    thread function returns, the thread's copy of the Car is destroyed,
    which runs [~Metrics]. *)
Definition car_step (i : nat) (c : CarThread) (s : State)
  : option (Action * State) :=
  let me := c_car c in
  let goto pc s' := set_cars (<[i := {| c_car := me; c_pc := pc |}]> (cars s')) s' in
  match c_pc c with
  | AtEnterLine =>
      Some (ALinePush (GetId me),
            goto AtRunningCheck (set_line (MyQueue.push (GetId me) (carLine s)) s))
  | AtRunningCheck =>
      if running s
      then Some (ARunningLoad true, goto AtFrontCheck s)
      else Some (ARunningLoad false, goto Stopped (print (dtor_Metrics me) s))
  | AtFrontCheck =>
      match MyQueue.front (carLine s) with
      | None => Some (AUndefined, goto Undefined s)
      | Some x =>
          if x =? GetId me
          then Some (ALineFront x, goto AtPumpsEmpty s)
          else Some (ALineFront x, goto AtSleep s)
      end
  | AtPumpsEmpty =>
      if MyQueue.empty (openPumps s)
      then Some (APumpsEmpty true, goto AtPumpsEmpty s)
      else Some (APumpsEmpty false, goto AtPumpsPop s)
  | AtPumpsPop =>
      match MyQueue.pop (openPumps s) with
      | None => Some (AUndefined, goto Undefined s)
      | Some (None, rest) =>
          Some (APumpsPop None,
                goto Aborted
                  (print (dtor_Metrics me)
                     (log_error "NULL PTR FOUND!" (set_pumps rest s))))
      | Some (Some p, rest) =>
          Some (APumpsPop (Some p), goto (AtLinePop p) (set_pumps rest s))
      end
  | AtLinePop p =>
      match MyQueue.pop (carLine s) with
      | None => Some (AUndefined, goto Undefined s)
      | Some (x, rest) => Some (ALinePop x, goto (AtPumpGas p) (set_line rest s))
      end
  | AtPumpGas p =>
      match heap s !! p with
      | Some {| obj := g; live := true |} =>
          Some (APumpGas p,
                goto (AtInc p)
                  (set_heap (<[p := {| obj := PumpGas g; live := true |}]> (heap s)) s))
      | _ => Some (AUndefined, goto Undefined s)
      end
  | AtInc p =>
      Some (AInc,
            set_cars (<[i := {| c_car := Inc me; c_pc := AtPumpsPush p |}]> (cars s)) s)
  | AtPumpsPush p =>
      Some (APumpsPush p,
            goto AtLineRepush (set_pumps (MyQueue.push (Some p) (openPumps s)) s))
  | AtLineRepush =>
      Some (ALinePush (GetId me),
            goto AtSleep (set_line (MyQueue.push (GetId me) (carLine s)) s))
  | AtSleep => Some (ASleep, goto AtRunningCheck s)
  | Stopped | Aborted | Undefined => None
  end.

Definition banner (cfg : Config) : string :=
  "Gas Station Simulator: " +:+ pretty (MAX_CARS cfg) +:+ " cars, " +:+
  pretty (MAX_PUMPS cfg) +:+ " pumps, " +:+ pretty (PUMP_TIME_MS cfg) +:+
  "ms fill-up time, and " +:+ pretty (PROGRAM_TIME_S cfg) +:+
  "s total run time".

(** One step of the main thread.  [join] on a thread that has not
    returned is not enabled.  [delete] of a null pointer does nothing. *)
Definition main_step (cfg : Config) (s : State) : option (Action * State) :=
  match main_pc s with
  | MBanner => Some (ABanner, set_main (MSetup 0) (print [banner cfg] s))
  | MSetup i =>
      if i <? MAX_PUMPS cfg
      then
        let p := length (heap s) in
        Some (ANewPump p,
              set_main (MSetup (i + 1))
                (set_pumps (MyQueue.push (Some p) (openPumps s))
                   (set_heap (heap s ++ [{| obj := new_GasPump (i + 1); live := true |}]) s)))
      else Some (ALoopEnd, set_main (MSpawn 0) s)
  | MSpawn i =>
      if i <? MAX_CARS cfg
      then
        (* the temporary Car(i+1) is copied into the thread and destroyed *)
        let tmp := new_Car (i + 1) in
        Some (ASpawn (i + 1),
              set_main (MSpawn (i + 1))
                (print (dtor_Metrics tmp)
                   (set_cars (cars s ++ [{| c_car := tmp; c_pc := AtEnterLine |}]) s)))
      else Some (ALoopEnd, set_main MSleep s)
  | MSleep => Some (AMainSleep, set_main MStop s)
  | MStop => Some (AStop, set_main (MJoin 0) (set_running false s))
  | MJoin k =>
      match cars s !! k with
      | None => Some (ALoopEnd, set_main MDrainCheck s)
      | Some c =>
          if exited (c_pc c) then Some (AJoin k, set_main (MJoin (S k)) s) else None
      end
  | MDrainCheck =>
      if MyQueue.empty (openPumps s)
      then Some (ADrainCheck true, set_main MExit s)
      else Some (ADrainCheck false, set_main MDrainBody s)
  | MDrainBody =>
      match MyQueue.pop (openPumps s) with
      | None => Some (AUndefined, set_main MUndefined s)
      | Some (None, rest) => Some (ADelete None, set_main MDrainCheck (set_pumps rest s))
      | Some (Some p, rest) =>
          match heap s !! p with
          | Some {| obj := g; live := true |} =>
              Some (ADelete (Some p),
                    set_main MDrainCheck
                      (print (dtor_Metrics g)
                         (set_heap (<[p := {| obj := g; live := false |}]> (heap s))
                            (set_pumps rest s))))
          | _ => Some (AUndefined, set_main MUndefined s)
          end
      end
  | MExit | MUndefined => None
  end.

Definition step (cfg : Config) (t : Tid) (s : State) : option (Action * State) :=
  match t with
  | TMain => main_step cfg s
  | TCar i =>
      match cars s !! i with
      | None => None
      | Some c => car_step i c s
      end
  end.

Definition init : State :=
  {| running := true; carLine := []; openPumps := []; heap := []; cars := [];
     main_pc := MBanner; stdout := []; stderr := [] |}.

(** Runs reachable from program start, with their traces. *)
Inductive reach (cfg : Config) : Trace → State → Prop :=
| reach_init : reach cfg [] init
| reach_step tr s t a s' :
    reach cfg tr s →
    step cfg t s = Some (a, s') →
    reach cfg (tr ++ [(t, a)]) s'.

(** A schedule names the thread that takes each successive step. *)
Fixpoint run (cfg : Config) (sched : list Tid) (tr : Trace) (s : State)
  : option (Trace * State) :=
  match sched with
  | [] => Some (tr, s)
  | t :: sched' =>
      match step cfg t s with
      | None => None
      | Some (a, s') => run cfg sched' (tr ++ [(t, a)]) s'
      end
  end.

(* The steps of one thread on its own. *)
Definition solo (cfg : Config) (t : Tid) (n : nat) (s : State)
  : option (Trace * State) :=
  run cfg (repeat t n) [] s.

(** ** The protocol invariant

    Which program points have the car's id in the line, which of them need
    it to be at the front, and which hold a pump taken from the pool. *)

Definition in_line (pc : CarPC) : bool :=
  match pc with
  | AtEnterLine | AtPumpGas _ | AtInc _ | AtPumpsPush _ | AtLineRepush => false
  | _ => true
  end.

Definition at_front (pc : CarPC) : bool :=
  match pc with
  | AtPumpsEmpty | AtPumpsPop | AtLinePop _ => true
  | _ => false
  end.

Definition holds (pc : CarPC) : option nat :=
  match pc with
  | AtLinePop p | AtPumpGas p | AtInc p | AtPumpsPush p => Some p
  | _ => None
  end.

Definition is_live (h : list Cell) (p : nat) : Prop :=
  ∃ g, h !! p = Some {| obj := g; live := true |}.

(** The car threads and the line. *)
Record LineOK (cs : list CarThread) (l : list Z) : Prop := {
  (* thread i runs Car(i+1) *)
  line_ids : ∀ i c, cs !! i = Some c →
      m_id (c_car c) = Z.of_nat i + 1 ∧ m_name (c_car c) = "Car";
  line_nodup : NoDup l;
  line_in : ∀ i c, cs !! i = Some c →
      (in_line (c_pc c) = true ↔ m_id (c_car c) ∈ l);
  line_known : ∀ x, x ∈ l → ∃ i c, cs !! i = Some c ∧ m_id (c_car c) = x;
  line_front : ∀ i c, cs !! i = Some c → at_front (c_pc c) = true →
      MyQueue.front l = Some (m_id (c_car c))
}.

(** The car threads, the pool and the pump objects. *)
Record PoolOK (cs : list CarThread) (q : list (option nat)) (h : list Cell)
  : Prop := {
  (* the p-th allocation is GasPump(p+1) *)
  pool_ids : ∀ p cell, h !! p = Some cell →
      m_id (obj cell) = Z.of_nat p + 1 ∧ m_name (obj cell) = "Pump";
  pool_live : ∀ x, x ∈ q → ∃ p, x = Some p ∧ is_live h p;
  pool_nodup : NoDup q;
  pool_hold : ∀ i c p, cs !! i = Some c → holds (c_pc c) = Some p →
      is_live h p ∧ Some p ∉ q;
  pool_excl : ∀ i j c d p, cs !! i = Some c → cs !! j = Some d →
      holds (c_pc c) = Some p → holds (c_pc d) = Some p → i = j;
  pool_ready : ∀ i c, cs !! i = Some c → c_pc c = AtPumpsPop → q ≠ [];
  pool_noleak : ∀ p, is_live h p →
      Some p ∈ q ∨ ∃ i c, cs !! i = Some c ∧ holds (c_pc c) = Some p
}.

Definition all_exited (s : State) : Prop :=
  ∀ i c, cars s !! i = Some c → c_pc c = Stopped.

Definition pumps_built (cfg : Config) (s : State) : Prop :=
  Z.of_nat (length (heap s)) = Z.max 0 (MAX_PUMPS cfg).

Definition cars_built (cfg : Config) (s : State) : Prop :=
  Z.of_nat (length (cars s)) = Z.max 0 (MAX_CARS cfg).

(* What the position of main says about the rest of the state. *)
Definition main_inv (cfg : Config) (s : State) : Prop :=
  match main_pc s with
  | MBanner => cars s = [] ∧ heap s = [] ∧ openPumps s = []
  | MSetup i =>
      cars s = [] ∧ 0 ≤ i ≤ Z.max 0 (MAX_PUMPS cfg) ∧
      Z.of_nat (length (heap s)) = i
  | MSpawn i =>
      pumps_built cfg s ∧ 0 ≤ i ≤ Z.max 0 (MAX_CARS cfg) ∧
      Z.of_nat (length (cars s)) = i
  | MSleep | MStop => pumps_built cfg s ∧ cars_built cfg s
  | MJoin k =>
      pumps_built cfg s ∧ cars_built cfg s ∧
      ∀ i c, (i < k)%nat → cars s !! i = Some c → c_pc c = Stopped
  | MDrainCheck =>
      pumps_built cfg s ∧ cars_built cfg s ∧ all_exited s
  | MDrainBody =>
      pumps_built cfg s ∧ cars_built cfg s ∧ all_exited s ∧ openPumps s ≠ []
  | MExit =>
      pumps_built cfg s ∧ cars_built cfg s ∧ all_exited s ∧ openPumps s = []
  | MUndefined => False
  end.

Record Inv (cfg : Config) (s : State) : Prop := {
  inv_line : LineOK (cars s) (carLine s);
  inv_pool : PoolOK (cars s) (openPumps s) (heap s);
  (* no car thread has run into undefined behaviour or the null branch *)
  inv_nofault : ∀ i c, cars s !! i = Some c →
      c_pc c ≠ Undefined ∧ c_pc c ≠ Aborted;
  inv_main : main_inv cfg s
}.

(** How one step of a car may move the line ... *)
Inductive line_move (id : Z) (pc pc' : CarPC) (l l' : list Z) : Prop :=
| lm_stay :
    l' = l → in_line pc' = in_line pc →
    (at_front pc' = true → at_front pc = true ∨ MyQueue.front l = Some id) →
    line_move id pc pc' l l'
| lm_push :
    l' = MyQueue.push id l → in_line pc = false → in_line pc' = true →
    at_front pc' = false →
    line_move id pc pc' l l'
| lm_pop :
    l = id :: l' → in_line pc' = false → at_front pc' = false →
    line_move id pc pc' l l'.

(** ... and the pool; [others_wait] says that no other car is about to pop
    the pool. *)
Inductive pool_move (others_wait : Prop) (pc pc' : CarPC)
  (q q' : list (option nat)) : Prop :=
| pm_stay :
    q' = q → holds pc' = holds pc → (pc' = AtPumpsPop → q ≠ []) →
    pool_move others_wait pc pc' q q'
| pm_take p :
    q = Some p :: q' → holds pc = None → holds pc' = Some p →
    pc' ≠ AtPumpsPop → others_wait →
    pool_move others_wait pc pc' q q'
| pm_give p :
    q' = MyQueue.push (Some p) q → holds pc = Some p → holds pc' = None →
    pc' ≠ AtPumpsPop →
    pool_move others_wait pc pc' q q'.

(** ** Observations on traces and states *)

(* The actions of thread [t], in order. *)
Definition acts_of (t : Tid) (tr : Trace) : list Action :=
  omap (λ e, if decide (e.1 = t) then Some e.2 else None) tr.

(** The actions of the car with identity [id] respect the order of lines
    125-131 when every [line.pop()] in them removed [id] itself and came
    directly after: seeing [id] at the front of the line, polling the pool
    while it was empty, seeing it non-empty, and popping a non-null pump. *)
Definition pump_before_leave (id : Z) (acts : list Action) : Prop :=
  ∀ pre post x, acts = pre ++ ALinePop x :: post →
    x = id ∧
    ∃ pre' n p,
      pre = pre' ++ ALineFront id :: repeat (APumpsEmpty true) n ++
                    [APumpsEmpty false; APumpsPop (Some p)].

(* What the program point of a car says about its own latest actions. *)
Definition recent (id : Z) (pc : CarPC) (acts : list Action) : Prop :=
  match pc with
  | AtPumpsEmpty =>
      ∃ pre n, acts = pre ++ ALineFront id :: repeat (APumpsEmpty true) n
  | AtPumpsPop =>
      ∃ pre n, acts = pre ++ ALineFront id :: repeat (APumpsEmpty true) n ++
                      [APumpsEmpty false]
  | AtLinePop p =>
      ∃ pre n, acts = pre ++ ALineFront id :: repeat (APumpsEmpty true) n ++
                      [APumpsEmpty false; APumpsPop (Some p)]
  | _ => True
  end.

Fixpoint sumZ (l : list Z) : Z :=
  match l with
  | [] => 0
  | x :: l' => x + sumZ l'
  end.

(* Completed calls of PumpGas in a trace. *)
Definition is_service (e : Tid * Action) : Z :=
  match e.2 with
  | APumpGas _ => 1
  | _ => 0
  end.
Definition services (tr : Trace) : Z := sumZ (map is_service tr).

(* The usage counters of the cars and of the pumps, summed. *)
Definition count_of_car (c : CarThread) : Z := m_count (c_car c).
Definition count_of_cell (cell : Cell) : Z := m_count (obj cell).
Definition car_total (s : State) : Z := sumZ (map count_of_car (cars s)).
Definition pump_total (s : State) : Z := sumZ (map count_of_cell (heap s)).

(* A car between the pump's increment (line 132) and its own (line 133):
   it owes one increment. *)
Definition pending (pc : CarPC) : Z :=
  match pc with
  | AtInc _ => 1
  | _ => 0
  end.
Definition in_progress (s : State) : Z :=
  sumZ (map (λ c, pending (c_pc c)) (cars s)).
Definition work_of_car (c : CarThread) : Z :=
  m_count (c_car c) + pending (c_pc c).

(* The report lines written so far by destructors: of the cars whose
   threads have returned and of the pumps that were deleted. *)
Definition car_lines (cs : list CarThread) : list string :=
  flat_map (λ c, if exited (c_pc c) then dtor_Metrics (c_car c) else []) cs.
Definition pump_lines (h : list Cell) : list string :=
  flat_map (λ cell, if live cell then [] else dtor_Metrics (obj cell)) h.

Definition OutOK (cfg : Config) (s : State) : Prop :=
  ∃ reps,
    stdout s = match main_pc s with MBanner => [] | _ => [banner cfg] end ++ reps ∧
    reps ≡ₚ car_lines (cars s) ++ pump_lines (heap s).

(* The objects that report at teardown: those used at least once. *)
Definition reporting (ms : list Metrics) : list Metrics :=
  filter (λ m, 0 < m_count m) ms.

(* The program point of car [i], if the thread exists. *)
Definition pc_of (i : nat) (s : State) : option CarPC :=
  c_pc <$> cars s !! i.

(* Own steps a car needs from a program point to leave the loop once
   [running] is false, if the pool is never found empty. *)
Definition steps_to_stop (pc : CarPC) : nat :=
  match pc with
  | Stopped | Aborted | Undefined => 0
  | AtRunningCheck => 1
  | AtEnterLine | AtSleep => 2
  | AtLineRepush => 3
  | AtPumpsPush _ => 4
  | AtInc _ => 5
  | AtPumpGas _ => 6
  | AtLinePop _ => 7
  | AtPumpsPop => 8
  | AtPumpsEmpty => 9
  | AtFrontCheck => 10
  end.

(** ** Inside the queue operations: the mutex (lines 60-76)

    The statements of the four member functions of [MyQueue<int>], run by
    several threads on one queue object.  [push] and [pop] construct a
    [lock_guard] on [m_mutex] before they touch [m_queue] and release it
    when they return; [front] and [empty] touch [m_queue] directly. *)

Module Locking.

Inductive Op :=
| OpPush (item : Z)
| OpPop
| OpFront
| OpEmpty.

Inductive Result :=
| RVoid
| RInt (x : Z)
| RBool (b : bool).

Inductive Pc :=
| PushLock (item : Z)   (* 62: std::lock_guard<std::mutex> lock(m_mutex) *)
| PushBody (item : Z)   (* 63: m_queue.push(item) *)
| PushUnlock            (* 64: lock goes out of scope *)
| PopLock               (* 67: std::lock_guard<std::mutex> lock(m_mutex) *)
| PopFront              (* 68: T rv = m_queue.front() *)
| PopRemove (rv : Z)    (* 69: m_queue.pop() *)
| PopUnlock (rv : Z)    (* 70: return rv; lock goes out of scope *)
| FrontRead             (* 74: return (m_queue.front()) *)
| EmptyRead             (* 76: return m_queue.size()<=0 *)
| Done (r : Result)
| Undef.                (* front() of an empty std::queue *)

Definition call (op : Op) : Pc :=
  match op with
  | OpPush item => PushLock item
  | OpPop => PopLock
  | OpFront => FrontRead
  | OpEmpty => EmptyRead
  end.

Record QState := {
  m_queue : list Z;
  m_mutex : option nat;   (* the thread that holds the mutex *)
  threads : list Pc
}.

Definition start (q : list Z) (ops : list Op) : QState :=
  {| m_queue := q; m_mutex := None; threads := call <$> ops |}.

Definition goto (t : nat) (pc : Pc) (q : list Z) (m : option nat) (s : QState)
  : QState :=
  {| m_queue := q; m_mutex := m; threads := <[t := pc]> (threads s) |}.

(* One statement of thread [t]; [None] when the thread has returned or
   waits for the mutex. *)
Definition qstep (t : nat) (s : QState) : option QState :=
  match threads s !! t with
  | None => None
  | Some pc =>
      let q := m_queue s in
      let m := m_mutex s in
      match pc with
      | PushLock item =>
          match m with
          | None => Some (goto t (PushBody item) q (Some t) s)
          | Some _ => None
          end
      | PushBody item => Some (goto t PushUnlock (q ++ [item]) m s)
      | PushUnlock => Some (goto t (Done RVoid) q None s)
      | PopLock =>
          match m with
          | None => Some (goto t PopFront q (Some t) s)
          | Some _ => None
          end
      | PopFront =>
          match q with
          | [] => Some (goto t Undef q m s)
          | rv :: _ => Some (goto t (PopRemove rv) q m s)
          end
      | PopRemove rv => Some (goto t (PopUnlock rv) (tail q) m s)
      | PopUnlock rv => Some (goto t (Done (RInt rv)) q None s)
      | FrontRead =>
          match q with
          | [] => Some (goto t Undef q m s)
          | x :: _ => Some (goto t (Done (RInt x)) q m s)
          end
      | EmptyRead =>
          Some (goto t (Done (RBool (Z.of_nat (length q) <=? 0))) q m s)
      | Done _ | Undef => None
      end
  end.

Fixpoint qrun (sched : list nat) (s : QState) : option QState :=
  match sched with
  | [] => Some s
  | t :: sched' =>
      match qstep t s with
      | None => None
      | Some s' => qrun sched' s'
      end
  end.

Inductive qreach (q : list Z) (ops : list Op) : QState → Prop :=
| qreach_start : qreach q ops (start q ops)
| qreach_step s t s' :
    qreach q ops s → qstep t s = Some s' → qreach q ops s'.

(* What the next statement of a thread does to [m_queue]. *)
Inductive Access :=
| Read
| Write.

Definition next_access (pc : Pc) : option Access :=
  match pc with
  | PushBody _ | PopRemove _ => Some Write
  | PopFront | FrontRead | EmptyRead => Some Read
  | _ => None
  end.

(* Between taking the mutex and releasing it. *)
Definition in_guard (pc : Pc) : bool :=
  match pc with
  | PushBody _ | PushUnlock | PopFront | PopRemove _ | PopUnlock _ => true
  | _ => false
  end.

(** Two threads are about to touch [m_queue] at once, one of them
    writing: the operations they run are not atomic with respect to each
    other. *)
Definition race (s : QState) : Prop :=
  ∃ t1 t2 pc1 pc2 a,
    t1 ≠ t2 ∧ threads s !! t1 = Some pc1 ∧ threads s !! t2 = Some pc2 ∧
    next_access pc1 = Some Write ∧ next_access pc2 = Some a.

Definition locking (op : Op) : bool :=
  match op with
  | OpPush _ | OpPop => true
  | OpFront | OpEmpty => false
  end.

(* Program points of the operations that take the mutex. *)
Definition guarded_pc (pc : Pc) : bool :=
  match pc with
  | FrontRead | EmptyRead => false
  | _ => true
  end.

(* With only push and pop running, a thread between its lock and its
   unlock is the holder of the mutex. *)
Definition Guarded (s : QState) : Prop :=
  ∀ t pc, threads s !! t = Some pc →
    guarded_pc pc = true ∧ (in_guard pc = true → m_mutex s = Some t).

End Locking.

(** ** Schedules and states used as examples *)

(* The trace and the state a schedule leads to from program start; a
   schedule that asks a thread for a step it cannot take leads nowhere. *)
Definition run_trace (cfg : Config) (sched : list Tid) : Trace :=
  match run cfg sched [] init with
  | Some (tr, _) => tr
  | None => []
  end.
Definition run_state (cfg : Config) (sched : list Tid) : State :=
  match run cfg sched [] init with
  | Some (_, s) => s
  | None => init
  end.

Definition boot : list Tid := repeat TMain 15.
Definition one_service : list Tid := boot ++ repeat (TCar 0) 11.
Definition at_pump : list Tid := boot ++ repeat (TCar 0) 4.
Definition null_in_pool : State :=
  {| running := true; carLine := [1]; openPumps := [None; Some 0%nat];
     heap := [{| obj := new_GasPump 1; live := true |}];
     cars := [{| c_car := new_Car 1; c_pc := AtPumpsPop |}];
     main_pc := MSleep; stdout := []; stderr := [] |}.

(* One service by car 0, then shutdown with every other car still at the
   door, join and teardown. *)
Definition quiet_run : list Tid :=
  one_service ++ [TMain; TMain; TCar 0] ++
  flat_map (λ i, [TCar i; TCar i]) (seq 1 9) ++ repeat TMain 16.

(* Cars 0 and 1 are at the pumps, car 2 is first in line, and main has
   cleared the flag. *)
Definition starved : list Tid :=
  boot ++ repeat (TCar 0) 6 ++ repeat (TCar 1) 6 ++ repeat (TCar 2) 3 ++
  [TMain; TMain].

(** ** Further observations: continuations, the stop flag, the order of
    the line *)

(* Runs that continue from a given state. *)
Inductive steps (cfg : Config) : State → Trace → State → Prop :=
| steps_refl s : steps cfg s [] s
| steps_step s tr s1 t a s2 :
    steps cfg s tr s1 →
    step cfg t s1 = Some (a, s2) →
    steps cfg s (tr ++ [(t, a)]) s2.

(* The part of main that runs with the flag still set (lines 146-166). *)
Definition before_stop (pc : MainPC) : bool :=
  match pc with
  | MBanner | MSetup _ | MSpawn _ | MSleep | MStop => true
  | _ => false
  end.

(* The identities pushed to the line and popped from it, in trace order. *)
Definition line_pushes (tr : Trace) : list Z :=
  omap (λ e, match e.2 with ALinePush id => Some id | _ => None end) tr.
Definition line_pops (tr : Trace) : list Z :=
  omap (λ e, match e.2 with ALinePop x => Some x | _ => None end) tr.

(* Calls of PumpGas made by car [i], and calls made on pump [p]. *)
Definition fills_by (i : nat) (tr : Trace) : Z :=
  sumZ (map (λ e, if decide (e.1 = TCar i) then is_service e else 0) tr).
Definition fills_at (p : nat) (tr : Trace) : Z :=
  sumZ (map (λ e, match e.2 with
                  | APumpGas q => if decide (q = p) then 1 else 0
                  | _ => 0
                  end) tr).

(* The pumps in the hands of cars. *)
Definition held (cs : list CarThread) : list nat :=
  omap (λ c, holds (c_pc c)) cs.

(* The part of main before the first [delete] can have run: through the
   joins (lines 146-169). *)
Definition before_drain (pc : MainPC) : bool :=
  match pc with
  | MDrainCheck | MDrainBody | MExit | MUndefined => false
  | _ => true
  end.

(* The part of main with all pumps allocated and none deleted (lines
   156-169). *)
Definition station_open (pc : MainPC) : bool :=
  match pc with
  | MSpawn _ | MSleep | MStop | MJoin _ => true
  | _ => false
  end.

(* The identities of the cars that took a pump from the pool, in the
   order in which they took it. *)
Definition takers (tr : Trace) : list Z :=
  omap (λ e, match e with
             | (TCar i, APumpsPop (Some _)) => Some (Z.of_nat i + 1)
             | _ => None
             end) tr.

(* The car that has its pump and is about to leave the line (line 131). *)
Definition leaving_car (c : CarThread) : option Z :=
  match c_pc c with
  | AtLinePop _ => Some (m_id (c_car c))
  | _ => None
  end.
Definition leaving (cs : list CarThread) : list Z := omap leaving_car cs.

(* How often [delete] ran on pump [p]. *)
Definition deleted_at (p : nat) (e : Tid * Action) : Z :=
  match e.2 with
  | ADelete (Some q) => if decide (q = p) then 1 else 0
  | _ => 0
  end.
Definition deletes_of (p : nat) (tr : Trace) : Z := sumZ (map (deleted_at p) tr).

(** ** Observations on the queue operations *)

Module LockingObs.
Import Locking.

(* The program points of each operation. *)
Definition runs (op : Op) (pc : Pc) : Prop :=
  match op with
  | OpPush x =>
      pc = PushLock x ∨ pc = PushBody x ∨ pc = PushUnlock ∨ pc = Done RVoid
  | OpPop =>
      pc = PopLock ∨ pc = PopFront ∨ pc = Undef ∨
      ∃ rv, pc = PopRemove rv ∨ pc = PopUnlock rv ∨ pc = Done (RInt rv)
  | OpFront => pc = FrontRead ∨ pc = Undef ∨ ∃ x, pc = Done (RInt x)
  | OpEmpty => pc = EmptyRead ∨ ∃ b, pc = Done (RBool b)
  end.

(* The item a push has put into the queue, the item a pop has taken out. *)
Definition pushed_in (x : Op * Pc) : list Z :=
  match x with
  | (OpPush item, PushUnlock) | (OpPush item, Done _) => [item]
  | _ => []
  end.
Definition popped_out (x : Op * Pc) : list Z :=
  match x with
  | (OpPop, PopUnlock rv) | (OpPop, Done (RInt rv)) => [rv]
  | _ => []
  end.
Definition all_in (ops : list Op) (ths : list Pc) : list Z :=
  flat_map pushed_in (zip ops ths).
Definition all_out (ops : list Op) (ths : list Pc) : list Z :=
  flat_map popped_out (zip ops ths).

(* The items of the push operations among [ops]. *)
Definition items (ops : list Op) : list Z :=
  flat_map (λ op, match op with OpPush item => [item] | _ => [] end) ops.

Definition returned (pc : Pc) : Prop := ∃ r, pc = Done r.

(* The state a schedule of statements leads to from the start. *)
Definition after (sched : list nat) (q0 : list Z) (ops : list Op) : QState :=
  match qrun sched (start q0 ops) with
  | Some s => s
  | None => start q0 ops
  end.

Record Sound (q0 : list Z) (ops : list Op) (s : QState) : Prop := {
  snd_len : length (threads s) = length ops;
  snd_runs : ∀ t op pc, ops !! t = Some op → threads s !! t = Some pc → runs op pc;
  snd_hold : ∀ t pc, threads s !! t = Some pc → in_guard pc = true →
      m_mutex s = Some t;
  snd_owner : ∀ t, m_mutex s = Some t →
      ∃ pc, threads s !! t = Some pc ∧ (in_guard pc = true ∨ pc = Undef);
  snd_head : ∀ t rv, threads s !! t = Some (PopRemove rv) →
      head (m_queue s) = Some rv;
  snd_items : q0 ++ all_in ops (threads s) ≡ₚ m_queue s ++ all_out ops (threads s)
}.

(* What a statement may do to the mutex ... *)
Inductive mutex_move (t : nat) (pc pc' : Pc) (m m' : option nat) : Prop :=
| mm_keep :
    m' = m → (in_guard pc' = true → in_guard pc = true) →
    (in_guard pc = true ∨ pc = Undef → in_guard pc' = true ∨ pc' = Undef) →
    mutex_move t pc pc' m m'
| mm_acquire :
    m = None → m' = Some t → in_guard pc' = true →
    mutex_move t pc pc' m m'
| mm_release :
    in_guard pc = true → m' = None → in_guard pc' = false → pc' ≠ Undef →
    mutex_move t pc pc' m m'.

(* ... and to the queue. *)
Inductive queue_move (op : Op) (pc pc' : Pc) (q q' : list Z) : Prop :=
| qm_keep :
    q' = q → pushed_in (op, pc') = pushed_in (op, pc) →
    popped_out (op, pc') = popped_out (op, pc) →
    (∀ rv, pc' = PopRemove rv → head q = Some rv) →
    queue_move op pc pc' q q'
| qm_put x :
    in_guard pc = true → q' = q ++ [x] →
    pushed_in (op, pc) = [] → pushed_in (op, pc') = [x] →
    popped_out (op, pc') = popped_out (op, pc) →
    (∀ rv, pc' ≠ PopRemove rv) →
    queue_move op pc pc' q q'
| qm_take rv :
    in_guard pc = true → q = rv :: q' →
    popped_out (op, pc) = [] → popped_out (op, pc') = [rv] →
    pushed_in (op, pc') = pushed_in (op, pc) →
    (∀ rv', pc' ≠ PopRemove rv') →
    queue_move op pc pc' q q'.

End LockingObs.

(* Cars that have not left their loop. *)
Definition still_running (c : CarThread) : Z :=
  if decide (c_pc c = Stopped) then 0 else 1.
Definition unstopped (s : State) : Z := sumZ (map still_running (cars s)).

(* The program built with MAX_PUMPS = 0 and one car, and a schedule that
   brings the car to the wait for a pump (line 127). *)
Definition no_pumps : Config :=
  {| MAX_CARS := 1; MAX_PUMPS := 0;
     PROGRAM_TIME_S := PROGRAM_TIME_S gas_station;
     PUMP_TIME_MS := PUMP_TIME_MS gas_station |}.
Definition to_the_pumps : list Tid := repeat TMain 4 ++ repeat (TCar 0) 3.

(** * Proofs *)

(** ** Preservation of the protocol invariant *)

Ltac sproj :=
  cbn [running carLine openPumps heap cars main_pc stdout stderr
       set_running set_line set_pumps set_heap set_cars set_main print
       log_error c_car c_pc obj live] in *; unfold GetId in *.

Lemma lookup_goto {A} (l : list A) (i j : nat) (c c' d : A) :
  l !! i = Some c → <[i := c']> l !! j = Some d →
  (j = i ∧ d = c') ∨ (j ≠ i ∧ l !! j = Some d).
Proof.
  intros Hi Hj. destruct (decide (i = j)) as [->|Hne].
  - rewrite list_lookup_insert_eq in Hj by (eapply lookup_lt_Some; eauto).
    left. split; congruence.
  - rewrite list_lookup_insert_ne in Hj by done. right. auto.
Qed.

Lemma lookup_snoc {A} (l : list A) (j : nat) (c' d : A) :
  (l ++ [c']) !! j = Some d →
  (j = length l ∧ d = c') ∨ ((j < length l)%nat ∧ l !! j = Some d).
Proof.
  intros Hj. destruct (decide (j < length l)%nat) as [Hlt|Hge].
  - rewrite lookup_app_l in Hj by done. auto.
  - rewrite lookup_app_r in Hj by lia.
    destruct (j - length l)%nat eqn:E; simpl in Hj; [|by destruct n].
    left. split; [lia|congruence].
Qed.


Lemma front_push (l : list Z) x y :
  MyQueue.front l = Some x → MyQueue.front (MyQueue.push y l) = Some x.
Proof. destruct l; simpl; intros; simplify_eq; eauto. Qed.

Lemma line_ids_inj cs l i j c d :
  LineOK cs l → cs !! i = Some c → cs !! j = Some d →
  m_id (c_car c) = m_id (c_car d) → i = j.
Proof.
  intros HL Hi Hj E.
  destruct (line_ids _ _ HL _ _ Hi) as [Ei _], (line_ids _ _ HL _ _ Hj) as [Ej _].
  lia.
Qed.

Lemma line_step cs l i me pc me' pc' l' :
  LineOK cs l →
  cs !! i = Some {| c_car := me; c_pc := pc |} →
  m_id me' = m_id me → m_name me' = m_name me →
  line_move (m_id me) pc pc' l l' →
  LineOK (<[i := {| c_car := me'; c_pc := pc' |}]> cs) l'.
Proof.
  intros HL Hc Eid Ename Hmove.
  pose proof (line_ids _ _ HL _ _ Hc) as Hid.
  pose proof (line_in _ _ HL _ _ Hc) as Hin.
  pose proof (line_front _ _ HL _ _ Hc) as Hfr.
  cbn in Hid, Hin, Hfr.
  assert (Hother : ∀ j d, j ≠ i → cs !! j = Some d → m_id (c_car d) ≠ m_id me).
  { intros j d Hne Hj E. apply Hne. eapply line_ids_inj; eauto. }
  assert (Hknown : ∀ x, x ∈ l →
            ∃ j d, <[i := {| c_car := me'; c_pc := pc' |}]> cs !! j = Some d ∧
                   m_id (c_car d) = x).
  { intros x Hx. destruct (line_known _ _ HL _ Hx) as (j & d & Hj & Ed).
    destruct (decide (j = i)) as [->|Hne].
    - eexists i, _. rewrite list_lookup_insert_eq by (eapply lookup_lt_Some; eauto).
      split; [done|]. cbn. simplify_eq. cbn. done.
    - exists j, d. by rewrite list_lookup_insert_ne. }
  split.
  - intros j d Hj. destruct (lookup_goto _ _ _ _ _ _ Hc Hj) as [[-> ->]|[Hne Hj']].
    + cbn. rewrite Eid, Ename. done.
    + eapply line_ids; eauto.
  - destruct Hmove as [-> _ _ | -> Hout _ _ | -> _ _].
    + apply HL.
    + apply NoDup_app. split; [apply HL|]. split; [|apply NoDup_singleton].
      intros x Hx Hx'. apply list_elem_of_singleton in Hx'. subst x.
      apply Hin in Hx. congruence.
    + pose proof (line_nodup _ _ HL) as Hnd. by apply NoDup_cons in Hnd as [_ ?].
  - intros j d Hj. destruct (lookup_goto _ _ _ _ _ _ Hc Hj) as [[-> ->]|[Hne Hj']]; cbn.
    + rewrite Eid. destruct Hmove as [-> E _ | -> _ E _ | -> E _].
      * rewrite E. done.
      * rewrite E. split; [|done]. intros _. apply elem_of_app. right. by left.
      * rewrite E. split; [done|]. intros Hx.
        pose proof (line_nodup _ _ HL) as Hnd. apply NoDup_cons in Hnd as [Hnd _]. done.
    + pose proof (line_in _ _ HL _ _ Hj') as Hin'.
      pose proof (Hother _ _ Hne Hj') as Hneq.
      destruct Hmove as [-> _ _ | -> _ _ _ | -> _ _].
      * done.
      * rewrite Hin'. unfold MyQueue.push. rewrite elem_of_app, list_elem_of_singleton.
        tauto.
      * rewrite Hin'. rewrite elem_of_cons. tauto.
  - intros x Hx.
    destruct Hmove as [-> _ _ | -> Hout _ _ | -> _ _];
      [by apply Hknown| |by apply Hknown; right].
    unfold MyQueue.push in Hx. apply elem_of_app in Hx as [Hx|Hx]; [by apply Hknown|].
    apply list_elem_of_singleton in Hx. subst x.
    exists i, {| c_car := me'; c_pc := pc' |}.
    rewrite list_lookup_insert_eq by (eapply lookup_lt_Some; eauto). done.
  - intros j d Hj Hf. destruct (lookup_goto _ _ _ _ _ _ Hc Hj) as [[-> ->]|[Hne Hj']]; cbn in *.
    + rewrite Eid. destruct Hmove as [-> _ H | -> _ _ E | -> _ E]; [|congruence..].
      destruct (H Hf); auto.
    + pose proof (line_front _ _ HL _ _ Hj' Hf) as Hfr'.
      destruct Hmove as [-> _ _ | -> _ _ _ | -> _ _]; [done|by apply front_push|].
      cbn in Hfr'. simplify_eq. exfalso. eapply Hother; eauto.
Qed.

Lemma lookup_goto_eq {A} (l : list A) (i : nat) (c c' : A) :
  l !! i = Some c → <[i := c']> l !! i = Some c'.
Proof. intros. apply list_lookup_insert_eq. by eapply lookup_lt_Some. Qed.

Lemma pool_step cs q h i me pc me' pc' q' h' :
  PoolOK cs q h →
  cs !! i = Some {| c_car := me; c_pc := pc |} →
  (∀ p, is_live h' p ↔ is_live h p) →
  (∀ p cell, h' !! p = Some cell →
     m_id (obj cell) = Z.of_nat p + 1 ∧ m_name (obj cell) = "Pump") →
  pool_move (∀ j d, cs !! j = Some d → c_pc d = AtPumpsPop → j = i) pc pc' q q' →
  PoolOK (<[i := {| c_car := me'; c_pc := pc' |}]> cs) q' h'.
Proof.
  intros HP Hc Hlive Hids Hmove.
  pose proof (λ p, pool_hold _ _ _ HP _ _ p Hc) as Hh. cbn in Hh.
  pose proof (pool_nodup _ _ _ HP) as Hnd.
  split.
  - done.
  - intros x Hx. setoid_rewrite Hlive.
    destruct Hmove as [-> _ _ | p -> _ _ _ _ | p -> Hp _ _].
    + by apply (pool_live _ _ _ HP).
    + apply (pool_live _ _ _ HP). by right.
    + apply elem_of_app in Hx as [Hx|Hx]; [by apply (pool_live _ _ _ HP)|].
      apply list_elem_of_singleton in Hx. subst x. exists p. split; [done|].
      by apply Hh.
  - destruct Hmove as [-> _ _ | p -> _ _ _ _ | p -> Hp _ _].
    + done.
    + by apply NoDup_cons in Hnd as [_ ?].
    + apply NoDup_app. split; [done|]. split; [|apply NoDup_singleton].
      intros x Hx Hx'. apply list_elem_of_singleton in Hx'. subst x.
      by apply (Hh _ Hp).
  - intros j d p0 Hj Hd. rewrite Hlive.
    destruct (lookup_goto _ _ _ _ _ _ Hc Hj) as [[-> ->]|[Hne Hj']]; cbn in *.
    + destruct Hmove as [-> E _ | p -> _ E _ _ | p -> _ E _].
      * apply Hh. congruence.
      * assert (p0 = p) as -> by congruence.
        apply NoDup_cons in Hnd as [Hnd _]. split; [|done].
        destruct (pool_live _ _ _ HP (Some p)) as (p' & ? & ?); [by left|].
        by simplify_eq.
      * congruence.
    + destruct (pool_hold _ _ _ HP _ _ _ Hj' Hd) as [Hl Hnot]. split; [done|].
      destruct Hmove as [-> _ _ | p -> _ _ _ _ | p -> Hp _ _].
      * done.
      * intros Hin. apply Hnot. by right.
      * intros Hin. apply elem_of_app in Hin as [Hin|Hin]; [done|].
        apply list_elem_of_singleton in Hin. simplify_eq.
        apply Hne. eapply (pool_excl _ _ _ HP); eauto.
  - assert (Hone : ∀ j d p0, j ≠ i → cs !! j = Some d →
              holds pc' = Some p0 → holds (c_pc d) = Some p0 → False).
    { intros j d p0 Hne Hj' E1 E2.
      destruct Hmove as [-> E _ | p -> _ E _ _ | p -> _ E _].
      - apply Hne. eapply (pool_excl _ _ _ HP _ _ _ _ p0 Hj' Hc); eauto.
        cbn. congruence.
      - assert (p0 = p) as -> by congruence.
        destruct (pool_hold _ _ _ HP _ _ _ Hj' E2) as [_ Hnot]. apply Hnot. by left.
      - congruence. }
    intros j1 j2 d1 d2 p0 Hj1 Hj2 E1 E2.
    destruct (lookup_goto _ _ _ _ _ _ Hc Hj1) as [[-> ->]|[Hne1 Hj1']];
    destruct (lookup_goto _ _ _ _ _ _ Hc Hj2) as [[-> ->]|[Hne2 Hj2']]; cbn in *.
    + done.
    + exfalso. eapply Hone; eauto.
    + exfalso. eapply Hone; eauto.
    + eapply (pool_excl _ _ _ HP); eauto.
  - intros j d Hj Hd.
    destruct (lookup_goto _ _ _ _ _ _ Hc Hj) as [[-> ->]|[Hne Hj']]; cbn in *.
    + destruct Hmove as [-> _ E | p -> _ _ E _ | p -> _ _ E]; auto.
    + destruct Hmove as [-> _ _ | p -> _ _ _ E | p -> _ _ _].
      * eapply (pool_ready _ _ _ HP); eauto.
      * exfalso. apply Hne. eapply E; eauto.
      * unfold MyQueue.push. by destruct q.
  - intros p0 Hp0. apply Hlive in Hp0.
    assert (Hkeep : ∀ j d, j ≠ i → cs !! j = Some d → holds (c_pc d) = Some p0 →
              ∃ j d, <[i := {| c_car := me'; c_pc := pc' |}]> cs !! j = Some d ∧
                     holds (c_pc d) = Some p0).
    { intros j d Hne Hj Hd. exists j, d. by rewrite list_lookup_insert_ne. }
    assert (Hme : holds pc' = Some p0 →
              ∃ j d, <[i := {| c_car := me'; c_pc := pc' |}]> cs !! j = Some d ∧
                     holds (c_pc d) = Some p0).
    { intros E. eexists i, _. split; [by eapply lookup_goto_eq|done]. }
    destruct (pool_noleak _ _ _ HP _ Hp0) as [Hin|(j & d & Hj & Hd)].
    + destruct Hmove as [-> _ _ | p -> _ E _ _ | p -> _ _ _].
      * by left.
      * apply elem_of_cons in Hin as [Hin|Hin]; [|by left].
        right. apply Hme. congruence.
      * left. apply elem_of_app. by left.
    + destruct (decide (j = i)) as [->|Hne]; [|right; eauto].
      simplify_eq. cbn in Hd.
      destruct Hmove as [-> E _ | p -> E _ _ _ | p -> E _ _].
      * right. apply Hme. congruence.
      * congruence.
      * left. apply elem_of_app. right. apply list_elem_of_singleton. congruence.
Qed.

Lemma car_step_defined cfg s i c a s' :
  Inv cfg s → cars s !! i = Some c → car_step i c s = Some (a, s') →
  a ≠ AUndefined ∧ a ≠ APumpsPop None.
Proof.
  intros HI Hc Hs. destruct c as [me pc].
  pose proof (proj1 (line_in _ _ (inv_line _ _ HI) _ _ Hc)) as Hl.
  pose proof (line_front _ _ (inv_line _ _ HI) _ _ Hc) as Hf.
  pose proof (pool_ready _ _ _ (inv_pool _ _ HI) _ _ Hc) as Hr.
  pose proof (λ p, pool_hold _ _ _ (inv_pool _ _ HI) _ _ p Hc) as Hh.
  pose proof (pool_live _ _ _ (inv_pool _ _ HI)) as Hp.
  unfold car_step in Hs.
  destruct pc; sproj; repeat case_match; simplify_eq; sproj; try done.
  all: cbn in Hl, Hf, Hr, Hh; exfalso.
  - specialize (Hl eq_refl). destruct (carLine s); [by apply not_elem_of_nil in Hl | done].
  - destruct (openPumps s) as [|q r] eqn:E; cbn in *; simplify_eq.
    destruct (Hp None) as (p & ? & _); [left | done].
  - destruct (openPumps s); [by destruct Hr | done].
  - specialize (Hf eq_refl). destruct (carLine s); done.
  - destruct (Hh _ eq_refl) as [[g Hg] _]. simplify_eq.
  - destruct (Hh _ eq_refl) as [[g Hg] _]. simplify_eq.
Qed.

Lemma is_live_pump (h : list Cell) (p : nat) g p' :
  h !! p = Some {| obj := g; live := true |} →
  is_live (<[p := {| obj := PumpGas g; live := true |}]> h) p' ↔ is_live h p'.
Proof.
  intros Hp. unfold is_live. destruct (decide (p = p')) as [->|Hne].
  - rewrite list_lookup_insert_eq by (by eapply lookup_lt_Some). split; eauto.
  - by rewrite list_lookup_insert_ne.
Qed.

Lemma pump_ids_pump (h : list Cell) (p : nat) g :
  (∀ p cell, h !! p = Some cell →
     m_id (obj cell) = Z.of_nat p + 1 ∧ m_name (obj cell) = "Pump") →
  h !! p = Some {| obj := g; live := true |} →
  ∀ p' cell, <[p := {| obj := PumpGas g; live := true |}]> h !! p' = Some cell →
     m_id (obj cell) = Z.of_nat p' + 1 ∧ m_name (obj cell) = "Pump".
Proof.
  intros Hids Hp p' cell Hp'.
  destruct (lookup_goto _ _ _ _ _ _ Hp Hp') as [[-> ->]|[Hne Hj']]; [|eauto].
  apply (Hids _ _ Hp).
Qed.

Lemma main_inv_car_step cfg s s' i me pc c' :
  main_inv cfg s →
  cars s !! i = Some {| c_car := me; c_pc := pc |} → pc ≠ Stopped →
  main_pc s' = main_pc s → cars s' = <[i := c']> (cars s) →
  length (heap s') = length (heap s) →
  main_inv cfg s'.
Proof.
  unfold main_inv, pumps_built, cars_built, all_exited.
  intros HM Hc Hpc -> Ecars Eheap. rewrite Ecars, Eheap, length_insert.
  destruct (main_pc s); try tauto.
  - destruct HM as (E & _). rewrite E in Hc. done.
  - destruct HM as (E & _). rewrite E in Hc. done.
  - destruct HM as (? & ? & HM). do 2 (split; [done|]).
    intros j d Hlt Hj. destruct (lookup_goto _ _ _ _ _ _ Hc Hj) as [[-> ->]|[Hne Hj']].
    + by specialize (HM _ _ Hlt Hc).
    + eauto.
  - destruct HM as (? & ? & HM). by specialize (HM _ _ Hc).
  - destruct HM as (? & ? & HM & _). by specialize (HM _ _ Hc).
  - destruct HM as (? & ? & HM & _). by specialize (HM _ _ Hc).
Qed.

Lemma inv_car_step cfg s i c a s' :
  Inv cfg s → cars s !! i = Some c → car_step i c s = Some (a, s') →
  Inv cfg s'.
Proof.
  intros HI Hc Hs.
  destruct (car_step_defined _ _ _ _ _ _ HI Hc Hs) as [Hdef Hnull].
  destruct c as [me pc].
  pose proof (line_front _ _ (inv_line _ _ HI) _ _ Hc) as Hf.
  pose proof (pool_ready _ _ _ (inv_pool _ _ HI) _ _ Hc) as Hr.
  unfold car_step in Hs.
  destruct pc; sproj; repeat case_match; simplify_eq; sproj; try done.
  all: cbn in Hf, Hr.
  all: split; sproj;
    [ eapply line_step; [apply HI | exact Hc | done | done | ]
    | eapply pool_step; [apply HI | exact Hc | | | ]
    | intros j d Hj;
      destruct (lookup_goto _ _ _ _ _ _ Hc Hj) as [[-> ->]|[Hne Hj']];
      [done | by eapply (inv_nofault _ _ HI)]
    | eapply main_inv_car_step;
      [apply HI | exact Hc | done | done | done | sproj; by rewrite ?length_insert ] ].
  all: try (by apply (pool_ids _ _ _ (inv_pool _ _ HI))).
  all: try done.
  all: try (solve [apply lm_stay; cbn; auto]).
  all: try (solve [apply lm_push; cbn; auto]).
  all: try (solve [apply pm_stay; cbn; auto]).
  - apply Z.eqb_eq in H0. subst z. apply lm_stay; cbn; auto.
  - apply pm_stay; cbn; auto. intros _ E. by rewrite E in H.
  - destruct (openPumps s) as [|x q] eqn:Eq; cbn in H; simplify_eq.
    apply (pm_take _ _ _ _ _ n); cbn; auto.
    intros j d Hj Hd. eapply line_ids_inj; [apply HI|exact Hj|exact Hc|].
    pose proof (line_front _ _ (inv_line _ _ HI) _ _ Hj) as Hf'.
    rewrite Hd in Hf'. specialize (Hf eq_refl). specialize (Hf' eq_refl).
    cbn. congruence.
  - specialize (Hf eq_refl). destruct (carLine s) as [|x r] eqn:El; cbn in *; simplify_eq.
    by apply lm_pop.
  - intros p. by apply is_live_pump.
  - apply pump_ids_pump; [apply (pool_ids _ _ _ (inv_pool _ _ HI))|done].
  - by apply (pm_give _ _ _ _ _ myPump).
Qed.

Lemma line_spawn cs l id :
  LineOK cs l → id = Z.of_nat (length cs) + 1 →
  LineOK (cs ++ [{| c_car := new_Car id; c_pc := AtEnterLine |}]) l.
Proof.
  intros HL ->. split.
  - intros j d Hj. destruct (lookup_snoc _ _ _ _ Hj) as [[-> ->]|[_ Hj']]; [done|].
    by eapply line_ids.
  - apply HL.
  - intros j d Hj. destruct (lookup_snoc _ _ _ _ Hj) as [[-> ->]|[_ Hj']].
    + cbn. split; [done|]. intros Hin.
      destruct (line_known _ _ HL _ Hin) as (k & c & Hk & Ek).
      destruct (line_ids _ _ HL _ _ Hk) as [Ek' _].
      apply lookup_lt_Some in Hk. lia.
    + by eapply line_in.
  - intros x Hx. destruct (line_known _ _ HL _ Hx) as (k & c & Hk & Ek).
    exists k, c. split; [|done]. rewrite lookup_app_l; [done|by eapply lookup_lt_Some].
  - intros j d Hj. destruct (lookup_snoc _ _ _ _ Hj) as [[-> ->]|[_ Hj']]; [done|].
    by eapply line_front.
Qed.

Lemma pool_spawn cs q h c :
  PoolOK cs q h → holds (c_pc c) = None → c_pc c ≠ AtPumpsPop →
  PoolOK (cs ++ [c]) q h.
Proof.
  intros HP Hh Hpc. split; try apply HP.
  - intros j d p Hj. destruct (lookup_snoc _ _ _ _ Hj) as [[-> ->]|[_ Hj']]; [congruence|].
    by eapply pool_hold.
  - intros j1 j2 d1 d2 p Hj1 Hj2.
    destruct (lookup_snoc _ _ _ _ Hj1) as [[-> ->]|[_ Hj1']]; [congruence|].
    destruct (lookup_snoc _ _ _ _ Hj2) as [[-> ->]|[_ Hj2']]; [congruence|].
    by eapply pool_excl.
  - intros j d Hj. destruct (lookup_snoc _ _ _ _ Hj) as [[-> ->]|[_ Hj']]; [congruence|].
    by eapply pool_ready.
  - intros p Hp. destruct (pool_noleak _ _ _ HP _ Hp) as [?|(j & d & Hj & Hd)]; [by left|].
    right. exists j, d. split; [|done].
    rewrite lookup_app_l; [done|by eapply lookup_lt_Some].
Qed.

Lemma pool_new q (h : list Cell) id :
  PoolOK [] q h → id = Z.of_nat (length h) + 1 →
  PoolOK [] (MyQueue.push (Some (length h)) q)
    (h ++ [{| obj := new_GasPump id; live := true |}]).
Proof.
  intros HP ->.
  assert (Hlive : ∀ p, is_live h p →
            is_live (h ++ [{| obj := new_GasPump (Z.of_nat (length h) + 1); live := true |}]) p).
  { intros p [g Hg]. exists g. rewrite lookup_app_l; [done|by eapply lookup_lt_Some]. }
  split; try done.
  - intros p cell Hp. destruct (lookup_snoc _ _ _ _ Hp) as [[-> ->]|[_ Hp']]; [done|].
    by eapply pool_ids.
  - intros x Hx. apply elem_of_app in Hx as [Hx|Hx].
    + destruct (pool_live _ _ _ HP _ Hx) as (p & -> & Hp). eauto.
    + apply list_elem_of_singleton in Hx. subst x. eexists. split; [done|].
      eexists. by rewrite lookup_app_r, Nat.sub_diag.
  - apply NoDup_app. split; [apply HP|]. split; [|apply NoDup_singleton].
    intros x Hx Hx'. apply list_elem_of_singleton in Hx'. subst x.
    destruct (pool_live _ _ _ HP _ Hx) as (p & ? & g & Hp). simplify_eq.
    apply lookup_lt_Some in Hp. lia.
  - intros p [g Hg]. left. apply elem_of_app.
    destruct (lookup_snoc _ _ _ _ Hg) as [[-> _]|[_ Hp']].
    + right. by apply list_elem_of_singleton.
    + left. destruct (pool_noleak _ _ _ HP p) as [?|(j & d & Hj & _)]; [by exists g|done|done].
Qed.

Lemma pool_delete cs q (h : list Cell) (p : nat) g :
  PoolOK cs (Some p :: q) h →
  (∀ i c, cs !! i = Some c → c_pc c = Stopped) →
  h !! p = Some {| obj := g; live := true |} →
  PoolOK cs q (<[p := {| obj := g; live := false |}]> h).
Proof.
  intros HP Hidle Hp.
  pose proof (pool_nodup _ _ _ HP) as Hnd. apply NoDup_cons in Hnd as [Hnot Hnd].
  assert (Hlive : ∀ p', is_live (<[p := {| obj := g; live := false |}]> h) p' ↔
                        p' ≠ p ∧ is_live h p').
  { intros p'. unfold is_live. destruct (decide (p = p')) as [->|Hne].
    - rewrite list_lookup_insert_eq by (by eapply lookup_lt_Some).
      split; [by intros [? ?]|by intros [? _]].
    - rewrite list_lookup_insert_ne by done. split; [|tauto]. intros; split; [congruence|done]. }
  split.
  - intros p' cell Hp'. destruct (lookup_goto _ _ _ _ _ _ Hp Hp') as [[-> ->]|[Hne Hj']].
    + apply (pool_ids _ _ _ HP _ _ Hp).
    + by eapply pool_ids.
  - intros x Hx. destruct (pool_live _ _ _ HP x) as (p' & -> & Hp'); [by right|].
    exists p'. split; [done|]. apply Hlive. split; [|done]. intros ->. done.
  - done.
  - intros i c p' Hi Hh. rewrite (Hidle _ _ Hi) in Hh. done.
  - intros i j c d p' Hi _ Hh. rewrite (Hidle _ _ Hi) in Hh. done.
  - intros i c Hi Hpc. rewrite (Hidle _ _ Hi) in Hpc. done.
  - intros p' Hp'. apply Hlive in Hp' as [Hne Hp'].
    destruct (pool_noleak _ _ _ HP _ Hp') as [Hin|(j & d & Hj & Hd)].
    + left. apply elem_of_cons in Hin as [?|?]; [congruence|done].
    + rewrite (Hidle _ _ Hj) in Hd. done.
Qed.

Lemma empty_true {T} (q : list T) : MyQueue.empty q = true ↔ q = [].
Proof.
  unfold MyQueue.empty. destruct q; cbn; [done|]. split; [|done]. intros H.
  apply Z.leb_le in H. lia.
Qed.

Lemma inv_main_step cfg s a s' :
  Inv cfg s → main_step cfg s = Some (a, s') → Inv cfg s'.
Proof.
  intros HI Hs. pose proof (inv_main _ _ HI) as HM.
  destruct HI as [HL HP HF _].
  unfold main_step in Hs. unfold main_inv in HM.
  destruct (main_pc s) eqn:Epc; try done.
  - (* banner *)
    simplify_eq. split; sproj; try done.
    unfold main_inv; sproj. destruct HM as (-> & -> & _).
    split; [done|]. split; [lia|done].
  - (* pump allocation loop *)
    destruct HM as (Ecs & Hi & Eh).
    destruct (i <? MAX_PUMPS cfg) eqn:Elt; simplify_eq; split; sproj; try done.
    + rewrite Ecs in *. apply pool_new; [done|lia].
    + unfold main_inv; sproj. rewrite length_app. cbn [length].
      apply Z.ltb_lt in Elt. split; [done|]. lia.
    + unfold main_inv, pumps_built; sproj. rewrite Ecs. cbn [length].
      apply Z.ltb_ge in Elt. lia.
  - (* thread creation loop *)
    destruct HM as (Hb & Hi & Ecs).
    destruct (i <? MAX_CARS cfg) eqn:Elt; simplify_eq; split; sproj; try done.
    + apply line_spawn; [done|lia].
    + by apply pool_spawn.
    + intros j d Hj. destruct (lookup_snoc _ _ _ _ Hj) as [[-> ->]|[_ Hj']]; [done|].
      by eapply HF.
    + unfold main_inv, pumps_built in *; sproj. rewrite length_app. cbn [length].
      apply Z.ltb_lt in Elt. lia.
    + unfold main_inv, pumps_built, cars_built in *; sproj.
      apply Z.ltb_ge in Elt. lia.
  - simplify_eq. split; sproj; done.
  - simplify_eq. split; sproj; try done.
    unfold main_inv; sproj. destruct HM as (? & ?). do 2 (split; [done|]).
    intros; lia.
  - (* join *)
    destruct HM as (Hb & Hc & Hk).
    destruct (cars s !! k) as [c|] eqn:Ek.
    + destruct (exited (c_pc c)) eqn:Ex; simplify_eq. split; sproj; try done.
      unfold main_inv; sproj. do 2 (split; [done|]).
      intros j d Hlt Hj. destruct (decide (j = k)) as [->|Hne]; [|apply (Hk j); [lia|done]].
      rewrite Ek in Hj. injection Hj as <-.
      destruct (HF _ _ Ek) as [_ Hab]. by destruct (c_pc c).
    + simplify_eq. split; sproj; try done.
      unfold main_inv, all_exited; sproj. do 2 (split; [done|]).
      intros j d Hj. apply (Hk j); [|done].
      apply lookup_ge_None in Ek. apply lookup_lt_Some in Hj. lia.
  - (* drain test *)
    destruct HM as (Hb & Hc & Hex).
    destruct (MyQueue.empty (openPumps s)) eqn:Ee; simplify_eq; split; sproj; try done.
    + unfold main_inv; sproj. by apply empty_true in Ee.
    + unfold main_inv; sproj. do 3 (split; [done|]). intros E. apply empty_true in E.
      congruence.
  - (* drain body *)
    destruct HM as (Hb & Hc & Hex & Hne).
    destruct (openPumps s) as [|x q] eqn:Eq; [done|]. cbn in Hs.
    destruct (pool_live _ _ _ HP x) as (p & -> & g & Hg); [by left|].
    rewrite Hg in Hs. simplify_eq. split; sproj; try done.
    + by apply pool_delete.
    + unfold main_inv, pumps_built in *; sproj. by rewrite length_insert.
Qed.

Lemma inv_init cfg : Inv cfg init.
Proof.
  split; cbn; try done.
  - split; try done; [apply NoDup_nil_2|]. intros x Hx. by apply not_elem_of_nil in Hx.
  - split; try done; [|apply NoDup_nil_2|by intros p [g Hg]].
    intros x Hx. by apply not_elem_of_nil in Hx.
Qed.

Lemma inv_step cfg s t a s' : Inv cfg s → step cfg t s = Some (a, s') → Inv cfg s'.
Proof.
  intros HI Hs. destruct t as [|i]; cbn in Hs.
  - by eapply inv_main_step.
  - destruct (cars s !! i) as [c|] eqn:Hc; [|done]. by eapply inv_car_step.
Qed.

Lemma reach_inv cfg tr s : reach cfg tr s → Inv cfg s.
Proof.
  induction 1; [apply inv_init|by eapply inv_step].
Qed.

(** ** Reachable states and schedules *)

Lemma run_reach_from cfg sched tr s tr' s' :
  reach cfg tr s → run cfg sched tr s = Some (tr', s') → reach cfg tr' s'.
Proof.
  revert tr s. induction sched as [|t sched IH]; intros tr s Hr Hrun; cbn in Hrun.
  - by simplify_eq.
  - destruct (step cfg t s) as [[a s1]|] eqn:Hs; [|done].
    eapply IH; [|exact Hrun]. by eapply reach_step.
Qed.

Lemma run_reach cfg sched tr s :
  run cfg sched [] init = Some (tr, s) → reach cfg tr s.
Proof. apply run_reach_from. constructor. Qed.

Lemma reach_run cfg sched : reach cfg (run_trace cfg sched) (run_state cfg sched).
Proof.
  unfold run_trace, run_state.
  destruct (run cfg sched [] init) as [[tr s]|] eqn:E; [by apply run_reach in E|constructor].
Qed.

Lemma main_step_defined cfg s a s' :
  Inv cfg s → main_step cfg s = Some (a, s') → a ≠ AUndefined.
Proof.
  intros HI Hs ->. pose proof (inv_main _ _ (inv_main_step _ _ _ _ HI Hs)) as HM.
  unfold main_step in Hs.
  destruct (main_pc s); repeat case_match; simplify_eq; done.
Qed.

Lemma step_defined cfg s t a s' :
  Inv cfg s → step cfg t s = Some (a, s') → a ≠ AUndefined ∧ a ≠ APumpsPop None.
Proof.
  intros HI Hs. destruct t as [|i]; cbn in Hs.
  - split; [by eapply main_step_defined|].
    intros ->. unfold main_step in Hs.
    destruct (main_pc s); repeat case_match; simplify_eq.
  - destruct (cars s !! i) as [c|] eqn:Hc; [|done]. by eapply car_step_defined.
Qed.

Lemma step_stderr cfg s t a s' :
  step cfg t s = Some (a, s') → a ≠ APumpsPop None → stderr s' = stderr s.
Proof.
  intros Hs Ha. destruct t as [|i]; cbn in Hs.
  - unfold main_step in Hs.
    destruct (main_pc s); repeat case_match; simplify_eq; done.
  - destruct (cars s !! i) as [[me pc]|] eqn:Hc; [|done]. unfold car_step in Hs.
    destruct pc; cbn in Hs; repeat case_match; simplify_eq; done.
Qed.

Lemma reach_trace_defined cfg tr s :
  reach cfg tr s →
  stderr s = [] ∧ ∀ e, e ∈ tr → e.2 ≠ AUndefined ∧ e.2 ≠ APumpsPop None.
Proof.
  induction 1 as [|tr s t a s' Hr [IHe IHt] Hs].
  - split; [done|]. intros e He. by apply not_elem_of_nil in He.
  - pose proof (step_defined _ _ _ _ _ (reach_inv _ _ _ Hr) Hs) as [Hd Hn].
    split; [by rewrite (step_stderr _ _ _ _ _ Hs Hn)|].
    intros e He. apply elem_of_app in He as [He|He]; [by apply IHt|].
    apply list_elem_of_singleton in He. by subst e.
Qed.

Lemma heap_bound cfg s :
  Inv cfg s → Z.of_nat (length (heap s)) ≤ Z.max 0 (MAX_PUMPS cfg).
Proof.
  intros HI. pose proof (inv_main _ _ HI) as HM. unfold main_inv, pumps_built in HM.
  destruct (main_pc s); try lia; try done.
  destruct HM as (_ & -> & _). cbn. lia.
Qed.

(** ** The queue *)

Lemma calls_contents {T} (cs : list (MyQueue.Call T)) (q0 rvs q : list T) :
  MyQueue.calls cs q0 = Some (rvs, q) → rvs ++ q = q0 ++ MyQueue.pushed cs.
Proof.
  revert q0 rvs q. induction cs as [|[x|] cs IH]; intros q0 rvs q H; cbn in H.
  - simplify_eq. cbn. by rewrite app_nil_r.
  - apply IH in H. unfold MyQueue.push in H. rewrite <- app_assoc in H. done.
  - destruct q0 as [|h q0]; cbn in H; [done|].
    destruct (MyQueue.calls cs q0) as [[rvs' q']|] eqn:E; [|done]. simplify_eq.
    apply IH in E. cbn. by rewrite E.
Qed.

(** C3.  MyQueue is a FIFO.  From any contents [q0], after any history of
    push and pop calls, the values the pops returned followed by what is
    left in the queue are [q0] followed by the pushed items in push order:
    push appends at the tail and pop, on a non-empty queue, removes and
    returns the oldest element.  On a non-empty queue of ints front
    returns the element that pop would return, without removing it; empty
    answers true exactly for the queue with no element. *)
Theorem MyQueue_fifo {T} (cs : list (MyQueue.Call T)) (q0 rvs q : list T) :
  MyQueue.calls cs q0 = Some (rvs, q) →
  rvs ++ q = q0 ++ MyQueue.pushed cs ∧
  (∀ item, MyQueue.push item q = q ++ [item]) ∧
  (∀ h rest, q = h :: rest → MyQueue.pop q = Some (h, rest)) ∧
  (MyQueue.empty q = true ↔ length q = 0%nat) ∧
  (∀ (ids : list Z) h rest, ids = h :: rest →
     MyQueue.front ids = Some h ∧ MyQueue.pop ids = Some (h, rest)).
Proof.
  intros H. split; [by apply calls_contents|]. repeat split.
  - by intros h rest ->.
  - intros E. apply empty_true in E. by subst q.
  - intros E. apply empty_true. by destruct q.
  - by subst ids.
  - by subst ids.
Qed.

Lemma MyQueue_fifo_witness :
  MyQueue.calls [MyQueue.CPush 4; MyQueue.CPush 5; MyQueue.CPop; MyQueue.CPush 6] [3]
    = Some ([3], [4; 5; 6]) ∧
  MyQueue.pop [4; 5; 6] = Some (4, [5; 6]) ∧
  MyQueue.front [3; 4] = Some 3.
Proof.
  split; [reflexivity|].
  pose proof (MyQueue_fifo
    [MyQueue.CPush 4; MyQueue.CPush 5; MyQueue.CPop; MyQueue.CPush 6]
    [3] [3] [4; 5; 6] eq_refl) as (_ & _ & Hp & _ & Hf).
  split; [exact (Hp 4 [5; 6] eq_refl)|exact (proj1 (Hf [3; 4] 3 [4] eq_refl))].
Defined.

(** ** Safety of the protocol *)

(** C6.  In every reachable state the line holds no identity twice, and a
    car's identity is in the line exactly at the program points between
    its push (lines 120, 135) and its own pop (line 131): it is out of the
    line from the pop until it has been served and pushes itself again. *)
Theorem line_no_duplicates cfg tr s :
  reach cfg tr s →
  NoDup (carLine s) ∧
  ∀ i c, cars s !! i = Some c →
    (m_id (c_car c) ∈ carLine s ↔ in_line (c_pc c) = true).
Proof.
  intros Hr. pose proof (reach_inv _ _ _ Hr) as HI. split.
  - apply (line_nodup _ _ (inv_line _ _ HI)).
  - intros i c Hc. symmetry. by eapply (line_in _ _ (inv_line _ _ HI)).
Qed.

Lemma line_no_duplicates_witness :
  NoDup (carLine (run_state gas_station one_service)).
Proof.
  exact (proj1 (line_no_duplicates gas_station _ _ (reach_run gas_station one_service))).
Defined.

(** C4.  pop() of an empty queue is undefined, and no run gets there: in
    every reachable state a car about to execute [pumps.pop()] finds the
    pool non-empty, a car about to execute [line.pop()] finds its own
    identity at the front of the line, main about to execute
    [openPumps.pop()] finds the pool non-empty; no step that is enabled is
    undefined, none was taken, and no thread is at an undefined point. *)
Theorem pops_are_guarded cfg tr s :
  reach cfg tr s →
  MyQueue.pop (@nil Z) = None ∧
  (∀ i c, cars s !! i = Some c → c_pc c = AtPumpsPop → openPumps s ≠ []) ∧
  (∀ i c p, cars s !! i = Some c → c_pc c = AtLinePop p →
     MyQueue.front (carLine s) = Some (m_id (c_car c))) ∧
  (main_pc s = MDrainBody → openPumps s ≠ []) ∧
  (∀ t a s', step cfg t s = Some (a, s') → a ≠ AUndefined) ∧
  (∀ e, e ∈ tr → e.2 ≠ AUndefined) ∧
  (∀ i c, cars s !! i = Some c → c_pc c ≠ Undefined) ∧
  main_pc s ≠ MUndefined.
Proof.
  intros Hr. pose proof (reach_inv _ _ _ Hr) as HI.
  split; [done|]. split; [apply (pool_ready _ _ _ (inv_pool _ _ HI))|].
  split.
  { intros i c p Hc Hpc. apply (line_front _ _ (inv_line _ _ HI) _ _ Hc).
    by rewrite Hpc. }
  split.
  { intros E. pose proof (inv_main _ _ HI) as HM. unfold main_inv in HM.
    rewrite E in HM. tauto. }
  split; [intros t a s' Hs; by eapply step_defined|].
  split; [intros e He; by eapply (reach_trace_defined _ _ _ Hr)|].
  split; [intros i c Hc; by eapply (inv_nofault _ _ HI)|].
  intros E. pose proof (inv_main _ _ HI) as HM. unfold main_inv in HM.
  by rewrite E in HM.
Qed.

Lemma pops_are_guarded_witness :
  openPumps (run_state gas_station at_pump) ≠ [].
Proof.
  eapply (proj1 (proj2 (pops_are_guarded gas_station _ _
                          (reach_run gas_station at_pump))) 0%nat).
  - vm_compute. reflexivity.
  - reflexivity.
Defined.

(** C10.  The null branch of line 130 is unreachable.  In every reachable
    state the pool holds only non-null pointers to pump objects allocated
    by main, of which there are at most MAX_PUMPS; no enabled step pops a
    null pointer, none did, no car is at the return of line 130, and
    nothing was written to stderr. *)
Theorem null_branch_unreachable cfg tr s :
  reach cfg tr s →
  (∀ x, x ∈ openPumps s →
     ∃ p, x = Some p ∧ (p < length (heap s))%nat ∧
          Z.of_nat (length (heap s)) ≤ Z.max 0 (MAX_PUMPS cfg)) ∧
  (∀ t a s', step cfg t s = Some (a, s') → a ≠ APumpsPop None) ∧
  (∀ e, e ∈ tr → e.2 ≠ APumpsPop None) ∧
  (∀ i c, cars s !! i = Some c → c_pc c ≠ Aborted) ∧
  stderr s = [].
Proof.
  intros Hr. pose proof (reach_inv _ _ _ Hr) as HI. split.
  { intros x Hx. destruct (pool_live _ _ _ (inv_pool _ _ HI) _ Hx) as (p & -> & g & Hg).
    exists p. split; [done|]. split; [by eapply lookup_lt_Some|by eapply heap_bound]. }
  split; [intros t a s' Hs; by eapply step_defined|].
  split; [intros e He; by eapply (reach_trace_defined _ _ _ Hr)|].
  split; [intros i c Hc; by eapply (inv_nofault _ _ HI)|].
  apply (reach_trace_defined _ _ _ Hr).
Qed.

Lemma null_branch_unreachable_witness :
  stderr (run_state gas_station one_service) = [].
Proof.
  apply (null_branch_unreachable gas_station _ _ (reach_run gas_station one_service)).
Defined.

(** C9.  If the pointer a car pops from the pool is null, the car writes
    the error line, returns, and never steps again: the null pointer is
    gone from the pool, no pump was used and no counter changed, and the
    line is as it was, so the car's identity stays at its front. *)
Theorem null_pump_aborts cfg s i me rest :
  cars s !! i = Some {| c_car := me; c_pc := AtPumpsPop |} →
  openPumps s = None :: rest →
  MyQueue.front (carLine s) = Some (m_id me) →
  ∃ s',
    step cfg (TCar i) s = Some (APumpsPop None, s') ∧
    cars s' !! i = Some {| c_car := me; c_pc := Aborted |} ∧
    stderr s' = stderr s ++ ["NULL PTR FOUND!"] ∧
    openPumps s' = rest ∧
    heap s' = heap s ∧
    carLine s' = carLine s ∧
    MyQueue.front (carLine s') = Some (m_id me) ∧
    step cfg (TCar i) s' = None.
Proof.
  intros Hc Hq Hf. cbn. rewrite Hc. unfold car_step. cbn. rewrite Hq. cbn.
  eexists. split; [done|]. cbn.
  rewrite list_lookup_insert_eq by (by eapply lookup_lt_Some).
  repeat split; done.
Qed.

Lemma null_pump_aborts_witness :
  ∃ s',
    step gas_station (TCar 0) null_in_pool = Some (APumpsPop None, s') ∧
    pc_of 0 s' = Some Aborted ∧
    stderr s' = ["NULL PTR FOUND!"] ∧
    carLine s' = [1].
Proof.
  destruct (null_pump_aborts gas_station null_in_pool 0 (new_Car 1) [Some 0%nat]
              eq_refl eq_refl eq_refl)
    as (s' & Hs & Hc & He & _ & _ & Hl & _).
  exists s'. split; [exact Hs|]. unfold pc_of. rewrite Hc.
  split; [reflexivity|]. split; [exact He|exact Hl].
Defined.

(** ** Order of the two pops *)

Lemma acts_of_snoc t tr t' a :
  acts_of t (tr ++ [(t', a)]) = acts_of t tr ++ (if decide (t' = t) then [a] else []).
Proof.
  unfold acts_of. rewrite omap_app. cbn. by destruct (decide (t' = t)).
Qed.

Lemma snoc_split {A} (l pre post : list A) (a b : A) :
  l ++ [a] = pre ++ b :: post →
  (post = [] ∧ a = b ∧ pre = l) ∨ (∃ post', post = post' ++ [a] ∧ l = pre ++ b :: post').
Proof.
  intros E. destruct post as [|x post _] using rev_ind.
  - left. apply (app_inj_tail l pre a b) in E as [-> ->]. done.
  - right. exists post.
    change (pre ++ b :: post ++ [x]) with (pre ++ (b :: post) ++ [x]) in E.
    rewrite app_assoc in E. apply app_inj_tail in E as [-> ->]. done.
Qed.

Lemma pbl_snoc_other id acts a :
  pump_before_leave id acts → (∀ x, a ≠ ALinePop x) →
  pump_before_leave id (acts ++ [a]).
Proof.
  intros HP Ha pre post x E.
  destruct (snoc_split _ _ _ _ _ E) as [(_ & -> & _)|(post' & -> & ->)].
  - by destruct (Ha x).
  - by eapply HP.
Qed.

Lemma pbl_snoc_pop id acts p :
  pump_before_leave id acts → recent id (AtLinePop p) acts →
  pump_before_leave id (acts ++ [ALinePop id]).
Proof.
  intros HP (pre0 & n & Hrec) pre post x E.
  destruct (snoc_split _ _ _ _ _ E) as [(_ & Ex & ->)|(post' & -> & ->)].
  - split; [congruence|]. eauto.
  - by eapply HP.
Qed.

Lemma repeat_snoc {A} (x : A) n : repeat x n ++ [x] = repeat x (S n).
Proof. induction n; cbn; [done|]. by rewrite IHn. Qed.

Lemma car_step_cars i c s a s' :
  car_step i c s = Some (a, s') →
  ∃ c', cars s' = <[i := c']> (cars s) ∧ m_id (c_car c') = m_id (c_car c).
Proof.
  intros Hs. destruct c as [me pc]. unfold car_step in Hs.
  destruct pc; cbn in Hs; repeat case_match; simplify_eq; cbn; eauto.
Qed.

Lemma car_acts cfg tr s :
  reach cfg tr s →
  ∀ i,
    (cars s !! i = None → acts_of (TCar i) tr = []) ∧
    (∀ c, cars s !! i = Some c →
       recent (m_id (c_car c)) (c_pc c) (acts_of (TCar i) tr)) ∧
    pump_before_leave (Z.of_nat i + 1) (acts_of (TCar i) tr).
Proof.
  induction 1 as [|tr s t a s' Hr IH Hs].
  - intros i. split; [done|]. split; [done|].
    intros pre post x E. by destruct pre.
  - intros i. destruct (IH i) as (IHn & IHr & IHp). clear IH.
    pose proof (reach_inv _ _ _ Hr) as HI.
    rewrite acts_of_snoc. destruct t as [|j]; cbn in Hs.
    + (* main moved *)
      rewrite decide_False by done. rewrite app_nil_r.
      assert (Hcs : cars s' = cars s ∨
                ∃ id, cars s' = cars s ++ [{| c_car := new_Car id; c_pc := AtEnterLine |}]).
      { unfold main_step in Hs.
        destruct (main_pc s); repeat case_match; simplify_eq; cbn; eauto. }
      split; [|split; [|done]].
      * intros Hn. apply IHn. destruct Hcs as [E|[id E]]; rewrite E in Hn; [done|].
        apply lookup_ge_None in Hn. apply lookup_ge_None.
        rewrite length_app in Hn. lia.
      * intros c Hc. destruct Hcs as [E|[id E]]; rewrite E in Hc; [by apply IHr|].
        destruct (lookup_snoc _ _ _ _ Hc) as [[-> ->]|[_ Hc']]; [done|by apply IHr].
    + destruct (cars s !! j) as [c|] eqn:Hc; [|done].
      destruct (decide (TCar j = TCar i)) as [E|Hne].
      * (* car i moved *)
        injection E as ->. specialize (IHr _ Hc).
        pose proof (line_ids _ _ (inv_line _ _ HI) _ _ Hc) as [Hid _].
        pose proof (line_front _ _ (inv_line _ _ HI) _ _ Hc) as Hf.
        rewrite <- Hid in *.
        destruct (car_step_defined _ _ _ _ _ _ HI Hc Hs) as [Hdef Hnull].
        destruct c as [me pc]. unfold car_step in Hs.
        destruct pc; sproj; repeat case_match; simplify_eq; sproj; try done.
        all: cbn in IHr, Hf.
        all: (split; [intros Hn; apply lookup_ge_None in Hn; rewrite length_insert in Hn;
                      apply lookup_lt_Some in Hc; lia|]).
        all: (split; [intros c' Hc'; rewrite (lookup_goto_eq _ _ _ _ Hc) in Hc';
                      injection Hc' as <-; cbn; try done|]).
        all: try (apply pbl_snoc_other; [done|done]).
        -- apply Z.eqb_eq in H0. subst z. by exists (acts_of (TCar i) tr), 0%nat.
        -- destruct IHr as (pre & n & ->). exists pre, (S n).
           rewrite <- app_assoc. cbn [app]. by rewrite repeat_snoc.
        -- destruct IHr as (pre & n & ->). exists pre, n.
           rewrite <- app_assoc. done.
        -- destruct IHr as (pre & n0 & ->). exists pre, n0.
           rewrite <- app_assoc. cbn [app]. rewrite <- app_assoc. done.
        -- specialize (Hf eq_refl).
           destruct (carLine s) as [|x r]; cbn in *; simplify_eq.
           by eapply pbl_snoc_pop.
      * (* another car moved *)
        rewrite app_nil_r. destruct (car_step_cars _ _ _ _ _ Hs) as (c' & -> & _).
        assert (j ≠ i) by congruence.
        rewrite list_lookup_insert_ne by done. done.
Qed.

(** C1.  In every run, each [line.pop()] of a car removes that car's own
    identity and comes, among the car's own actions, directly after this
    sequence: it saw its identity at the front of the line, it polled the
    pool for as long as it was empty, it saw the pool non-empty, and it
    popped a non-null pump from it.  So the pop of the line never comes
    before the pop of the pool. *)
Theorem pool_pop_before_line_pop cfg tr s i :
  reach cfg tr s →
  pump_before_leave (Z.of_nat i + 1) (acts_of (TCar i) tr).
Proof. intros Hr. apply (car_acts _ _ _ Hr i). Qed.

Lemma pool_pop_before_line_pop_witness :
  acts_of (TCar 0) (run_trace gas_station one_service) =
    [ALinePush 1; ARunningLoad true; ALineFront 1; APumpsEmpty false;
     APumpsPop (Some 0%nat); ALinePop 1; APumpGas 0; AInc; APumpsPush 0;
     ALinePush 1; ASleep] ∧
  pump_before_leave 1 (acts_of (TCar 0) (run_trace gas_station one_service)).
Proof.
  split; [vm_compute; reflexivity|].
  exact (pool_pop_before_line_pop gas_station _ _ 0
           (reach_run gas_station one_service)).
Defined.

(** ** Conservation of work *)

Lemma sumZ_app l1 l2 : sumZ (l1 ++ l2) = sumZ l1 + sumZ l2.
Proof. induction l1; cbn; lia. Qed.

Lemma sumZ_insert {A} (f : A → Z) (l : list A) (i : nat) (x y : A) :
  l !! i = Some x → sumZ (map f (<[i := y]> l)) = sumZ (map f l) - f x + f y.
Proof.
  revert i. induction l as [|z l IH]; intros [|i] Hi; try done.
  - cbn in *. simplify_eq. lia.
  - change (<[S i:=y]> (z :: l)) with (z :: <[i:=y]> l). cbn [map sumZ].
    rewrite (IH i Hi). lia.
Qed.

Lemma sumZ_lookup_le {A} (f : A → Z) (l : list A) (i : nat) (x : A) :
  (∀ j y, l !! j = Some y → 0 ≤ f y) → l !! i = Some x → f x ≤ sumZ (map f l).
Proof.
  revert i. induction l as [|z l IH]; intros [|i] Hpos Hi; cbn in *; simplify_eq.
  - assert (0 ≤ sumZ (map f l)); [|lia].
    clear IH. induction l as [|w l IH]; cbn; [lia|].
    pose proof (Hpos 1%nat w eq_refl).
    assert (0 ≤ sumZ (map f l)); [|lia].
    apply IH. intros [|j] y Hy; [apply (Hpos 0%nat); by simplify_eq|].
    apply (Hpos (S (S j))). done.
  - pose proof (Hpos 0%nat z eq_refl).
    assert (f x ≤ sumZ (map f l)); [|lia].
    eapply IH; [|done]. intros j y Hy. by apply (Hpos (S j)).
Qed.

Lemma sumZ_plus {A} (f g : A → Z) (l : list A) :
  sumZ (map (λ x, f x + g x) l) = sumZ (map f l) + sumZ (map g l).
Proof. induction l; cbn; lia. Qed.

Lemma sumZ_zero {A} (f : A → Z) (l : list A) :
  (∀ j y, l !! j = Some y → f y = 0) → sumZ (map f l) = 0.
Proof.
  induction l as [|z l IH]; intros H; cbn; [done|].
  rewrite (H 0%nat z eq_refl), IH; [done|]. intros j y Hy. by apply (H (S j)).
Qed.

Lemma services_snoc tr e : services (tr ++ [e]) = services tr + is_service e.
Proof. unfold services. rewrite map_app, sumZ_app. cbn. lia. Qed.

(* A step of a car is a call of PumpGas, the car's own Inc, or leaves
   every counter alone. *)
Lemma car_step_counters i c s a s' :
  car_step i c s = Some (a, s') →
  ∃ c', cars s' = <[i := c']> (cars s) ∧
    ((∃ p g, a = APumpGas p ∧ heap s !! p = Some {| obj := g; live := true |} ∧
        heap s' = <[p := {| obj := PumpGas g; live := true |}]> (heap s) ∧
        c_car c' = c_car c ∧ pending (c_pc c) = 0 ∧ pending (c_pc c') = 1) ∨
     (a = AInc ∧ heap s' = heap s ∧ c_car c' = Inc (c_car c) ∧
        pending (c_pc c) = 1 ∧ pending (c_pc c') = 0) ∨
     (is_service (TCar i, a) = 0 ∧ heap s' = heap s ∧ c_car c' = c_car c ∧
        pending (c_pc c') = pending (c_pc c))).
Proof.
  intros Hs. destruct c as [me pc]. unfold car_step in Hs.
  destruct pc; cbn in Hs; repeat case_match; simplify_eq; cbn;
    eexists; (split; [done|]); cbn; eauto 10.
Qed.

Lemma main_step_counters cfg s a s' :
  main_step cfg s = Some (a, s') →
  is_service (TMain, a) = 0 ∧
  (cars s' = cars s ∨
   ∃ id, cars s' = cars s ++ [{| c_car := new_Car id; c_pc := AtEnterLine |}]) ∧
  (heap s' = heap s ∨
   (∃ id, heap s' = heap s ++ [{| obj := new_GasPump id; live := true |}]) ∨
   (∃ p g, heap s !! p = Some {| obj := g; live := true |} ∧
           heap s' = <[p := {| obj := g; live := false |}]> (heap s))).
Proof.
  intros Hs. unfold main_step in Hs.
  destruct (main_pc s); repeat case_match; simplify_eq; cbn; eauto 10.
Qed.


Lemma work_inv cfg tr s :
  reach cfg tr s →
  (∀ i c, cars s !! i = Some c → 0 ≤ work_of_car c) ∧
  (∀ p cell, heap s !! p = Some cell → 0 ≤ count_of_cell cell) ∧
  0 ≤ services tr ∧
  (services tr < UINT_MOD →
     sumZ (map count_of_cell (heap s)) = services tr ∧
     sumZ (map work_of_car (cars s)) = services tr).
Proof.
  induction 1 as [|tr s t a s' Hr (IHc & IHh & IHs & IH) Hs].
  - cbn. repeat split; done.
  - rewrite services_snoc. destruct t as [|i]; cbn in Hs.
    + destruct (main_step_counters _ _ _ _ Hs) as (-> & Hcs & Hhs).
      rewrite Z.add_0_r.
      assert (Hc' : (∀ i c, cars s' !! i = Some c → 0 ≤ work_of_car c) ∧
                    sumZ (map work_of_car (cars s')) = sumZ (map work_of_car (cars s))).
      { destruct Hcs as [->|[id ->]]; [done|]. split.
        - intros i c Hi. destruct (lookup_snoc _ _ _ _ Hi) as [[-> ->]|[_ Hc']]; [done|eauto].
        - rewrite map_app, sumZ_app. cbn [map sumZ]. unfold work_of_car at 2.
          cbn. lia. }
      assert (Hh' : (∀ p cell, heap s' !! p = Some cell → 0 ≤ count_of_cell cell) ∧
                    sumZ (map count_of_cell (heap s')) = sumZ (map count_of_cell (heap s))).
      { destruct Hhs as [->|[[id ->]|(p & g & Hp & ->)]]; [done| |]; split.
        - intros i c Hi. destruct (lookup_snoc _ _ _ _ Hi) as [[-> ->]|[_ Hc'']]; [done|eauto].
        - rewrite map_app, sumZ_app. cbn [map sumZ]. unfold count_of_cell at 2.
          cbn. lia.
        - intros i c Hi. destruct (lookup_goto _ _ _ _ _ _ Hp Hi) as [[-> ->]|[_ Hc'']]; [|eauto].
          apply (IHh _ _ Hp).
        - rewrite (sumZ_insert _ _ _ _ _ Hp). unfold count_of_cell. cbn. lia. }
      destruct Hc' as [Hc1 Hc2], Hh' as [Hh1 Hh2].
      split; [done|]. split; [done|]. split; [done|]. rewrite Hc2, Hh2. done.
    + destruct (cars s !! i) as [c|] eqn:Hc; [|done].
      destruct (car_step_counters _ _ _ _ _ Hs) as (c' & -> & Hcase).
      pose proof (IHc _ _ Hc) as Hc0.
      destruct Hcase as [(p & g & -> & Hp & -> & Ecar & Ep & Ep')|
                         [(-> & -> & Ecar & Ep & Ep')|(-> & -> & Ecar & Ep)]].
      * (* PumpGas *)
        change (is_service (TCar i, APumpGas p)) with 1.
        pose proof (IHh _ _ Hp) as Hg0. unfold count_of_cell in Hg0. cbn in Hg0.
        assert (Hmod : 0 ≤ (m_count g + 1) mod UINT_MOD) by (apply Z.mod_pos_bound; done).
        split; [|split; [|split; [lia|]]].
        -- intros j d Hj. destruct (lookup_goto _ _ _ _ _ _ Hc Hj) as [[-> ->]|[_ Hj']]; [|eauto].
           unfold work_of_car in *. rewrite Ecar, Ep'. lia.
        -- intros q cell Hq. destruct (lookup_goto _ _ _ _ _ _ Hp Hq) as [[-> ->]|[_ Hq']]; [|eauto].
           done.
        -- intros Hlt. destruct IH as [IH1 IH2]; [lia|].
           rewrite (sumZ_insert _ _ _ _ _ Hp), (sumZ_insert _ _ _ _ _ Hc).
           pose proof (sumZ_lookup_le count_of_cell _ _ _ IHh Hp) as Hle.
           unfold count_of_cell, work_of_car in *. cbn in *.
           rewrite Ecar, Ep, Ep'. rewrite Z.mod_small by lia. lia.
      * (* Inc *)
        change (is_service (TCar i, AInc)) with 0. rewrite Z.add_0_r.
        assert (Hmod : 0 ≤ (m_count (c_car c) + 1) mod UINT_MOD) by (apply Z.mod_pos_bound; done).
        split; [|split; [done|split; [done|]]].
        -- intros j d Hj. destruct (lookup_goto _ _ _ _ _ _ Hc Hj) as [[-> ->]|[_ Hj']]; [|eauto].
           unfold work_of_car. rewrite Ecar, Ep'. cbn. lia.
        -- intros Hlt. destruct (IH Hlt) as [IH1 IH2]. split; [done|].
           rewrite (sumZ_insert _ _ _ _ _ Hc).
           pose proof (sumZ_lookup_le work_of_car _ _ _ IHc Hc) as Hle.
           unfold work_of_car in *. rewrite Ecar, Ep, Ep' in *. cbn.
           rewrite Z.mod_small by lia. lia.
      * rewrite Z.add_0_r.
        split; [|split; [done|split; [done|]]].
        -- intros j d Hj. destruct (lookup_goto _ _ _ _ _ _ Hc Hj) as [[-> ->]|[_ Hj']]; [|eauto].
           unfold work_of_car in *. rewrite Ecar, Ep. done.
        -- intros Hlt. destruct (IH Hlt) as [IH1 IH2]. split; [done|].
           rewrite (sumZ_insert _ _ _ _ _ Hc). unfold work_of_car in *.
           rewrite Ecar, Ep. lia.
Qed.

Lemma main_step_sums cfg s a s' :
  main_step cfg s = Some (a, s') →
  is_service (TMain, a) = 0 ∧
  sumZ (map count_of_cell (heap s')) = sumZ (map count_of_cell (heap s)) ∧
  sumZ (map work_of_car (cars s')) = sumZ (map work_of_car (cars s)).
Proof.
  intros Hs. destruct (main_step_counters _ _ _ _ Hs) as (E & Hcs & Hhs).
  split; [done|]. split.
  - destruct Hhs as [->|[[id ->]|(p & g & Hp & ->)]]; [done| |].
    + rewrite map_app, sumZ_app. cbn [map sumZ]. unfold count_of_cell at 2.
      cbn. lia.
    + rewrite (sumZ_insert _ _ _ _ _ Hp). unfold count_of_cell. cbn. lia.
  - destruct Hcs as [->|[id ->]]; [done|].
    rewrite map_app, sumZ_app. cbn [map sumZ]. unfold work_of_car at 2.
    cbn. lia.
Qed.

Lemma mod_forget (S x : Z) :
  (S - x + x mod UINT_MOD) mod UINT_MOD = S mod UINT_MOD.
Proof. rewrite Zplus_mod_idemp_r. f_equal. lia. Qed.

Lemma mod_succ (a b : Z) :
  a mod UINT_MOD = b mod UINT_MOD → (a + 1) mod UINT_MOD = (b + 1) mod UINT_MOD.
Proof.
  intros E. rewrite <- (Zplus_mod_idemp_l a), <- (Zplus_mod_idemp_l b). by rewrite E.
Qed.

(* Whatever the number of services, the sums agree with it modulo 2^32. *)
Lemma work_mod cfg tr s :
  reach cfg tr s →
  sumZ (map count_of_cell (heap s)) mod UINT_MOD = services tr mod UINT_MOD ∧
  sumZ (map work_of_car (cars s)) mod UINT_MOD = services tr mod UINT_MOD.
Proof.
  induction 1 as [|tr s t a s' Hr [IHh IHc] Hs]; [done|].
  rewrite services_snoc. destruct t as [|i]; cbn in Hs.
  - destruct (main_step_sums _ _ _ _ Hs) as (-> & -> & ->).
    by rewrite Z.add_0_r.
  - destruct (cars s !! i) as [c|] eqn:Hc; [|done].
    destruct (car_step_counters _ _ _ _ _ Hs) as (c' & -> & Hcase).
    rewrite (sumZ_insert _ _ _ _ _ Hc).
    destruct Hcase as [(p & g & -> & Hp & -> & Ecar & Ep & Ep')|
                       [(-> & -> & Ecar & Ep & Ep')|(-> & -> & Ecar & Ep)]].
    + change (is_service (TCar i, APumpGas p)) with 1.
      rewrite (sumZ_insert _ _ _ _ _ Hp). unfold count_of_cell at 2 3.
      unfold work_of_car at 2 3. cbn. rewrite Ecar, Ep, Ep'. split.
      * change ((m_count g + 1) mod 2 ^ 32) with ((m_count g + 1) mod UINT_MOD).
        replace (sumZ (map count_of_cell (heap s)) - m_count g +
                 (m_count g + 1) mod UINT_MOD)
          with (sumZ (map count_of_cell (heap s)) + 1 - (m_count g + 1) +
                (m_count g + 1) mod UINT_MOD) by lia.
        rewrite mod_forget. by apply mod_succ.
      * replace (sumZ (map work_of_car (cars s)) - (m_count (c_car c) + 0) +
                 (m_count (c_car c) + 1))
          with (sumZ (map work_of_car (cars s)) + 1) by lia.
        by apply mod_succ.
    + change (is_service (TCar i, AInc)) with 0. rewrite Z.add_0_r.
      split; [done|]. unfold work_of_car at 2 3. rewrite Ecar, Ep, Ep'. cbn.
      change ((m_count (c_car c) + 1) mod 2 ^ 32)
        with ((m_count (c_car c) + 1) mod UINT_MOD).
      rewrite Z.add_0_r, mod_forget. done.
    + rewrite Z.add_0_r. split; [done|].
      unfold work_of_car at 2 3. rewrite Ecar, Ep.
      replace (sumZ (map work_of_car (cars s)) -
               (m_count (c_car c) + pending (c_pc c)) +
               (m_count (c_car c) + pending (c_pc c)))
        with (sumZ (map work_of_car (cars s))) by lia.
      done.
Qed.

(** C2.  Every call of PumpGas adds one to the counter of the pump and is
    followed by the Inc of the calling car, which adds one to the counter
    of that car; no other step changes a counter.  The counters are
    unsigned ints: in any reachable state the pump counters add up to the
    number of completed services modulo 2^32, and so do the car counters
    together with the cars that still owe their Inc.  As long as fewer
    than 2^32 services were completed, no counter has wrapped and the sums
    are those numbers themselves; then, once all workers have stopped, the
    sum of the car counters equals the sum of the pump counters. *)
Theorem conservation_of_work cfg tr s :
  reach cfg tr s →
  (pump_total s mod UINT_MOD = services tr mod UINT_MOD ∧
   (car_total s + in_progress s) mod UINT_MOD = services tr mod UINT_MOD) ∧
  (services tr < UINT_MOD →
     pump_total s = services tr ∧
     car_total s + in_progress s = services tr ∧
     ((∀ i c, cars s !! i = Some c → c_pc c = Stopped) →
        car_total s = pump_total s)).
Proof.
  intros Hr.
  assert (Hsplit : car_total s + in_progress s = sumZ (map work_of_car (cars s))).
  { unfold car_total, in_progress, work_of_car. by rewrite sumZ_plus. }
  split.
  - rewrite Hsplit. apply (work_mod _ _ _ Hr).
  - intros Hlt. destruct (work_inv _ _ _ Hr) as (_ & _ & _ & H).
    destruct (H Hlt) as [Hp Hc]. clear H.
    change (pump_total s = services tr) in Hp.
    split; [done|]. split; [by rewrite Hsplit|]. intros Hstop.
    assert (in_progress s = 0); [|lia].
    apply sumZ_zero. intros j d Hj. by rewrite (Hstop _ _ Hj).
Qed.

Lemma conservation_of_work_witness :
  services (run_trace gas_station quiet_run) = 1 ∧
  car_total (run_state gas_station quiet_run) =
    pump_total (run_state gas_station quiet_run).
Proof.
  split; [vm_compute; reflexivity|].
  apply (proj2 (conservation_of_work gas_station _ _
                  (reach_run gas_station quiet_run))).
  - vm_compute. reflexivity.
  - intros i c Hc.
    assert (Hall : Forall (λ c, c_pc c = Stopped) (cars (run_state gas_station quiet_run))).
    { vm_compute. repeat constructor. }
    eapply Forall_lookup_1 in Hall; eauto.
Defined.

(** ** The report at teardown *)

Lemma flat_map_insert {A B} (f : A → list B) (l : list A) (i : nat) (x y : A) :
  l !! i = Some x → f x = [] →
  flat_map f (<[i := y]> l) ≡ₚ flat_map f l ++ f y.
Proof.
  revert i. induction l as [|z l IH]; intros [|i] Hi Hx; try done.
  - cbn in Hi. simplify_eq. cbn. rewrite Hx. cbn. apply Permutation_app_comm.
  - change (<[S i:=y]> (z :: l)) with (z :: <[i:=y]> l). cbn [flat_map].
    rewrite (IH i Hi Hx). by rewrite app_assoc.
Qed.

Lemma dtor_reporting ms :
  flat_map dtor_Metrics ms = map PrintStats (reporting ms).
Proof.
  unfold reporting. induction ms as [|m ms IH]; [done|].
  cbn [flat_map]. rewrite filter_cons, IH. unfold dtor_Metrics.
  destruct (decide (0 < m_count m)) as [Hpos|Hneg].
  - apply Z.ltb_lt in Hpos. by rewrite Hpos.
  - apply Z.ltb_nlt in Hneg. by rewrite Hneg.
Qed.

Lemma car_lines_exited cs :
  (∀ i c, cs !! i = Some c → c_pc c = Stopped) →
  car_lines cs = flat_map dtor_Metrics (map c_car cs).
Proof.
  unfold car_lines. induction cs as [|c cs IH]; intros H; [done|].
  cbn. rewrite (H 0%nat c eq_refl). cbn. f_equal. apply IH.
  intros i d Hd. by apply (H (S i)).
Qed.

Lemma pump_lines_deleted (h : list Cell) :
  (∀ p cell, h !! p = Some cell → live cell = false) →
  pump_lines h = flat_map dtor_Metrics (map obj h).
Proof.
  unfold pump_lines. induction h as [|c h IH]; intros H; [done|].
  cbn. rewrite (H 0%nat c eq_refl). f_equal. apply IH.
  intros i d Hd. by apply (H (S i)).
Qed.

Lemma car_step_output i c s a s' :
  car_step i c s = Some (a, s') →
  ∃ c', cars s' = <[i := c']> (cars s) ∧
    exited (c_pc c) = false ∧
    main_pc s' = main_pc s ∧
    stdout s' = stdout s ++ (if exited (c_pc c') then dtor_Metrics (c_car c') else []) ∧
    (heap s' = heap s ∨
     ∃ p g, heap s !! p = Some {| obj := g; live := true |} ∧
            heap s' = <[p := {| obj := PumpGas g; live := true |}]> (heap s)).
Proof.
  intros Hs. destruct c as [me pc]. unfold car_step in Hs.
  destruct pc; cbn in Hs; repeat case_match; simplify_eq; cbn;
    eexists; (split; [done|]); cbn; rewrite ?app_nil_r; eauto 10.
Qed.

Lemma out_init cfg : OutOK cfg init.
Proof. by exists []. Qed.

Lemma out_step cfg s t a s' :
  Inv cfg s → OutOK cfg s → step cfg t s = Some (a, s') → OutOK cfg s'.
Proof.
  intros HI (reps & Hout & Hperm) Hs. destruct t as [|i]; cbn in Hs.
  - pose proof (inv_main _ _ HI) as HM. unfold main_inv in HM.
    unfold main_step in Hs. unfold OutOK.
    destruct (main_pc s) eqn:Epc; repeat case_match; simplify_eq; cbn;
      rewrite ?Hout; try (by exists reps).
    + destruct HM as (Ec & Eh & _). rewrite Ec, Eh in Hperm. cbn in Hperm.
      apply Permutation_nil_r in Hperm. subst reps. exists [].
      rewrite Ec, Eh. done.
    + exists reps. split; [done|]. rewrite flat_map_app. cbn.
      by rewrite !app_nil_r.
    + exists reps. split; [by rewrite app_nil_r|]. rewrite flat_map_app. cbn.
      by rewrite !app_nil_r.
    + match goal with
      | Hg : heap s !! _ = Some {| obj := ?g; live := true |} |- _ =>
          exists (reps ++ dtor_Metrics g); split; [by rewrite <- app_assoc|];
          rewrite (flat_map_insert _ _ _ _ _ Hg eq_refl)
      end.
      cbn. rewrite Hperm. by rewrite app_assoc.
  - destruct (cars s !! i) as [c|] eqn:Hc; [|done].
    destruct (car_step_output _ _ _ _ _ Hs) as (c' & Ecs & Hex & Emain & Eout & Eheap).
    unfold OutOK. rewrite Emain, Eout, Hout, Ecs.
    eexists. split; [by rewrite <- app_assoc|].
    assert (Hh : pump_lines (heap s') ≡ₚ pump_lines (heap s)).
    { destruct Eheap as [->|(p & g & Hp & ->)]; [done|].
      unfold pump_lines. rewrite flat_map_insert; [|done|done]. cbn.
      by rewrite app_nil_r. }
    rewrite Hh. unfold car_lines at 1. rewrite flat_map_insert; [|done|by rewrite Hex].
    fold (car_lines (cars s)). rewrite Hperm.
    rewrite <- !app_assoc. apply Permutation_app_head, Permutation_app_comm.
Qed.

Lemma reach_out cfg tr s : reach cfg tr s → OutOK cfg s.
Proof.
  induction 1; [apply out_init|].
  eapply out_step; [by eapply reach_inv|done|done].
Qed.

Lemma exit_all_deleted cfg s :
  Inv cfg s → main_pc s = MExit →
  (∀ i c, cars s !! i = Some c → c_pc c = Stopped) ∧
  (∀ p cell, heap s !! p = Some cell → live cell = false).
Proof.
  intros HI Epc. pose proof (inv_main _ _ HI) as HM. unfold main_inv in HM.
  rewrite Epc in HM. destruct HM as (_ & _ & Hex & Hq). split; [done|].
  intros p [g [|]] Hp; [|done].
  destruct (pool_noleak _ _ _ (inv_pool _ _ HI) p) as [Hin|(j & d & Hj & Hd)].
  - by exists g.
  - rewrite Hq in Hin. by apply not_elem_of_nil in Hin.
  - by rewrite (Hex _ _ Hj) in Hd.
Qed.

(** C7 (as the code has it).  When main returns, stdout holds the banner
    followed by the report lines, and the report lines are, in some order
    and each exactly once, [<kind> <id> filled up <count> times] for the
    cars Car(1) .. Car(MAX_CARS) and the pumps GasPump(1) ..
    GasPump(MAX_PUMPS) whose final count is positive.  A car or pump whose
    final count is zero has no line: its destructor prints nothing. *)
Theorem teardown_report cfg tr s :
  reach cfg tr s →
  main_pc s = MExit →
  (∃ reps,
     stdout s = banner cfg :: reps ∧
     reps ≡ₚ map PrintStats (reporting (map c_car (cars s) ++ map obj (heap s)))) ∧
  (Z.of_nat (length (cars s)) = Z.max 0 (MAX_CARS cfg) ∧
   ∀ i c, cars s !! i = Some c →
     m_id (c_car c) = Z.of_nat i + 1 ∧ m_name (c_car c) = "Car") ∧
  (Z.of_nat (length (heap s)) = Z.max 0 (MAX_PUMPS cfg) ∧
   ∀ p cell, heap s !! p = Some cell →
     m_id (obj cell) = Z.of_nat p + 1 ∧ m_name (obj cell) = "Pump") ∧
  (∀ m, m_count m = 0 → dtor_Metrics m = []).
Proof.
  intros Hr Epc. pose proof (reach_inv _ _ _ Hr) as HI.
  destruct (exit_all_deleted _ _ HI Epc) as [Hex Hdead].
  destruct (reach_out _ _ _ Hr) as (reps & Hout & Hperm). rewrite Epc in Hout.
  pose proof (inv_main _ _ HI) as HM. unfold main_inv in HM. rewrite Epc in HM.
  destruct HM as (Hpb & Hcb & _ & _).
  split; [|split; [|split]].
  - exists reps. split; [done|]. rewrite Hperm.
    rewrite (car_lines_exited _ Hex), (pump_lines_deleted _ Hdead).
    by rewrite <- flat_map_app, dtor_reporting.
  - split; [done|]. apply (line_ids _ _ (inv_line _ _ HI)).
  - split; [done|]. apply (pool_ids _ _ _ (inv_pool _ _ HI)).
  - intros m Hm. unfold dtor_Metrics. by rewrite Hm.
Qed.

Lemma teardown_report_witness :
  ∃ reps,
    stdout (run_state gas_station quiet_run) = banner gas_station :: reps ∧
    reps ≡ₚ ["Car 1 filled up 1 times"; "Pump 1 filled up 1 times"].
Proof.
  destruct (teardown_report gas_station _ _ (reach_run gas_station quiet_run))
    as ((reps & Hout & Hperm) & _); [vm_compute; reflexivity|].
  exists reps. split; [exact Hout|]. rewrite Hperm. vm_compute. reflexivity.
Defined.

(* The claim as the spec states it fails on the run [quiet_run]: of the
   ten cars and two pumps only Car 1 and Pump 1 are reported. *)
Lemma zero_counts_not_reported :
  main_pc (run_state gas_station quiet_run) = MExit ∧
  length (cars (run_state gas_station quiet_run)) = 10%nat ∧
  length (heap (run_state gas_station quiet_run)) = 2%nat ∧
  stdout (run_state gas_station quiet_run) =
    [banner gas_station; "Car 1 filled up 1 times"; "Pump 1 filled up 1 times"] ∧
  dtor_Metrics (new_GasPump 2) = [] ∧
  ¬ (∀ m, m ∈ map c_car (cars (run_state gas_station quiet_run)) ++
              map obj (heap (run_state gas_station quiet_run)) →
          PrintStats m ∈ stdout (run_state gas_station quiet_run)).
Proof.
  split; [vm_compute; reflexivity|].
  split; [vm_compute; reflexivity|]. split; [vm_compute; reflexivity|].
  split; [vm_compute; reflexivity|]. split; [reflexivity|].
  intros H. specialize (H (new_GasPump 2)).
  assert (Hin : new_GasPump 2 ∈ map c_car (cars (run_state gas_station quiet_run)) ++
                               map obj (heap (run_state gas_station quiet_run))).
  { vm_compute. do 11 right. left. }
  specialize (H Hin). vm_compute in H.
  repeat (apply elem_of_cons in H as [H|H]; [discriminate H|]).
  by apply not_elem_of_nil in H.
Qed.

(** ** Shutdown *)

Lemma run_from cfg sched tr s :
  run cfg sched tr s =
  match run cfg sched [] s with
  | Some (tr', s') => Some (tr ++ tr', s')
  | None => None
  end.
Proof.
  revert tr s. induction sched as [|t sched IH]; intros tr s; cbn.
  - by rewrite app_nil_r.
  - destruct (step cfg t s) as [[a s1]|]; [|done].
    rewrite (IH (tr ++ [(t, a)])), (IH [(t, a)]).
    destruct (run cfg sched [] s1) as [[tr' s']|]; [|done].
    by rewrite <- app_assoc.
Qed.

Lemma solo_S cfg t n s a s1 tr' s' :
  step cfg t s = Some (a, s1) → solo cfg t n s1 = Some (tr', s') →
  solo cfg t (S n) s = Some ((t, a) :: tr', s').
Proof.
  unfold solo. intros Hs Hn. cbn. rewrite Hs, run_from, Hn. done.
Qed.

Lemma set_cars_same s : set_cars (cars s) s = s.
Proof. by destruct s. Qed.

(* Polling an empty pool changes nothing, flag or no flag. *)
Lemma poll_empty_pool cfg s i me :
  cars s !! i = Some {| c_car := me; c_pc := AtPumpsEmpty |} →
  openPumps s = [] →
  step cfg (TCar i) s = Some (APumpsEmpty true, s).
Proof.
  intros Hc Hq. cbn. rewrite Hc. unfold car_step. cbn. rewrite Hq. cbn.
  by rewrite list_insert_id, set_cars_same.
Qed.

Lemma poll_empty_pool_forever cfg s i me n :
  cars s !! i = Some {| c_car := me; c_pc := AtPumpsEmpty |} →
  openPumps s = [] →
  solo cfg (TCar i) n s = Some (repeat (TCar i, APumpsEmpty true) n, s).
Proof.
  intros Hc Hq. induction n as [|n IH]; [done|].
  cbn [repeat]. eapply solo_S; [by eapply poll_empty_pool|done].
Qed.

Lemma car_progress cfg s i c :
  Inv cfg s → running s = false → cars s !! i = Some c →
  c_pc c ≠ Stopped → (c_pc c = AtPumpsEmpty → openPumps s ≠ []) →
  ∃ a s' c',
    step cfg (TCar i) s = Some (a, s') ∧ cars s' !! i = Some c' ∧
    running s' = false ∧
    (steps_to_stop (c_pc c') < steps_to_stop (c_pc c))%nat.
Proof.
  intros HI Hrun Hc Hpc Hpool.
  destruct (inv_nofault _ _ HI _ _ Hc) as [Hu Ha].
  destruct (car_step i c s) as [[a s']|] eqn:Hs.
  2:{ destruct c as [me pc]. unfold car_step in Hs.
      destruct pc; cbn in *; repeat case_match; congruence. }
  cut (∃ c', cars s' !! i = Some c' ∧ running s' = false ∧
             (steps_to_stop (c_pc c') < steps_to_stop (c_pc c))%nat).
  { intros (c' & ?). exists a, s', c'. cbn. rewrite Hc. by split. }
  destruct (car_step_defined _ _ _ _ _ _ HI Hc Hs) as [Hdef Hnull].
  destruct c as [me pc]. unfold car_step in Hs. cbn in Hpool.
  destruct pc; sproj; rewrite ?Hrun in Hs; repeat case_match; simplify_eq; sproj;
    try done;
    (eexists; split; [by eapply lookup_goto_eq|]; split; [done|]);
    cbn; try lia.
  apply empty_true in H. by destruct Hpool.
Qed.

Lemma stop_or_stall cfg i k :
  ∀ s c,
    Inv cfg s → running s = false → cars s !! i = Some c →
    (steps_to_stop (c_pc c) ≤ k)%nat →
    ∃ n tr' s',
      (n ≤ steps_to_stop (c_pc c))%nat ∧
      solo cfg (TCar i) n s = Some (tr', s') ∧
      Inv cfg s' ∧
      (pc_of i s' = Some Stopped ∨
       (pc_of i s' = Some AtPumpsEmpty ∧ openPumps s' = [])).
Proof.
  induction k as [|k IH]; intros s c HI Hrun Hc Hk.
  - exists 0%nat, [], s. split; [lia|]. split; [done|]. split; [done|]. left.
    unfold pc_of. rewrite Hc. cbn. f_equal.
    destruct (inv_nofault _ _ HI _ _ Hc) as [Hu Ha].
    destruct (c_pc c); cbn in Hk; try lia; done.
  - destruct (decide (c_pc c = Stopped)) as [Es|Hns].
    { exists 0%nat, [], s. split; [lia|]. split; [done|]. split; [done|]. left.
      unfold pc_of. by rewrite Hc, <- Es. }
    destruct (decide (c_pc c = AtPumpsEmpty ∧ openPumps s = [])) as [[Ee Eq]|Hne].
    { exists 0%nat, [], s. split; [lia|]. split; [done|]. split; [done|]. right.
      unfold pc_of. by rewrite Hc, <- Ee. }
    destruct (car_progress cfg s i c HI Hrun Hc Hns) as (a & s1 & c1 & Hs & Hc1 & Hrun1 & Hlt).
    { intros Ee Eq. by apply Hne. }
    destruct (IH s1 c1) as (n & tr' & s' & Hn & Hsolo & HI' & Hend);
      [by eapply inv_step|done|done|lia|].
    exists (S n), ((TCar i, a) :: tr'), s'. split; [lia|].
    split; [by eapply solo_S|done].
Qed.

(** C8 (as the code has it).  Of the two polling waits only the one for
    the car's turn (lines 123-138) reads the flag on each iteration; the
    wait for a pump (line 127) does not.  Once the flag is false, a car
    running on its own leaves its loop within ten steps, unless it gets to
    poll an empty pool: there a step of the car changes nothing, so it
    polls, without reading the flag, until another car returns a pump;
    every pump is then in the hands of another car. *)
Theorem stop_or_wait_for_pump cfg tr s i c :
  reach cfg tr s →
  running s = false →
  cars s !! i = Some c →
  (c_pc c = AtRunningCheck →
     ∃ s', step cfg (TCar i) s = Some (ARunningLoad false, s') ∧
           pc_of i s' = Some Stopped) ∧
  (∃ n tr' s',
     (n ≤ steps_to_stop (c_pc c) ≤ 10)%nat ∧
     solo cfg (TCar i) n s = Some (tr', s') ∧
     (pc_of i s' = Some Stopped ∨
      (pc_of i s' = Some AtPumpsEmpty ∧ openPumps s' = [] ∧
       (∀ m, solo cfg (TCar i) m s' =
               Some (repeat (TCar i, APumpsEmpty true) m, s')) ∧
       (∀ p, is_live (heap s') p →
          ∃ j d, j ≠ i ∧ cars s' !! j = Some d ∧ holds (c_pc d) = Some p)))).
Proof.
  intros Hr Hrun Hc. split.
  - intros Epc. destruct c as [me pc]. cbn in Epc. subst pc.
    cbn. rewrite Hc. unfold car_step. cbn. rewrite Hrun.
    eexists. split; [done|]. unfold pc_of. cbn.
    by rewrite (lookup_goto_eq _ _ _ _ Hc).
  - destruct (stop_or_stall cfg i _ s c (reach_inv _ _ _ Hr) Hrun Hc (le_n _))
      as (n & tr' & s' & Hn & Hsolo & HI' & Hend).
    exists n, tr', s'. split; [|split; [done|]].
    + split; [done|]. destruct (c_pc c); cbn; lia.
    + destruct Hend as [?|[Hpc Hq]]; [by left|right].
      split; [done|]. split; [done|].
      unfold pc_of in Hpc. destruct (cars s' !! i) as [[me pc]|] eqn:Hc'; [|done].
      cbn in Hpc. simplify_eq. split.
      * intros m. by eapply poll_empty_pool_forever.
      * intros p Hp.
        destruct (pool_noleak _ _ _ (inv_pool _ _ HI') p Hp) as [Hin|(j & d & Hj & Hd)].
        { rewrite Hq in Hin. by apply not_elem_of_nil in Hin. }
        exists j, d. split; [|done]. intros ->. rewrite Hc' in Hj. by simplify_eq.
Qed.

Lemma stop_or_wait_for_pump_witness :
  ∃ s',
    step gas_station (TCar 3) (run_state gas_station (starved ++ [TCar 3]))
      = Some (ARunningLoad false, s') ∧
    pc_of 3 s' = Some Stopped.
Proof.
  assert (Hrun : running (run_state gas_station (starved ++ [TCar 3])) = false)
    by (vm_compute; reflexivity).
  assert (Hc : cars (run_state gas_station (starved ++ [TCar 3])) !! 3%nat =
               Some {| c_car := new_Car 4; c_pc := AtRunningCheck |})
    by (vm_compute; reflexivity).
  exact (proj1 (stop_or_wait_for_pump gas_station _ _ 3 _
                  (reach_run gas_station (starved ++ [TCar 3])) Hrun Hc) eq_refl).
Defined.

(* The claim as the spec states it fails in the state reached by
   [starved]: the flag is false, car 2 (identity 3) polls the empty pool,
   and however many steps it takes on its own it is still polling, having
   read nothing but the pool. *)
Lemma pump_wait_ignores_stop :
  running (run_state gas_station starved) = false ∧
  pc_of 2 (run_state gas_station starved) = Some AtPumpsEmpty ∧
  ∀ n, ∃ tr' s',
    solo gas_station (TCar 2) n (run_state gas_station starved) = Some (tr', s') ∧
    pc_of 2 s' = Some AtPumpsEmpty ∧
    pc_of 2 s' ≠ Some Stopped ∧
    ∀ b, (TCar 2, ARunningLoad b) ∉ tr'.
Proof.
  split; [vm_compute; reflexivity|]. split; [vm_compute; reflexivity|].
  intros n. eexists _, _. split.
  - eapply (poll_empty_pool_forever gas_station _ 2 (new_Car 3)); vm_compute; reflexivity.
  - split; [vm_compute; reflexivity|]. split; [vm_compute; congruence|].
    intros b Hin. apply list_elem_of_In, repeat_spec in Hin. discriminate Hin.
Qed.

(** ** The mutex *)

Module LockingFacts.
Import Locking.

Lemma qrun_reach_from q ops sched s s' :
  qreach q ops s → qrun sched s = Some s' → qreach q ops s'.
Proof.
  revert s. induction sched as [|t sched IH]; intros s Hr Hrun; cbn in Hrun.
  - by simplify_eq.
  - destruct (qstep t s) as [s1|] eqn:Hs; [|done].
    eapply IH; [|exact Hrun]. by eapply qreach_step.
Qed.

Lemma qrun_reach q ops sched s :
  qrun sched (start q ops) = Some s → qreach q ops s.
Proof. apply qrun_reach_from. constructor. Qed.

Lemma guarded_start q ops :
  (∀ op, op ∈ ops → locking op = true) → Guarded (start q ops).
Proof.
  intros Hops t pc Hpc. cbn in Hpc. rewrite list_lookup_fmap in Hpc.
  destruct (ops !! t) as [op|] eqn:Hop; [|done]. cbn in Hpc. simplify_eq.
  assert (Hin : op ∈ ops) by (apply list_elem_of_lookup; eauto).
  specialize (Hops _ Hin). by destruct op.
Qed.

Lemma guarded_step s t s' : Guarded s → qstep t s = Some s' → Guarded s'.
Proof.
  intros HG Hs. unfold qstep in Hs.
  destruct (threads s !! t) as [pc|] eqn:Hpc; [|done].
  destruct (HG _ _ Hpc) as [Hg Hm].
  assert (Hothers : ∀ m, (m = m_mutex s ∨ (m_mutex s = None ∧ m = Some t) ∨
                           (in_guard pc = true ∧ m = None)) →
            ∀ t' pc', t' ≠ t → threads s !! t' = Some pc' →
              guarded_pc pc' = true ∧ (in_guard pc' = true → m = Some t')).
  { intros m Hcase t' pc' Hne Hpc'. destruct (HG _ _ Hpc') as [Hg' Hm'].
    split; [done|]. intros Hin. specialize (Hm' Hin).
    destruct Hcase as [->|[[E ->]|[Hin0 ->]]]; [done|congruence|].
    specialize (Hm Hin0). congruence. }
  destruct pc; cbn in Hg, Hm; try done; repeat case_match; simplify_eq;
    intros t' pc' Hpc'; cbn in Hpc';
    (destruct (lookup_goto _ _ _ _ _ _ Hpc Hpc') as [[-> ->]|[Hne Hold]];
     [cbn; split; [done|]; first [done | by intros _; apply Hm | intros; congruence]
     |eapply Hothers; [|done|done]; cbn; auto]).
Qed.

Lemma guarded_reach q ops s :
  (∀ op, op ∈ ops → locking op = true) → qreach q ops s → Guarded s.
Proof.
  intros Hops. induction 1; [by apply guarded_start|by eapply guarded_step].
Qed.

(* push and pop are atomic with respect to each other. *)
Lemma push_pop_race_free q ops s :
  (∀ op, op ∈ ops → locking op = true) → qreach q ops s → ¬ race s.
Proof.
  intros Hops Hr (t1 & t2 & pc1 & pc2 & a & Hne & H1 & H2 & Ha1 & Ha2).
  pose proof (guarded_reach _ _ _ Hops Hr) as HG.
  destruct (HG _ _ H1) as [_ Hm1], (HG _ _ H2) as [Hg2 Hm2].
  assert (m_mutex s = Some t1) by (apply Hm1; by destruct pc1).
  assert (m_mutex s = Some t2) by (apply Hm2; by destruct pc2).
  congruence.
Qed.

(** C5, on the code.  [front] and [empty] do not take the mutex.  With
    thread 0 inside [pop], holding the mutex and about to remove the head
    of [m_queue], thread 1 running [front] is about to read [m_queue];
    with thread 0 inside [push], about to append, thread 1 running
    [empty] is about to read the size.  In both states two threads touch
    the queue at once, one of them writing. *)
Theorem front_and_empty_bypass_mutex :
  (∃ s, qreach [7] [OpPop; OpFront] s ∧
        threads s = [PopRemove 7; FrontRead] ∧ m_mutex s = Some 0%nat ∧
        race s) ∧
  (∃ s, qreach [] [OpPush 1; OpEmpty] s ∧
        threads s = [PushBody 1; EmptyRead] ∧ m_mutex s = Some 0%nat ∧
        race s).
Proof.
  split.
  - eexists. split; [apply (qrun_reach _ _ [0; 0]%nat); reflexivity|].
    split; [reflexivity|]. split; [reflexivity|].
    exists 0%nat, 1%nat, (PopRemove 7), FrontRead, Read. by repeat split.
  - eexists. split; [apply (qrun_reach _ _ [0]%nat); reflexivity|].
    split; [reflexivity|]. split; [reflexivity|].
    exists 0%nat, 1%nat, (PushBody 1), EmptyRead, Read. by repeat split.
Qed.

End LockingFacts.

(** * Further properties of the program *)

(** ** Pumps in use *)

(** X1.  A pump a car holds (lines 129-134) is a live object, is not in the
    pool, and is held by no other car. *)
Theorem pump_held_by_one_car cfg tr s i c p :
  reach cfg tr s →
  cars s !! i = Some c →
  holds (c_pc c) = Some p →
  is_live (heap s) p ∧
  (Some p ∉ openPumps s) ∧
  ∀ j d, cars s !! j = Some d → holds (c_pc d) = Some p → j = i.
Proof.
  intros Hr Hc Hh. pose proof (inv_pool _ _ (reach_inv _ _ _ Hr)) as HP.
  destruct (pool_hold _ _ _ HP _ _ _ Hc Hh) as [Hl Hn].
  split; [done|]. split; [done|].
  intros j d Hj Hd. by eapply (pool_excl _ _ _ HP).
Qed.

Lemma pump_held_by_one_car_witness :
  is_live (heap (run_state gas_station starved)) 1.
Proof.
  assert (Hc : cars (run_state gas_station starved) !! 1%nat =
               Some {| c_car := new_Car 2; c_pc := AtPumpGas 1 |})
    by (vm_compute; reflexivity).
  exact (proj1 (pump_held_by_one_car gas_station _ _ 1 _ 1
                  (reach_run gas_station starved) Hc eq_refl)).
Defined.

(** X2.  Only one car at a time is between finding itself at the front of
    the line and leaving it (lines 125-131), and that car's identity is at
    the front of the line; in particular a car pops the pool only while it
    is first in line. *)
Theorem one_car_checks_the_pumps cfg tr s i c :
  reach cfg tr s →
  cars s !! i = Some c →
  at_front (c_pc c) = true →
  MyQueue.front (carLine s) = Some (Z.of_nat i + 1) ∧
  ∀ j d, cars s !! j = Some d → at_front (c_pc d) = true → j = i.
Proof.
  intros Hr Hc Hf. pose proof (inv_line _ _ (reach_inv _ _ _ Hr)) as HL.
  pose proof (line_front _ _ HL _ _ Hc Hf) as Hi.
  destruct (line_ids _ _ HL _ _ Hc) as [Ei _]. rewrite Ei in Hi.
  split; [done|]. intros j d Hj Hd.
  pose proof (line_front _ _ HL _ _ Hj Hd) as Hjf.
  destruct (line_ids _ _ HL _ _ Hj) as [Ej _]. rewrite Ej in Hjf.
  rewrite Hi in Hjf. injection Hjf as E. lia.
Qed.

Lemma one_car_checks_the_pumps_witness :
  MyQueue.front (carLine (run_state gas_station starved)) = Some 3.
Proof.
  assert (Hc : cars (run_state gas_station starved) !! 2%nat =
               Some {| c_car := new_Car 3; c_pc := AtPumpsEmpty |})
    by (vm_compute; reflexivity).
  exact (proj1 (one_car_checks_the_pumps gas_station _ _ 2 _
                  (reach_run gas_station starved) Hc eq_refl)).
Defined.

(** ** The stop flag *)

Lemma car_step_flag i c s a s' :
  car_step i c s = Some (a, s') →
  running s' = running s ∧ main_pc s' = main_pc s ∧
  ∃ c', cars s' = <[i := c']> (cars s) ∧
        (c_pc c' = Stopped → running s = false).
Proof.
  intros Hs. destruct c as [me pc]. unfold car_step in Hs.
  destruct pc; cbn in Hs; repeat case_match; simplify_eq; cbn;
    (split; [done|]; split; [done|]; eexists; split; [done|]; cbn; done).
Qed.

Lemma main_step_flag cfg s a s' :
  main_step cfg s = Some (a, s') →
  (running s' = running s ∧ before_stop (main_pc s') = before_stop (main_pc s) ∨
   running s' = false ∧ main_pc s = MStop ∧ before_stop (main_pc s') = false) ∧
  (cars s' = cars s ∨
   ∃ id, cars s' = cars s ++ [{| c_car := new_Car id; c_pc := AtEnterLine |}]).
Proof.
  intros Hs. unfold main_step in Hs.
  destruct (main_pc s); repeat case_match; simplify_eq; cbn; eauto 10.
Qed.

Lemma flag_inv cfg tr s :
  reach cfg tr s →
  running s = before_stop (main_pc s) ∧
  ∀ i c, cars s !! i = Some c → c_pc c = Stopped → running s = false.
Proof.
  induction 1 as [|tr s t a s' Hr [IHf IHc] Hs]; [done|].
  destruct t as [|i]; cbn in Hs.
  - destruct (main_step_flag _ _ _ _ Hs) as [Hflag Hcs]. split.
    + destruct Hflag as [[-> ->]|(-> & _ & ->)]; done.
    + intros j d Hj Hd.
      assert (Hold : running s = false).
      { destruct Hcs as [E|[id E]]; rewrite E in Hj; [by eapply IHc|].
        destruct (lookup_snoc _ _ _ _ Hj) as [[-> ->]|[_ Hj']]; [done|by eapply IHc]. }
      destruct Hflag as [[-> _]|(-> & _)]; done.
  - destruct (cars s !! i) as [c|] eqn:Hc; [|done].
    destruct (car_step_flag _ _ _ _ _ Hs) as (-> & -> & c' & -> & Hstop).
    split; [done|]. intros j d Hj Hd.
    destruct (lookup_goto _ _ _ _ _ _ Hc Hj) as [[-> ->]|[_ Hj']]; [auto|by eapply IHc].
Qed.

Lemma step_flag cfg t s a s' :
  step cfg t s = Some (a, s') → running s = false → running s' = false.
Proof.
  intros Hs Hf. destruct t as [|i]; cbn in Hs.
  - destruct (main_step_flag _ _ _ _ Hs) as [[[-> _]|(-> & _)] _]; done.
  - destruct (cars s !! i) as [c|] eqn:Hc; [|done].
    destruct (car_step_flag _ _ _ _ _ Hs) as (-> & _). done.
Qed.

(** X3.  The flag [running] is true exactly while main has not executed
    line 166; the car threads never write it, once it is false it stays
    false in every continuation of the run, and a car has left its loop
    only if the flag is false. *)
Theorem running_cleared_once cfg tr s :
  reach cfg tr s →
  running s = before_stop (main_pc s) ∧
  (∀ i c, cars s !! i = Some c → c_pc c = Stopped → running s = false) ∧
  (∀ i a s', step cfg (TCar i) s = Some (a, s') → running s' = running s) ∧
  (∀ tr' s', steps cfg s tr' s' → running s = false → running s' = false).
Proof.
  intros Hr. destruct (flag_inv _ _ _ Hr) as [Hf Hc].
  split; [done|]. split; [done|]. split.
  - intros i a s' Hs. cbn in Hs. destruct (cars s !! i) as [c|]; [|done].
    by destruct (car_step_flag _ _ _ _ _ Hs) as (-> & _).
  - intros tr' s' Hsteps. induction Hsteps as [|s0 tr0 s1 t a s2 _ IH Hs]; [done|].
    intros Hfalse. eapply step_flag; eauto.
Qed.

Lemma running_cleared_once_witness :
  running (run_state gas_station starved) = false.
Proof.
  exact (proj1 (running_cleared_once gas_station _ _ (reach_run gas_station starved))).
Defined.

(** ** The order of the line *)

Lemma step_line cfg t s a s' :
  step cfg t s = Some (a, s') →
  match a with
  | ALinePush id => carLine s' = carLine s ++ [id]
  | ALinePop x => carLine s = x :: carLine s'
  | _ => carLine s' = carLine s
  end.
Proof.
  intros Hs. destruct t as [|i]; cbn in Hs.
  - unfold main_step in Hs.
    destruct (main_pc s); repeat case_match; simplify_eq; done.
  - destruct (cars s !! i) as [[me pc]|] eqn:Hc; [|done]. unfold car_step in Hs.
    destruct pc; cbn in Hs; repeat case_match; simplify_eq; cbn; try done.
    all: destruct (carLine s); cbn in *; by simplify_eq.
Qed.

(** X4.  The line is a queue of the cars in the order they joined: in every
    run the identities pushed to the line, in the order of the pushes, are
    the identities popped from it, in the order of the pops, followed by
    the present contents of the line.  Cars leave the line in the order in
    which they entered it. *)
Theorem cars_leave_in_entry_order cfg tr s :
  reach cfg tr s →
  line_pushes tr = line_pops tr ++ carLine s.
Proof.
  induction 1 as [|tr s t a s' Hr IH Hs]; [done|].
  pose proof (step_line _ _ _ _ _ Hs) as Hl.
  unfold line_pushes, line_pops in *. rewrite !omap_app. cbn.
  destruct a; cbn; rewrite ?app_nil_r, ?Hl; try done.
  - rewrite IH. by rewrite app_assoc.
  - rewrite IH, Hl. by rewrite <- app_assoc.
Qed.

Lemma cars_leave_in_entry_order_witness :
  line_pushes (run_trace gas_station starved) =
  line_pops (run_trace gas_station starved) ++
  carLine (run_state gas_station starved).
Proof.
  exact (cars_leave_in_entry_order gas_station _ _ (reach_run gas_station starved)).
Defined.

(** ** The counters, object by object *)

Lemma fills_by_snoc i tr e :
  fills_by i (tr ++ [e]) =
  fills_by i tr + (if decide (e.1 = TCar i) then is_service e else 0).
Proof. unfold fills_by. rewrite map_app, sumZ_app. cbn. lia. Qed.

Lemma fills_at_snoc p tr e :
  fills_at p (tr ++ [e]) =
  fills_at p tr + match e.2 with
                  | APumpGas q => if decide (q = p) then 1 else 0
                  | _ => 0
                  end.
Proof. unfold fills_at. rewrite map_app, sumZ_app. cbn. lia. Qed.

Lemma mod_step (n : Z) :
  (n mod UINT_MOD + 1) mod UINT_MOD = (n + 1) mod UINT_MOD.
Proof. by rewrite Zplus_mod_idemp_l. Qed.

Lemma not_service_at p t a :
  is_service (t, a) = 0 →
  match a with
  | APumpGas q => if decide (q = p) then 1 else 0
  | _ => 0
  end = 0.
Proof. by destruct a. Qed.

Lemma counters_inv cfg tr s :
  reach cfg tr s →
  (∀ i c, cars s !! i = Some c →
     m_count (c_car c) = (fills_by i tr - pending (c_pc c)) mod UINT_MOD) ∧
  (∀ i, cars s !! i = None → fills_by i tr = 0) ∧
  (∀ p cell, heap s !! p = Some cell →
     m_count (obj cell) = fills_at p tr mod UINT_MOD) ∧
  (∀ p, heap s !! p = None → fills_at p tr = 0).
Proof.
  induction 1 as [|tr s t a s' Hr (IHc & IHcn & IHh & IHhn) Hs]; [done|].
  destruct t as [|i]; cbn in Hs.
  - destruct (main_step_counters _ _ _ _ Hs) as (Hsv & Hcs & Hhs).
    split; [|split; [|split]].
    + intros j d Hj. rewrite fills_by_snoc. cbn. rewrite Z.add_0_r.
      destruct Hcs as [E|[id E]]; rewrite E in Hj; [by apply IHc|].
      destruct (lookup_snoc _ _ _ _ Hj) as [[-> ->]|[_ Hj']]; [|by apply IHc].
      rewrite IHcn; [done|]. by apply lookup_ge_None.
    + intros j Hj. rewrite fills_by_snoc. cbn. rewrite Z.add_0_r. apply IHcn.
      destruct Hcs as [E|[id E]]; rewrite E in Hj; [done|].
      apply lookup_ge_None in Hj. apply lookup_ge_None.
      rewrite length_app in Hj. lia.
    + intros p cell Hp. rewrite fills_at_snoc. cbn [snd].
      rewrite (not_service_at p _ _ Hsv), Z.add_0_r.
      destruct Hhs as [E|[[id E]|(q & g & Hq & E)]]; rewrite E in Hp.
      * by apply IHh.
      * destruct (lookup_snoc _ _ _ _ Hp) as [[-> ->]|[_ Hp']]; [|by apply IHh].
        rewrite IHhn; [done|]. by apply lookup_ge_None.
      * destruct (lookup_goto _ _ _ _ _ _ Hq Hp) as [[-> ->]|[_ Hp']]; [|by apply IHh].
        apply (IHh _ _ Hq).
    + intros p Hp. rewrite fills_at_snoc. cbn [snd].
      rewrite (not_service_at p _ _ Hsv), Z.add_0_r. apply IHhn.
      destruct Hhs as [E|[[id E]|(q & g & Hq & E)]]; rewrite E in Hp; [done| |].
      * apply lookup_ge_None in Hp. apply lookup_ge_None.
        rewrite length_app in Hp. lia.
      * apply lookup_ge_None in Hp. apply lookup_ge_None.
        by rewrite length_insert in Hp.
  - destruct (cars s !! i) as [c|] eqn:Hc; [|done].
    destruct (car_step_counters _ _ _ _ _ Hs) as (c' & Ecs & Hcase).
    assert (Hcn : ∀ j, cars s' !! j = None → cars s !! j = None).
    { intros j Hj. rewrite Ecs in Hj. apply lookup_ge_None in Hj.
      apply lookup_ge_None. by rewrite length_insert in Hj. }
    assert (Hother : ∀ j d, j ≠ i → cars s' !! j = Some d → cars s !! j = Some d).
    { intros j d Hne Hj. rewrite Ecs in Hj. by rewrite list_lookup_insert_ne in Hj. }
    assert (Hme : cars s' !! i = Some c').
    { rewrite Ecs. by eapply lookup_goto_eq. }
    assert (Hby : ∀ j, j ≠ i →
              fills_by j (tr ++ [(TCar i, a)]) = fills_by j tr).
    { intros j Hne. rewrite fills_by_snoc. cbn [fst].
      rewrite decide_False by congruence. lia. }
    pose proof (IHc _ _ Hc) as Hcount.
    destruct Hcase as [(p & g & -> & Hp & Eh & Ecar & Ep & Ep')|
                       [(-> & Eh & Ecar & Ep & Ep')|(Hsv & Eh & Ecar & Ep)]].
    + split; [|split; [|split]].
      * intros j d Hj. destruct (decide (j = i)) as [->|Hne].
        -- rewrite Hme in Hj. injection Hj as <-.
           rewrite fills_by_snoc. cbn [fst]. rewrite decide_True by done.
           change (is_service (TCar i, APumpGas p)) with 1.
           rewrite Ecar, Ep', Hcount, Ep. f_equal. lia.
        -- rewrite (Hby _ Hne). apply IHc. by apply Hother.
      * intros j Hj. destruct (decide (j = i)) as [->|Hne]; [congruence|].
        rewrite (Hby _ Hne). by apply IHcn, Hcn.
      * intros q cell Hq. rewrite fills_at_snoc. cbn [snd]. rewrite Eh in Hq.
        destruct (lookup_goto _ _ _ _ _ _ Hp Hq) as [[-> ->]|[Hne Hq']].
        -- rewrite decide_True by done. pose proof (IHh _ _ Hp) as Hg.
           change (m_count g = fills_at p tr mod UINT_MOD) in Hg.
           change ((m_count g + 1) mod UINT_MOD = (fills_at p tr + 1) mod UINT_MOD).
           rewrite Hg. apply mod_step.
        -- rewrite decide_False by done. rewrite Z.add_0_r. by apply IHh.
      * intros q Hq. rewrite fills_at_snoc. cbn [snd]. rewrite Eh in Hq.
        apply lookup_ge_None in Hq. rewrite length_insert in Hq.
        apply lookup_lt_Some in Hp.
        rewrite decide_False by lia. rewrite Z.add_0_r.
        by apply IHhn, lookup_ge_None.
    + split; [|split; [|split]].
      * intros j d Hj. destruct (decide (j = i)) as [->|Hne].
        -- rewrite Hme in Hj. injection Hj as <-.
           rewrite fills_by_snoc. cbn [fst]. rewrite decide_True by done.
           change (is_service (TCar i, AInc)) with 0.
           rewrite Ecar, Ep'.
           change ((m_count (c_car c) + 1) mod UINT_MOD =
                   (fills_by i tr + 0 - 0) mod UINT_MOD).
           rewrite Hcount, Ep, mod_step. f_equal. lia.
        -- rewrite (Hby _ Hne). apply IHc. by apply Hother.
      * intros j Hj. destruct (decide (j = i)) as [->|Hne]; [congruence|].
        rewrite (Hby _ Hne). by apply IHcn, Hcn.
      * intros q cell Hq. rewrite fills_at_snoc. cbn. rewrite Z.add_0_r.
        rewrite Eh in Hq. by apply IHh.
      * intros q Hq. rewrite fills_at_snoc. cbn. rewrite Z.add_0_r.
        rewrite Eh in Hq. by apply IHhn.
    + split; [|split; [|split]].
      * intros j d Hj. destruct (decide (j = i)) as [->|Hne].
        -- rewrite Hme in Hj. injection Hj as <-.
           rewrite fills_by_snoc. cbn [fst]. rewrite decide_True by done.
           rewrite Hsv, Z.add_0_r, Ecar, Ep. done.
        -- rewrite (Hby _ Hne). apply IHc. by apply Hother.
      * intros j Hj. destruct (decide (j = i)) as [->|Hne]; [congruence|].
        rewrite (Hby _ Hne). by apply IHcn, Hcn.
      * intros q cell Hq. rewrite fills_at_snoc. cbn [snd].
        rewrite (not_service_at q _ _ Hsv), Z.add_0_r.
        rewrite Eh in Hq. by apply IHh.
      * intros q Hq. rewrite fills_at_snoc. cbn [snd].
        rewrite (not_service_at q _ _ Hsv), Z.add_0_r.
        rewrite Eh in Hq. by apply IHhn.
Qed.

(** X5.  Every counter counts its own object's fill-ups.  In every
    reachable state the counter of a pump is the number of calls of
    PumpGas made on that pump, and the counter of a car is the number of
    calls of PumpGas that car made, less the one whose Inc (line 133) is
    still to come, both modulo 2^32; so every counter is in the range of an
    unsigned int. *)
Theorem counters_count_own_fillups cfg tr s :
  reach cfg tr s →
  (∀ i c, cars s !! i = Some c →
     m_count (c_car c) = (fills_by i tr - pending (c_pc c)) mod UINT_MOD ∧
     0 ≤ m_count (c_car c) < UINT_MOD) ∧
  (∀ p cell, heap s !! p = Some cell →
     m_count (obj cell) = fills_at p tr mod UINT_MOD ∧
     0 ≤ m_count (obj cell) < UINT_MOD).
Proof.
  intros Hr. destruct (counters_inv _ _ _ Hr) as (Hc & _ & Hh & _). split.
  - intros i c Hi. rewrite (Hc _ _ Hi). split; [done|].
    by apply Z.mod_pos_bound.
  - intros p cell Hp. rewrite (Hh _ _ Hp). split; [done|].
    by apply Z.mod_pos_bound.
Qed.

Lemma counters_count_own_fillups_witness :
  fills_by 0 (run_trace gas_station quiet_run) = 1 ∧
  ∀ c, cars (run_state gas_station quiet_run) !! 0%nat = Some c →
       m_count (c_car c) =
       (fills_by 0 (run_trace gas_station quiet_run) - pending (c_pc c)) mod UINT_MOD.
Proof.
  split; [vm_compute; reflexivity|]. intros c Hc.
  exact (proj1 (proj1 (counters_count_own_fillups gas_station _ _
                         (reach_run gas_station quiet_run)) 0%nat c Hc)).
Defined.

(** ** Conservation of pumps *)

Lemma NoDup_omap_index {A B} (f : A → option B) (l : list A) :
  (∀ i j x y b, l !! i = Some x → l !! j = Some y →
     f x = Some b → f y = Some b → i = j) →
  NoDup (omap f l).
Proof.
  induction l as [|a l IH]; intros Hinj; [apply NoDup_nil_2|].
  assert (Hl : NoDup (omap f l)).
  { apply IH. intros i j x y b Hi Hj Hx Hy.
    assert (S i = S j) by (eapply (Hinj (S i) (S j)); eauto). lia. }
  cbn. destruct (f a) as [b|] eqn:Ea; [|done].
  apply NoDup_cons. split; [|done].
  intros Hin. apply list_elem_of_omap in Hin as (y & Hy & Ey).
  apply list_elem_of_lookup in Hy as [j Hj].
  assert (0%nat = S j) by (eapply (Hinj 0%nat (S j)); eauto). lia.
Qed.

Lemma live_before_drain cfg tr s :
  reach cfg tr s → before_drain (main_pc s) = true →
  ∀ p cell, heap s !! p = Some cell → live cell = true.
Proof.
  induction 1 as [|tr s t a s' Hr IH Hs]; [done|].
  destruct t as [|i]; cbn in Hs.
  - unfold main_step in Hs.
    destruct (main_pc s) eqn:Epc; repeat case_match; simplify_eq; cbn;
      try done; intros _ p cell Hp; try (by eapply IH).
    destruct (lookup_snoc _ _ _ _ Hp) as [[-> ->]|[_ Hp']]; [done|by eapply IH].
  - destruct (cars s !! i) as [c|] eqn:Hc; [|done].
    destruct (car_step_output _ _ _ _ _ Hs) as (c' & _ & _ & -> & _ & Eh).
    intros Hb p cell Hp. destruct Eh as [E|(q & g & Hq & E)]; rewrite E in Hp.
    + by eapply IH.
    + destruct (lookup_goto _ _ _ _ _ _ Hq Hp) as [[-> ->]|[_ Hp']]; [done|by eapply IH].
Qed.

(** X6.  While the station is open (from the creation of the threads to the
    last join) every pump is either in the pool or in the hands of exactly
    one car: the pool together with the pumps held by cars is a
    rearrangement of the MAX_PUMPS pumps main allocated, so the number of
    pumps in the pool plus the number in use is MAX_PUMPS. *)
Theorem pumps_conserved cfg tr s :
  reach cfg tr s →
  station_open (main_pc s) = true →
  openPumps s ++ (Some <$> held (cars s)) ≡ₚ Some <$> seq 0 (length (heap s)) ∧
  Z.of_nat (length (openPumps s) + length (held (cars s))) =
    Z.max 0 (MAX_PUMPS cfg).
Proof.
  intros Hr Hopen. pose proof (reach_inv _ _ _ Hr) as HI.
  pose proof (inv_pool _ _ HI) as HP.
  assert (Hbd : before_drain (main_pc s) = true) by (by destruct (main_pc s)).
  assert (Hlive : ∀ p, (p < length (heap s))%nat → is_live (heap s) p).
  { intros p Hp. apply lookup_lt_is_Some in Hp as [[g l] Hg].
    assert (l = true) as -> by apply (live_before_drain _ _ _ Hr Hbd _ _ Hg).
    by exists g. }
  assert (Hheld : ∀ p, p ∈ held (cars s) ↔
            ∃ i c, cars s !! i = Some c ∧ holds (c_pc c) = Some p).
  { intros p. unfold held. rewrite list_elem_of_omap. split.
    - intros (c & Hc & Hh). apply list_elem_of_lookup in Hc as [i Hi]. eauto.
    - intros (i & c & Hi & Hh). exists c. split; [|done].
      apply list_elem_of_lookup. eauto. }
  assert (Hperm : openPumps s ++ (Some <$> held (cars s)) ≡ₚ
                  Some <$> seq 0 (length (heap s))).
  { apply NoDup_Permutation.
    - apply NoDup_app. split; [apply HP|]. split.
      + intros x Hx Hx'. apply list_elem_of_fmap in Hx' as (p & -> & Hp).
        apply Hheld in Hp as (i & c & Hi & Hh).
        by destruct (pool_hold _ _ _ HP _ _ _ Hi Hh) as [_ Hn].
      + apply NoDup_fmap_2; [by intros ?? [= ->]|].
        apply NoDup_omap_index. intros i j x y b Hi Hj Hx Hy.
        by eapply (pool_excl _ _ _ HP).
    - apply NoDup_fmap_2; [by intros ?? [= ->]|]. apply NoDup_seq.
    - intros x. rewrite elem_of_app, !list_elem_of_fmap. split.
      + intros [Hx|(p & -> & Hp)].
        * destruct (pool_live _ _ _ HP _ Hx) as (p & -> & g & Hg).
          exists p. split; [done|]. apply elem_of_seq.
          apply lookup_lt_Some in Hg. lia.
        * apply Hheld in Hp as (i & c & Hi & Hh).
          destruct (pool_hold _ _ _ HP _ _ _ Hi Hh) as [[g Hg] _].
          exists p. split; [done|]. apply elem_of_seq.
          apply lookup_lt_Some in Hg. lia.
      + intros (p & -> & Hp). apply elem_of_seq in Hp.
        destruct (pool_noleak _ _ _ HP p) as [Hin|Hcar]; [apply Hlive; lia|by left|].
        right. exists p. split; [done|]. by apply Hheld. }
  split; [done|].
  apply Permutation_length in Hperm.
  rewrite length_app, !length_fmap, length_seq in Hperm. rewrite Hperm.
  pose proof (inv_main _ _ HI) as HM. unfold main_inv, pumps_built in HM.
  destruct (main_pc s); try done; tauto.
Qed.

Lemma pumps_conserved_witness :
  openPumps (run_state gas_station starved) ++
    (Some <$> held (cars (run_state gas_station starved))) ≡ₚ
  Some <$> seq 0 (length (heap (run_state gas_station starved))).
Proof.
  exact (proj1 (pumps_conserved gas_station _ _
                  (reach_run gas_station starved) eq_refl)).
Defined.

(** ** Pumps are taken in line order *)

Lemma omap_insert_same {A B} (f : A → option B) (l : list A) i c c' :
  l !! i = Some c → f c' = f c → omap f (<[i := c']> l) = omap f l.
Proof.
  revert i. induction l as [|a l IH]; intros [|i] Hi E; try done.
  - cbn in Hi. simplify_eq. cbn. by rewrite E.
  - change (<[S i:=c']> (a :: l)) with (a :: <[i:=c']> l). cbn.
    by rewrite (IH i Hi E).
Qed.

Lemma omap_none {A B} (f : A → option B) (l : list A) :
  (∀ j d, l !! j = Some d → f d = None) → omap f l = [].
Proof.
  induction l as [|a l IH]; intros H; [done|]. cbn.
  rewrite (H 0%nat a eq_refl). apply IH. intros j d Hj. by apply (H (S j)).
Qed.

Lemma omap_insert_only {A B} (f : A → option B) (l : list A) i c c' :
  l !! i = Some c →
  (∀ j d, j ≠ i → l !! j = Some d → f d = None) →
  omap f (<[i := c']> l) = option_list (f c').
Proof.
  revert i. induction l as [|a l IH]; intros [|i] Hi H; try done.
  - cbn. rewrite (omap_none f l); [by destruct (f c')|].
    intros j d Hj. by apply (H (S j)).
  - change (<[S i:=c']> (a :: l)) with (a :: <[i:=c']> l). cbn.
    rewrite (H 0%nat a); [|done|done].
    apply (IH i Hi). intros j d Hne Hj. apply (H (S j)); [lia|done].
Qed.

Lemma omap_only {A B} (f : A → option B) (l : list A) i c :
  l !! i = Some c →
  (∀ j d, j ≠ i → l !! j = Some d → f d = None) →
  omap f l = option_list (f c).
Proof.
  intros Hi H. rewrite <- (omap_insert_only f l i c c Hi H).
  by rewrite list_insert_id.
Qed.

(* What a step of a car means for taking a pump and leaving the line. *)
Lemma car_step_take i c s a s' :
  car_step i c s = Some (a, s') →
  ∃ c', cars s' = <[i := c']> (cars s) ∧ m_id (c_car c') = m_id (c_car c) ∧
    match a with
    | APumpsPop (Some p) => c_pc c = AtPumpsPop ∧ c_pc c' = AtLinePop p
    | ALinePop x =>
        (∃ p, c_pc c = AtLinePop p) ∧ leaving_car c' = None ∧
        carLine s = x :: carLine s'
    | AUndefined => True
    | _ => leaving_car c' = leaving_car c
    end.
Proof.
  intros Hs. destruct c as [me pc]. unfold car_step in Hs.
  destruct pc; cbn in Hs; repeat case_match; simplify_eq; cbn;
    eexists; (split; [done|]); (split; [done|]); cbn; eauto.
  all: destruct (carLine s); cbn in *; simplify_eq; eauto.
Qed.

Lemma main_step_take cfg s a s' :
  main_step cfg s = Some (a, s') →
  (cars s' = cars s ∨
   ∃ id, cars s' = cars s ++ [{| c_car := new_Car id; c_pc := AtEnterLine |}]) ∧
  (∀ x, a ≠ ALinePop x) ∧ (∀ p, a ≠ APumpsPop p).
Proof.
  intros Hs. unfold main_step in Hs.
  destruct (main_pc s); repeat case_match; simplify_eq; cbn; eauto 10.
Qed.

(** X7.  Pumps are handed out in the order of the line.  In every run the
    cars that took a pump from the pool, in the order in which they took
    it, are the cars that left the line, in the order in which they left,
    followed by the one car, if any, that has its pump and is about to
    leave (line 131). *)
Theorem pumps_taken_in_line_order cfg tr s :
  reach cfg tr s →
  takers tr = line_pops tr ++ leaving (cars s).
Proof.
  induction 1 as [|tr s t a s' Hr IH Hs]; [done|].
  pose proof (reach_inv _ _ _ Hr) as HI. pose proof (inv_line _ _ HI) as HL.
  unfold takers, line_pops in *. rewrite !omap_app. fold (takers tr) in *.
  destruct t as [|i]; cbn in Hs.
  - destruct (main_step_take _ _ _ _ Hs) as (Hcs & Hnp & Hnt).
    assert (El : leaving (cars s') = leaving (cars s)).
    { destruct Hcs as [->|[id ->]]; [done|].
      unfold leaving. rewrite omap_app. cbn. by rewrite app_nil_r. }
    rewrite El. cbn. destruct a; cbn; rewrite ?app_nil_r; try done.
    by destruct (Hnp x).
  - destruct (cars s !! i) as [c|] eqn:Hc; [|done].
    destruct (car_step_defined _ _ _ _ _ _ HI Hc Hs) as [Hdef _].
    destruct (car_step_take _ _ _ _ _ Hs) as (c' & -> & Eid & Ha).
    destruct (line_ids _ _ HL _ _ Hc) as [Ei _].
    assert (Hothers : at_front (c_pc c) = true →
              ∀ j d, j ≠ i → cars s !! j = Some d → leaving_car d = None).
    { intros Hf j d Hne Hj. unfold leaving_car.
      destruct (c_pc d) eqn:Ed; try done. exfalso. apply Hne.
      eapply line_ids_inj; [done|done|done|].
      pose proof (line_front _ _ HL _ _ Hc Hf) as H1.
      pose proof (line_front _ _ HL _ _ Hj) as H2. rewrite Ed in H2.
      specialize (H2 eq_refl). congruence. }
    unfold leaving in *. cbn.
    destruct a as [| | | | | | | | | | | | |[p|]| x | | | | |]; cbn;
      rewrite ?app_nil_r; try (by destruct Hdef);
      try (by rewrite (omap_insert_same _ _ _ _ _ Hc Ha)).
    + destruct Ha as [Epc Epc'].
      assert (Hf : at_front (c_pc c) = true) by (by rewrite Epc).
      rewrite (omap_insert_only _ _ _ _ _ Hc (Hothers Hf)).
      rewrite (omap_only _ _ _ _ Hc (Hothers Hf)) in IH.
      unfold leaving_car in *. rewrite Epc in IH. rewrite Epc'. cbn in *.
      rewrite app_nil_r in IH. rewrite IH, Eid, Ei. done.
    + destruct Ha as ([p Epc] & El & Eline).
      assert (Hf : at_front (c_pc c) = true) by (by rewrite Epc).
      rewrite (omap_insert_only _ _ _ _ _ Hc (Hothers Hf)), El.
      rewrite (omap_only _ _ _ _ Hc (Hothers Hf)) in IH.
      unfold leaving_car in IH. rewrite Epc in IH. cbn in IH |- *.
      pose proof (line_front _ _ HL _ _ Hc Hf) as Hfront.
      rewrite Eline in Hfront. cbn in Hfront. injection Hfront as ->.
      by rewrite app_nil_r.
Qed.

Lemma pumps_taken_in_line_order_witness :
  takers (run_trace gas_station starved) =
  line_pops (run_trace gas_station starved) ++
  leaving (cars (run_state gas_station starved)).
Proof.
  exact (pumps_taken_in_line_order gas_station _ _ (reach_run gas_station starved)).
Defined.

(** ** Teardown *)

Lemma deletes_of_snoc p tr e :
  deletes_of p (tr ++ [e]) = deletes_of p tr + deleted_at p e.
Proof. unfold deletes_of. rewrite map_app, sumZ_app. cbn. lia. Qed.

(* A step deletes one live pump, or deletes nothing and leaves every
   existing pump as live as it was. *)
Lemma step_heap cfg t s a s' :
  step cfg t s = Some (a, s') →
  (∃ p g, a = ADelete (Some p) ∧
          heap s !! p = Some {| obj := g; live := true |} ∧
          heap s' = <[p := {| obj := g; live := false |}]> (heap s)) ∨
  ((∀ p, deleted_at p (t, a) = 0) ∧
   (heap s' = heap s ∨
    (∃ id, heap s' = heap s ++ [{| obj := new_GasPump id; live := true |}]) ∨
    (∃ p g, heap s !! p = Some {| obj := g; live := true |} ∧
            heap s' = <[p := {| obj := PumpGas g; live := true |}]> (heap s)))).
Proof.
  intros Hs. destruct t as [|i]; cbn in Hs.
  - unfold main_step in Hs.
    destruct (main_pc s); repeat case_match; simplify_eq; cbn; eauto 10.
  - destruct (cars s !! i) as [[me pc]|] eqn:Hc; [|done]. unfold car_step in Hs.
    destruct pc; cbn in Hs; repeat case_match; simplify_eq; cbn; eauto 10.
Qed.

Lemma deletes_inv cfg tr s :
  reach cfg tr s →
  (∀ p cell, heap s !! p = Some cell →
     deletes_of p tr = if live cell then 0 else 1) ∧
  (∀ p, heap s !! p = None → deletes_of p tr = 0).
Proof.
  induction 1 as [|tr s t a s' Hr [IHs IHn] Hs]; [done|].
  destruct (step_heap _ _ _ _ _ Hs) as
    [(q & g & -> & Hq & ->)|[Hnd [->|[[id ->]|(q & g & Hq & ->)]]]].
  - split.
    + intros p cell Hp. rewrite deletes_of_snoc. unfold deleted_at. cbn [snd].
      destruct (lookup_goto _ _ _ _ _ _ Hq Hp) as [[-> ->]|[Hne Hp']].
      * rewrite decide_True by done. rewrite (IHs _ _ Hq). done.
      * rewrite decide_False by done. rewrite Z.add_0_r. by apply IHs.
    + intros p Hp. rewrite deletes_of_snoc. unfold deleted_at. cbn [snd].
      apply lookup_ge_None in Hp. rewrite length_insert in Hp.
      apply lookup_lt_Some in Hq. rewrite decide_False by lia.
      rewrite Z.add_0_r. by apply IHn, lookup_ge_None.
  - split; intros p; rewrite deletes_of_snoc, Hnd, Z.add_0_r; [apply IHs|apply IHn].
  - split.
    + intros p cell Hp. rewrite deletes_of_snoc, Hnd, Z.add_0_r.
      destruct (lookup_snoc _ _ _ _ Hp) as [[-> ->]|[_ Hp']]; [|by apply IHs].
      cbn. by apply IHn, lookup_ge_None.
    + intros p Hp. rewrite deletes_of_snoc, Hnd, Z.add_0_r. apply IHn.
      apply lookup_ge_None in Hp. rewrite length_app in Hp.
      apply lookup_ge_None. lia.
  - split.
    + intros p cell Hp. rewrite deletes_of_snoc, Hnd, Z.add_0_r.
      destruct (lookup_goto _ _ _ _ _ _ Hq Hp) as [[-> ->]|[_ Hp']]; [|by apply IHs].
      apply (IHs _ _ Hq).
    + intros p Hp. rewrite deletes_of_snoc, Hnd, Z.add_0_r. apply IHn.
      apply lookup_ge_None in Hp. rewrite length_insert in Hp.
      by apply lookup_ge_None.
Qed.

(** X8.  Every pump allocated by [new] (line 153) is deleted exactly once.
    No pump is ever deleted twice; a pump is deleted only after every car
    thread has returned and been joined; and when main returns the pool is
    empty and each of the MAX_PUMPS pumps has been deleted once. *)
Theorem every_pump_deleted_once cfg tr s :
  reach cfg tr s →
  (∀ p, 0 ≤ deletes_of p tr ≤ 1) ∧
  (∀ p cell, heap s !! p = Some cell → live cell = false →
     running s = false ∧ ∀ i c, cars s !! i = Some c → c_pc c = Stopped) ∧
  (main_pc s = MExit →
     openPumps s = [] ∧
     Z.of_nat (length (heap s)) = Z.max 0 (MAX_PUMPS cfg) ∧
     ∀ p, (p < length (heap s))%nat →
       deletes_of p tr = 1 ∧ ¬ is_live (heap s) p).
Proof.
  intros Hr. pose proof (reach_inv _ _ _ Hr) as HI.
  destruct (deletes_inv _ _ _ Hr) as [Hs Hn].
  pose proof (inv_main _ _ HI) as HM. unfold main_inv in HM.
  split; [|split].
  - intros p. destruct (heap s !! p) as [cell|] eqn:Hp.
    + rewrite (Hs _ _ Hp). destruct (live cell); lia.
    + rewrite (Hn _ Hp). lia.
  - intros p cell Hp Hdead.
    destruct (before_drain (main_pc s)) eqn:Hb.
    { rewrite (live_before_drain _ _ _ Hr Hb _ _ Hp) in Hdead. done. }
    destruct (flag_inv _ _ _ Hr) as [Hf _]. rewrite Hf.
    destruct (main_pc s); try done; cbn; split; try done; tauto.
  - intros Epc. rewrite Epc in HM. destruct HM as (Hpb & _ & _ & Hq).
    split; [done|]. split; [done|]. intros p Hp.
    apply lookup_lt_is_Some in Hp as [cell Hcell].
    destruct (exit_all_deleted _ _ HI Epc) as [_ Hdead].
    pose proof (Hdead _ _ Hcell) as Hl. split.
    + rewrite (Hs _ _ Hcell), Hl. done.
    + intros [g Hg]. rewrite Hg in Hcell. simplify_eq.
Qed.

Lemma every_pump_deleted_once_witness :
  deletes_of 1 (run_trace gas_station quiet_run) = 1.
Proof.
  assert (Hexit : main_pc (run_state gas_station quiet_run) = MExit)
    by (vm_compute; reflexivity).
  assert (Hlt : (1 < length (heap (run_state gas_station quiet_run)))%nat)
    by (vm_compute; lia).
  destruct (every_pump_deleted_once gas_station _ _
              (reach_run gas_station quiet_run)) as (_ & _ & H).
  destruct (H Hexit) as (_ & _ & Hall).
  exact (proj1 (Hall 1%nat Hlt)).
Defined.

Lemma flat_map_nil {A B} (f : A → list B) (l : list A) :
  (∀ j d, l !! j = Some d → f d = []) → flat_map f l = [].
Proof.
  induction l as [|a l IH]; intros H; [done|]. cbn.
  rewrite (H 0%nat a eq_refl). apply IH. intros j d Hj. by apply (H (S j)).
Qed.

(** X9.  Until main clears the flag the program prints nothing but its
    banner: while [running] is true stdout holds the banner line alone
    (nothing before line 146 has run) and stderr is empty.  No count is
    reported while cars may still be filling up. *)
Theorem silent_while_running cfg tr s :
  reach cfg tr s →
  running s = true →
  stdout s = match main_pc s with MBanner => [] | _ => [banner cfg] end ∧
  stderr s = [].
Proof.
  intros Hr Hrun. pose proof (reach_inv _ _ _ Hr) as HI.
  destruct (flag_inv _ _ _ Hr) as [Hf Hst].
  split; [|apply (reach_trace_defined _ _ _ Hr)].
  destruct (reach_out _ _ _ Hr) as (reps & -> & Hperm).
  assert (Hcars : car_lines (cars s) = []).
  { apply flat_map_nil. intros j d Hj.
    destruct (inv_nofault _ _ HI _ _ Hj) as [_ Hab].
    destruct (c_pc d) eqn:Ed; try done.
    specialize (Hst _ _ Hj Ed). congruence. }
  assert (Hpumps : pump_lines (heap s) = []).
  { apply flat_map_nil. intros p cell Hp.
    rewrite (live_before_drain _ _ _ Hr) with (p := p); [done| |done].
    rewrite Hrun in Hf. by destruct (main_pc s). }
  rewrite Hcars, Hpumps in Hperm. apply Permutation_nil_r in Hperm.
  subst reps. by rewrite app_nil_r.
Qed.

Lemma silent_while_running_witness :
  stdout (run_state gas_station one_service) = [banner gas_station].
Proof.
  refine (proj1 (silent_while_running gas_station _ _
                   (reach_run gas_station one_service) _)).
  vm_compute. reflexivity.
Defined.

(** ** The queue operations under the mutex *)

Module LockingMore.
Import Locking LockingObs.

Lemma zip_lookup {A B} (l : list A) (k : list B) i x y :
  l !! i = Some x → k !! i = Some y → zip l k !! i = Some (x, y).
Proof.
  revert k i. induction l as [|a l IH]; intros [|b k] [|i] Hl Hk; try done.
  - cbn in *. by simplify_eq.
  - cbn in *. by apply IH.
Qed.

Lemma zip_insert_r {A B} (l : list A) (k : list B) i x y :
  l !! i = Some x → zip l (<[i := y]> k) = <[i := (x, y)]> (zip l k).
Proof.
  revert k i. induction l as [|a l IH]; intros [|b k] [|i] Hl; try done.
  - cbn in *. by simplify_eq.
  - cbn in Hl. change (<[S i:=y]> (b :: k)) with (b :: <[i:=y]> k). cbn.
    change (<[S i:=(x, y)]> ((a, b) :: zip l k)) with ((a, b) :: <[i:=(x, y)]> (zip l k)).
    f_equal. by apply IH.
Qed.

Lemma flat_map_swap {A B} (f : A → list B) (l : list A) i x y :
  l !! i = Some x →
  flat_map f (<[i := y]> l) ++ f x ≡ₚ flat_map f l ++ f y.
Proof.
  revert i. induction l as [|a l IH]; intros [|i] Hi; try done.
  - cbn in Hi. simplify_eq. cbn.
    rewrite <- !app_assoc. rewrite (Permutation_app_comm (flat_map f l) (f x)).
    rewrite (Permutation_app_comm (flat_map f l) (f y)).
    rewrite !app_assoc. apply Permutation_app_tail, Permutation_app_comm.
  - change (<[S i:=y]> (a :: l)) with (a :: <[i:=y]> l). cbn.
    rewrite <- !app_assoc. apply Permutation_app_head. by apply IH.
Qed.

Lemma sound_start q0 ops : Sound q0 ops (start q0 ops).
Proof.
  assert (Hpc : ∀ t op pc, ops !! t = Some op → (call <$> ops) !! t = Some pc →
            pc = call op).
  { intros t op pc Hop Hpc. rewrite list_lookup_fmap, Hop in Hpc. cbn in Hpc.
    congruence. }
  assert (Hnone : ∀ (f : Op * Pc → list Z),
            (∀ op, f (op, call op) = []) → flat_map f (zip ops (call <$> ops)) = []).
  { intros f Hf. induction ops as [|op ops IH]; [done|]. cbn.
    rewrite Hf. apply IH. intros t op' pc Ho Hp. by apply (Hpc (S t)). }
  split; cbn.
  - by rewrite length_fmap.
  - intros t op pc Hop Hp. rewrite (Hpc _ _ _ Hop Hp). destruct op; cbn; eauto.
  - intros t pc Hp Hg. rewrite list_lookup_fmap in Hp.
    destruct (ops !! t) as [[]|]; cbn in Hp; simplify_eq; done.
  - done.
  - intros t rv Hp. rewrite list_lookup_fmap in Hp.
    destruct (ops !! t) as [[]|]; cbn in Hp; simplify_eq.
  - unfold all_in, all_out. rewrite !Hnone; [by rewrite !app_nil_r| |];
      by intros [].
Qed.
Lemma sound_goto q0 ops s t op pc pc' q' m' :
  Sound q0 ops s →
  threads s !! t = Some pc → ops !! t = Some op →
  runs op pc' →
  mutex_move t pc pc' (m_mutex s) m' →
  queue_move op pc pc' (m_queue s) q' →
  Sound q0 ops (goto t pc' q' m' s).
Proof.
  intros HS Hpc Hop Hruns Hm Hq.
  pose proof (snd_hold _ _ _ HS _ _ Hpc) as Hmine.
  assert (Hnone : in_guard pc = true →
            ∀ t' pc'', t' ≠ t → threads s !! t' = Some pc'' → in_guard pc'' = false).
  { intros Hg t' pc'' Hne Hp. destruct (in_guard pc'') eqn:Hg'; [|done].
    pose proof (snd_hold _ _ _ HS _ _ Hp Hg'). specialize (Hmine Hg). congruence. }
  assert (Hin : all_in ops (<[t:=pc']> (threads s)) ++ pushed_in (op, pc) ≡ₚ
                all_in ops (threads s) ++ pushed_in (op, pc')).
  { unfold all_in. rewrite (zip_insert_r _ _ _ _ _ Hop).
    apply flat_map_swap. by apply zip_lookup. }
  assert (Hout : all_out ops (<[t:=pc']> (threads s)) ++ popped_out (op, pc) ≡ₚ
                 all_out ops (threads s) ++ popped_out (op, pc')).
  { unfold all_out. rewrite (zip_insert_r _ _ _ _ _ Hop).
    apply flat_map_swap. by apply zip_lookup. }
  split; cbn.
  - rewrite length_insert. apply HS.
  - intros t' op' pc'' Hop' Hp.
    destruct (lookup_goto _ _ _ _ _ _ Hpc Hp) as [[-> ->]|[Hne Hp']].
    + by simplify_eq.
    + by eapply (snd_runs _ _ _ HS).
  - intros t' pc'' Hp Hg.
    destruct (lookup_goto _ _ _ _ _ _ Hpc Hp) as [[-> ->]|[Hne Hp']].
    + destruct Hm as [-> Hk _| _ -> _| _ _ Hk _]; [auto|done|congruence].
    + pose proof (snd_hold _ _ _ HS _ _ Hp' Hg) as Hh.
      destruct Hm as [-> _ _| Hfree _ _| Hk _ _ _]; [done|congruence|].
      rewrite (Hnone Hk _ _ Hne Hp') in Hg. done.
  - intros t0 Hm0.
    destruct Hm as [-> _ Hk| _ -> Hk| _ -> _ _]; [| |done].
    + destruct (snd_owner _ _ _ HS _ Hm0) as (pc0 & Hp0 & Hg0).
      destruct (decide (t0 = t)) as [->|Hne].
      * exists pc'. split; [by eapply lookup_goto_eq|]. simplify_eq. auto.
      * exists pc0. by rewrite list_lookup_insert_ne.
    + injection Hm0 as <-. exists pc'. split; [by eapply lookup_goto_eq|auto].
  - intros t' rv Hp.
    destruct (lookup_goto _ _ _ _ _ _ Hpc Hp) as [[-> E]|[Hne Hp']].
    + destruct Hq as [-> _ _ Hh|x _ _ _ _ _ Hn|rv' _ _ _ _ _ Hn];
        [by apply Hh|by destruct (Hn rv)|by destruct (Hn rv)].
    + pose proof (snd_head _ _ _ HS _ _ Hp') as Hh.
      destruct Hq as [-> _ _ _|x Hg _ _ _ _ _|rv' Hg _ _ _ _ _]; [done| |].
      * by pose proof (Hnone Hg _ _ Hne Hp') as Hc.
      * by pose proof (Hnone Hg _ _ Hne Hp') as Hc.
  - pose proof (snd_items _ _ _ HS) as Hit.
    destruct Hq as [-> E1 E2 _|x _ -> E1 E1' E2 _|rv' _ Eq E2 E2' E1 _].
    + rewrite E1 in Hin. rewrite E2 in Hout.
      apply Permutation_app_inv_r in Hin. apply Permutation_app_inv_r in Hout.
      by rewrite Hin, Hout.
    + rewrite E1, E1', app_nil_r in Hin. rewrite E2 in Hout.
      apply Permutation_app_inv_r in Hout. rewrite Hin, Hout.
      rewrite app_assoc, Hit. rewrite <- !app_assoc.
      apply Permutation_app_head, Permutation_app_comm.
    + rewrite E2, E2', app_nil_r in Hout. rewrite E1 in Hin.
      apply Permutation_app_inv_r in Hin. rewrite Hin, Hout, Hit, Eq.
      cbn. rewrite app_assoc. apply Permutation_cons_append.
Qed.

Lemma sound_step q0 ops s t s' :
  Sound q0 ops s → qstep t s = Some s' → Sound q0 ops s'.
Proof.
  intros HS Hs. unfold qstep in Hs.
  destruct (threads s !! t) as [pc|] eqn:Hpc; [|done].
  assert (Hop : ∃ op, ops !! t = Some op).
  { apply lookup_lt_is_Some. rewrite <- (snd_len _ _ _ HS).
    by eapply lookup_lt_Some. }
  destruct Hop as [op Hop].
  pose proof (snd_runs _ _ _ HS _ _ _ Hop Hpc) as Hruns.
  pose proof (snd_hold _ _ _ HS _ _ Hpc) as Hmine.
  pose proof (snd_head _ _ _ HS t) as Hhead.
  destruct pc; cbn in Hmine; repeat case_match; simplify_eq;
    destruct op; cbn in Hruns;
    repeat match goal with
           | H : _ ∨ _ |- _ => destruct H as [H|H]
           | H : ∃ _, _ |- _ => destruct H as [? H]
           end;
    simplify_eq;
    (eapply sound_goto; [done|done|done| | |]).
  all: try (solve [cbn; eauto 10]).
  all: try (solve [apply mm_keep; cbn; auto; intros [?|?]; try discriminate; auto]).
  all: try (solve [apply mm_acquire; cbn; auto]).
  all: try (solve [apply mm_release; cbn; auto]).
  all: try (solve [apply qm_keep; cbn; auto; try congruence;
                   intros ? [= <-]; by rewrite ?H, ?H0, ?H1]).
  all: try (solve [eapply qm_put; cbn; eauto]).
  - specialize (Hhead _ Hpc). destruct (m_queue s) as [|y q] eqn:Eq; [done|].
    cbn in Hhead. simplify_eq. by eapply qm_take.
Qed.

Lemma sound_reach q0 ops s : qreach q0 ops s → Sound q0 ops s.
Proof. induction 1; [apply sound_start|by eapply sound_step]. Qed.

Lemma qreach_after sched q0 ops : qreach q0 ops (after sched q0 ops).
Proof.
  unfold after. destruct (qrun sched (start q0 ops)) as [s|] eqn:E.
  - by eapply LockingFacts.qrun_reach.
  - constructor.
Qed.

Lemma all_in_returned ops ths :
  length ths = length ops →
  (∀ t op pc, ops !! t = Some op → ths !! t = Some pc → runs op pc ∧ returned pc) →
  all_in ops ths = items ops.
Proof.
  unfold all_in, items. revert ths.
  induction ops as [|op ops IH]; intros [|pc ths] Hlen H; try done.
  pose proof (H 0%nat op pc eq_refl eq_refl) as [Hr [r Er]]. subst pc.
  cbn [zip zip_with flat_map].
  rewrite (IH ths); [|by injection Hlen|intros t op' pc' Ho Hp; by apply (H (S t))].
  done.
Qed.

(** X10.  With any number of threads running push, pop, front and empty on
    one queue, at most one thread at a time is between taking the mutex and
    releasing it, and it is the holder; two threads are about to touch
    [m_queue] at once, one of them writing, only if one of them is running
    front() or empty().  push and pop never race with each other. *)
Theorem races_need_front_or_empty q0 ops s :
  qreach q0 ops s →
  (∀ t1 t2 pc1 pc2,
     threads s !! t1 = Some pc1 → threads s !! t2 = Some pc2 →
     in_guard pc1 = true → in_guard pc2 = true → t1 = t2) ∧
  (race s → ∃ t, threads s !! t = Some FrontRead ∨ threads s !! t = Some EmptyRead).
Proof.
  intros Hr. pose proof (sound_reach _ _ _ Hr) as HS. split.
  - intros t1 t2 pc1 pc2 H1 H2 G1 G2.
    pose proof (snd_hold _ _ _ HS _ _ H1 G1). pose proof (snd_hold _ _ _ HS _ _ H2 G2).
    congruence.
  - intros (t1 & t2 & pc1 & pc2 & a & Hne & H1 & H2 & A1 & A2).
    destruct (in_guard pc2) eqn:G2.
    + exfalso. apply Hne.
      assert (G1 : in_guard pc1 = true) by (by destruct pc1).
      pose proof (snd_hold _ _ _ HS _ _ H1 G1). pose proof (snd_hold _ _ _ HS _ _ H2 G2).
      congruence.
    + exists t2. destruct pc2; cbn in *; simplify_eq; auto.
Qed.

Lemma races_need_front_or_empty_witness :
  ∃ t, threads (after [0; 0]%nat [7] [OpPop; OpFront]) !! t = Some FrontRead ∨
       threads (after [0; 0]%nat [7] [OpPop; OpFront]) !! t = Some EmptyRead.
Proof.
  refine (proj2 (races_need_front_or_empty [7] [OpPop; OpFront] _
                   (qreach_after [0; 0]%nat [7] [OpPop; OpFront])) _).
  exists 0%nat, 1%nat, (PopRemove 7), FrontRead, Read.
  repeat split; (reflexivity || lia).
Defined.

(** X11.  Concurrent pushes and pops lose no item and duplicate none.  In
    every reachable state the initial contents together with the items
    already appended by push are, up to order, the present contents
    together with the items already removed by pop; once every thread has
    returned, the initial contents and the items of all push calls are the
    final contents and the values the pop calls returned, and the mutex is
    free. *)
Theorem push_pop_lose_nothing q0 ops s :
  qreach q0 ops s →
  q0 ++ all_in ops (threads s) ≡ₚ m_queue s ++ all_out ops (threads s) ∧
  ((∀ t pc, threads s !! t = Some pc → returned pc) →
     q0 ++ items ops ≡ₚ m_queue s ++ all_out ops (threads s) ∧
     m_mutex s = None).
Proof.
  intros Hr. pose proof (sound_reach _ _ _ Hr) as HS.
  split; [apply HS|]. intros Hret. split.
  - rewrite <- (all_in_returned ops (threads s)); [apply HS|apply HS|].
    intros t op pc Hop Hpc. split; [by eapply (snd_runs _ _ _ HS)|by eapply Hret].
  - destruct (m_mutex s) as [t|] eqn:Hm; [|done].
    destruct (snd_owner _ _ _ HS _ Hm) as (pc & Hpc & Hg).
    destruct (Hret _ _ Hpc) as [r ->]. by destruct Hg.
Qed.

Lemma push_pop_lose_nothing_witness :
  m_queue (after [0; 0; 0; 1; 1; 1; 1]%nat [7] [OpPush 8; OpPop]) = [8] ∧
  [7] ++ items [OpPush 8; OpPop] ≡ₚ
    m_queue (after [0; 0; 0; 1; 1; 1; 1]%nat [7] [OpPush 8; OpPop]) ++
    all_out [OpPush 8; OpPop]
      (threads (after [0; 0; 0; 1; 1; 1; 1]%nat [7] [OpPush 8; OpPop])).
Proof.
  split; [reflexivity|].
  refine (proj1 (proj2 (push_pop_lose_nothing [7] [OpPush 8; OpPop] _
                          (qreach_after _ [7] [OpPush 8; OpPop])) _)).
  intros [|[|t]] pc Hpc; cbn in Hpc; simplify_eq; eexists; reflexivity.
Defined.

(** X12.  The mutex never deadlocks.  As long as no thread has run into
    front() of an empty std::queue, whenever some operation has not yet
    returned some thread can execute its next statement: a thread waiting
    for the mutex waits for a holder that can go on. *)
Theorem mutex_never_deadlocks q0 ops s t pc :
  qreach q0 ops s →
  (∀ t', threads s !! t' ≠ Some Undef) →
  threads s !! t = Some pc →
  ¬ returned pc →
  ∃ t' s', qstep t' s = Some s'.
Proof.
  intros Hr Hdef Hpc Hnr. pose proof (sound_reach _ _ _ Hr) as HS.
  assert (Hgo : ∀ t0 pc0, threads s !! t0 = Some pc0 →
            (in_guard pc0 = true ∨ pc0 = FrontRead ∨ pc0 = EmptyRead) →
            ∃ t' s', qstep t' s = Some s').
  { intros t0 pc0 Hp0 Hk. exists t0. unfold qstep. rewrite Hp0.
    destruct pc0; cbn in Hk; try (destruct Hk as [?|[?|?]]; done);
      repeat case_match; eauto. }
  destruct (m_mutex s) as [t0|] eqn:Hm.
  - destruct (snd_owner _ _ _ HS _ Hm) as (pc0 & Hp0 & Hg).
    destruct Hg as [Hg|E].
    + eapply Hgo; eauto.
    + subst pc0. by destruct (Hdef t0).
  - destruct pc; try (by eapply Hgo; eauto).
    + exists t. unfold qstep. rewrite Hpc, Hm. eauto.
    + exists t. unfold qstep. rewrite Hpc, Hm. eauto.
    + destruct Hnr. by eexists.
    + by destruct (Hdef t).
Qed.

Lemma mutex_never_deadlocks_witness :
  ∃ t' s', qstep t' (after [0; 0]%nat [7] [OpPop; OpPush 1]) = Some s'.
Proof.
  refine (mutex_never_deadlocks [7] [OpPop; OpPush 1] _ 1 (PushLock 1)
            (qreach_after [0; 0]%nat [7] [OpPop; OpPush 1]) _ eq_refl _).
  - intros [|[|t']]; vm_compute; congruence.
  - intros [r Hr]. discriminate Hr.
Defined.

End LockingMore.

(** ** The queue: filling and draining *)

Lemma calls_app {T} (cs1 cs2 : list (MyQueue.Call T)) (q : list T) :
  MyQueue.calls (cs1 ++ cs2) q =
  match MyQueue.calls cs1 q with
  | Some (r1, q1) =>
      match MyQueue.calls cs2 q1 with
      | Some (r2, q2) => Some (r1 ++ r2, q2)
      | None => None
      end
  | None => None
  end.
Proof.
  revert q. induction cs1 as [|[x|] cs1 IH]; intros q; cbn.
  - by destruct (MyQueue.calls cs2 q) as [[r2 q2]|].
  - apply IH.
  - destruct q as [|h q]; cbn; [done|]. rewrite IH.
    destruct (MyQueue.calls cs1 q) as [[r1 q1]|]; [|done].
    by destruct (MyQueue.calls cs2 q1) as [[r2 q2]|].
Qed.

Lemma calls_pushes {T} (xs q : list T) :
  MyQueue.calls (MyQueue.CPush <$> xs) q = Some ([], q ++ xs).
Proof.
  revert q. induction xs as [|x xs IH]; intros q; cbn.
  - by rewrite app_nil_r.
  - rewrite IH. unfold MyQueue.push. by rewrite <- app_assoc.
Qed.

Lemma calls_pops {T} (q : list T) :
  MyQueue.calls (repeat MyQueue.CPop (length q)) q = Some (q, []) ∧
  MyQueue.calls (repeat MyQueue.CPop (S (length q))) q = None.
Proof.
  induction q as [|h q [IH1 IH2]]; [done|]. split.
  - cbn [length repeat MyQueue.calls MyQueue.pop]. by rewrite IH1.
  - change (MyQueue.calls (repeat MyQueue.CPop (S (length (h :: q)))) (h :: q))
      with (match MyQueue.calls (repeat MyQueue.CPop (S (length q))) q with
            | None => None
            | Some (rvs, q'') => Some (h :: rvs, q'')
            end).
    by rewrite IH2.
Qed.

(** X13.  What goes into the queue comes out, in order, and nothing else.
    From any contents, pushing the items [xs] and then popping as many
    times as the queue has elements returns the old contents followed by
    [xs] and leaves the queue empty; one pop more finds the queue empty,
    which is undefined. *)
Theorem MyQueue_fill_and_drain {T} (q0 xs : list T) :
  MyQueue.calls ((MyQueue.CPush <$> xs) ++
                 repeat MyQueue.CPop (length (q0 ++ xs))) q0 =
    Some (q0 ++ xs, []) ∧
  MyQueue.calls ((MyQueue.CPush <$> xs) ++
                 repeat MyQueue.CPop (S (length (q0 ++ xs)))) q0 = None ∧
  MyQueue.empty (q0 ++ xs) = match q0 ++ xs with [] => true | _ => false end.
Proof.
  destruct (calls_pops (q0 ++ xs)) as [H1 H2].
  rewrite !calls_app, calls_pushes, H1, H2. split; [done|]. split; [done|].
  by destruct (q0 ++ xs).
Qed.

(** ** The program can always finish *)

Lemma steps_trans cfg s tr1 s1 tr2 s2 :
  steps cfg s tr1 s1 → steps cfg s1 tr2 s2 → steps cfg s (tr1 ++ tr2) s2.
Proof.
  intros H1 H2. induction H2 as [|s1 tr2 s2 t a s3 _ IH Hs].
  - by rewrite app_nil_r.
  - rewrite app_assoc. eapply steps_step; eauto.
Qed.

Lemma steps_one cfg t s a s' :
  step cfg t s = Some (a, s') → steps cfg s [(t, a)] s'.
Proof. intros Hs. apply (steps_step cfg s [] s); [constructor|done]. Qed.

Lemma reach_steps cfg tr s tr' s' :
  reach cfg tr s → steps cfg s tr' s' → reach cfg (tr ++ tr') s'.
Proof.
  intros Hr Hst. induction Hst as [|s tr' s1 t a s2 _ IH Hs].
  - by rewrite app_nil_r.
  - rewrite app_assoc. eapply reach_step; eauto.
Qed.

Lemma run_steps cfg sched s tr' s' :
  run cfg sched [] s = Some (tr', s') → steps cfg s tr' s'.
Proof.
  revert s tr'. induction sched as [|t sched IH]; intros s tr' Hrun; cbn in Hrun.
  - simplify_eq. constructor.
  - destruct (step cfg t s) as [[a s1]|] eqn:Hs; [|done].
    rewrite run_from in Hrun.
    destruct (run cfg sched [] s1) as [[tr1 s1']|] eqn:Hn; [|done]. simplify_eq.
    apply (steps_trans cfg s [(t, a)] s1 tr1 s'); [by apply steps_one|by apply IH].
Qed.

(* A car on its own changes its own record only. *)
Lemma solo_frame cfg i n :
  ∀ s tr' s' c,
    cars s !! i = Some c → solo cfg (TCar i) n s = Some (tr', s') →
    ∃ c', cars s' = <[i := c']> (cars s) ∧ main_pc s' = main_pc s ∧
          running s' = running s.
Proof.
  induction n as [|n IH]; intros s tr' s' c Hc Hsolo; unfold solo in Hsolo.
  - cbn in Hsolo. simplify_eq. exists c. by rewrite list_insert_id.
  - cbn in Hsolo. rewrite Hc in Hsolo.
    destruct (car_step i c s) as [[a s1]|] eqn:Hs; [|done].
    rewrite run_from in Hsolo.
    destruct (run cfg (repeat (TCar i) n) [] s1) as [[tr1 s1']|] eqn:Hn; [|done].
    simplify_eq.
    destruct (car_step_flag _ _ _ _ _ Hs) as (Er & Em & c1 & Ec & _).
    destruct (IH s1 tr1 s' c1) as (c' & Ec' & Em' & Er'); [|done|].
    { rewrite Ec. by eapply lookup_goto_eq. }
    exists c'. rewrite Ec', Ec, list_insert_insert_eq, Em', Er'. done.
Qed.

(* Past the wait for a pump a car needs nobody to leave its loop. *)
Lemma stop_past_poll cfg i k :
  ∀ s c,
    Inv cfg s → running s = false → cars s !! i = Some c →
    (steps_to_stop (c_pc c) ≤ k)%nat → (steps_to_stop (c_pc c) ≤ 8)%nat →
    ∃ n tr' s',
      solo cfg (TCar i) n s = Some (tr', s') ∧ pc_of i s' = Some Stopped.
Proof.
  induction k as [|k IH]; intros s c HI Hrun Hc Hk H8.
  - exists 0%nat, [], s. split; [done|].
    unfold pc_of. rewrite Hc. cbn. f_equal.
    destruct (inv_nofault _ _ HI _ _ Hc) as [Hu Ha].
    destruct (c_pc c); cbn in Hk; try lia; done.
  - destruct (decide (c_pc c = Stopped)) as [Es|Hns].
    { exists 0%nat, [], s. split; [done|]. unfold pc_of. by rewrite Hc, <- Es. }
    destruct (car_progress cfg s i c HI Hrun Hc Hns)
      as (a & s1 & c1 & Hs & Hc1 & Hrun1 & Hlt).
    { intros Ee. rewrite Ee in H8. cbn in H8. lia. }
    destruct (IH s1 c1) as (n & tr' & s' & Hsolo & Hend);
      [by eapply inv_step|done|done|lia|lia|].
    exists (S n), ((TCar i, a) :: tr'), s'. split; [by eapply solo_S|done].
Qed.

Lemma holder_past_poll pc p : holds pc = Some p → (steps_to_stop pc ≤ 8)%nat.
Proof. destruct pc; cbn; intros; simplify_eq; lia. Qed.

Lemma still_running_nonneg (cs : list CarThread) :
  ∀ j d, cs !! j = Some d → 0 ≤ still_running d.
Proof. intros j d _. unfold still_running. case_decide; lia. Qed.

Lemma all_cars_can_stop cfg (n : nat) :
  ∀ tr s,
    reach cfg tr s → 1 ≤ MAX_PUMPS cfg → running s = false →
    station_open (main_pc s) = true → unstopped s ≤ Z.of_nat n →
    ∃ tr' s',
      steps cfg s tr' s' ∧ main_pc s' = main_pc s ∧
      ∀ i c, cars s' !! i = Some c → c_pc c = Stopped.
Proof.
  induction n as [|n IH]; intros tr s Hr Hpumps Hrun Hopen Hn;
    (destruct (decide (Forall (λ c, c_pc c = Stopped) (cars s))) as [Hall|Hnot];
     [exists [], s; split; [constructor|]; split; [done|];
      intros i c Hc; by eapply (Forall_lookup_1 _ _ _ _ Hall)|]).
  all: apply not_Forall_Exists in Hnot; [|intros; apply CarPC_eq_dec].
  all: apply Exists_exists in Hnot as (c & Hin & Hc).
  all: apply list_elem_of_lookup in Hin as [i Hi]; cbn in Hc.
  all: pose proof (sumZ_lookup_le still_running _ _ _
                     (still_running_nonneg (cars s)) Hi) as Hle.
  all: fold (unstopped s) in Hle.
  all: assert (still_running c = 1) as E1
         by (unfold still_running; by rewrite decide_False).
  all: rewrite E1 in Hle.
  1: lia.
  pose proof (reach_inv _ _ _ Hr) as HI.
  (* some car can be brought out of its loop on its own *)
  assert (Hone : ∃ k ck m tr1 s1,
            cars s !! k = Some ck ∧ c_pc ck ≠ Stopped ∧
            solo cfg (TCar k) m s = Some (tr1, s1) ∧ pc_of k s1 = Some Stopped).
  { destruct (decide (Exists (λ d, is_Some (holds (c_pc d))) (cars s))) as [Hh|Hnh].
    - apply Exists_exists in Hh as (d & Hin & [p Hp]).
      apply list_elem_of_lookup in Hin as [j Hj].
      destruct (stop_past_poll cfg j _ s d HI Hrun Hj (le_n _)
                  (holder_past_poll _ _ Hp)) as (m & tr1 & s1 & Hsolo & Hend).
      exists j, d, m, tr1, s1. split; [done|]. split; [|done].
      intros E. by rewrite E in Hp.
    - destruct (stop_or_stall cfg i _ s c HI Hrun Hi (le_n _))
        as (m & tr1 & s1 & _ & Hsolo & HI1 & [Hend|[Hpc Hq]]).
      { exists i, c, m, tr1, s1. done. }
      exfalso.
      destruct (solo_frame _ _ _ _ _ _ _ Hi Hsolo) as (c' & Ecs & Emain & _).
      pose proof (reach_steps _ _ _ _ _ Hr (run_steps _ _ _ _ _ Hsolo)) as Hr1.
      assert (Hbd : before_drain (main_pc s1) = true).
      { rewrite Emain. by destruct (main_pc s). }
      pose proof (inv_main _ _ HI1) as HM. unfold main_inv, pumps_built in HM.
      assert (Hlen : (0 < length (heap s1))%nat).
      { rewrite Emain in HM. destruct (main_pc s); try done; lia. }
      apply lookup_lt_is_Some in Hlen as [[g l] Hg].
      assert (l = true) as -> by apply (live_before_drain _ _ _ Hr1 Hbd _ _ Hg).
      destruct (pool_noleak _ _ _ (inv_pool _ _ HI1) 0%nat) as [Hin|(j & d & Hj & Hd)].
      + by exists g.
      + rewrite Hq in Hin. by apply not_elem_of_nil in Hin.
      + rewrite Ecs in Hj.
        destruct (lookup_goto _ _ _ _ _ _ Hi Hj) as [[-> ->]|[Hne Hj']].
        * unfold pc_of in Hpc. rewrite Ecs, (lookup_goto_eq _ _ _ _ Hi) in Hpc.
          cbn in Hpc. injection Hpc as Hpc. by rewrite Hpc in Hd.
        * apply Hnh, Exists_exists. exists d. split.
          -- apply list_elem_of_lookup. eauto.
          -- by rewrite Hd. }
  destruct Hone as (k & ck & m & tr1 & s1 & Hk & Hns & Hsolo & Hend).
  destruct (solo_frame _ _ _ _ _ _ _ Hk Hsolo) as (c' & Ecs & Emain & Erun).
  assert (Hc' : c_pc c' = Stopped).
  { unfold pc_of in Hend. rewrite Ecs, (lookup_goto_eq _ _ _ _ Hk) in Hend.
    cbn in Hend. by injection Hend. }
  pose proof (run_steps _ _ _ _ _ Hsolo) as Hst1.
  destruct (IH (tr ++ tr1) s1) as (tr2 & s2 & Hst2 & Em2 & Hall2).
  - by eapply reach_steps.
  - done.
  - by rewrite Erun.
  - by rewrite Emain.
  - unfold unstopped in *. rewrite Ecs, (sumZ_insert _ _ _ _ _ Hk).
    unfold still_running at 2 3. rewrite decide_False by done.
    rewrite decide_True by done. lia.
  - exists (tr1 ++ tr2), s2. split; [by eapply steps_trans|].
    split; [by rewrite Em2|done].
Qed.
Lemma steps_cons cfg t s a s1 tr' s' :
  step cfg t s = Some (a, s1) → steps cfg s1 tr' s' →
  steps cfg s ((t, a) :: tr') s'.
Proof.
  intros Hs Hst. apply (steps_trans cfg s [(t, a)] s1 tr' s'); [|done].
  by apply steps_one.
Qed.

(* main on its own gets from any point of lines 146-166 to the joins. *)
Lemma main_stops_from_sleep cfg s :
  main_pc s = MSleep ∨ main_pc s = MStop →
  ∃ tr' s', steps cfg s tr' s' ∧ main_pc s' = MJoin 0.
Proof.
  assert (Hstop : ∀ s, main_pc s = MStop →
            ∃ tr' s', steps cfg s tr' s' ∧ main_pc s' = MJoin 0).
  { intros s0 Hpc. do 2 eexists. split; [|shelve].
    apply steps_one with (t := TMain). cbn. unfold main_step. by rewrite Hpc.
    Unshelve. done. }
  intros [Hpc|Hpc]; [|by apply Hstop].
  destruct (Hstop (set_main MStop s) eq_refl) as (tr' & s' & Hst & Hend).
  exists ((TMain, AMainSleep) :: tr'), s'. split; [|done].
  eapply steps_cons; [|done]. cbn. unfold main_step. by rewrite Hpc.
Qed.

Lemma main_stops_from_spawn cfg (m : nat) :
  ∀ s i, main_pc s = MSpawn i → (Z.to_nat (MAX_CARS cfg - i) ≤ m)%nat →
    ∃ tr' s', steps cfg s tr' s' ∧ main_pc s' = MJoin 0.
Proof.
  induction m as [|m IH]; intros s i Hpc Hm;
    destruct (i <? MAX_CARS cfg) eqn:E;
    try (apply Z.ltb_lt in E; lia).
  1,3: destruct (main_stops_from_sleep cfg (set_main MSleep s) (or_introl eq_refl))
         as (tr' & s' & Hst & Hend);
       exists ((TMain, ALoopEnd) :: tr'), s'; (split; [|done]);
       (eapply steps_cons; [|done]); cbn; unfold main_step; by rewrite Hpc, E.
  apply Z.ltb_lt in E.
  pose (s1 := set_main (MSpawn (i + 1))
                (print (dtor_Metrics (new_Car (i + 1)))
                   (set_cars (cars s ++ [{| c_car := new_Car (i + 1);
                                            c_pc := AtEnterLine |}]) s))).
  destruct (IH s1 (i + 1)) as (tr' & s' & Hst & Hend); [done|lia|].
  exists ((TMain, ASpawn (i + 1)) :: tr'), s'. split; [|done].
  eapply steps_cons; [|done]. cbn. unfold main_step. rewrite Hpc.
  by rewrite (proj2 (Z.ltb_lt _ _) E).
Qed.

Lemma main_stops_from_setup cfg (m : nat) :
  ∀ s i, main_pc s = MSetup i → (Z.to_nat (MAX_PUMPS cfg - i) ≤ m)%nat →
    ∃ tr' s', steps cfg s tr' s' ∧ main_pc s' = MJoin 0.
Proof.
  induction m as [|m IH]; intros s i Hpc Hm;
    destruct (i <? MAX_PUMPS cfg) eqn:E;
    try (apply Z.ltb_lt in E; lia).
  1,3: destruct (main_stops_from_spawn cfg _ (set_main (MSpawn 0) s) 0
                   eq_refl (le_n _)) as (tr' & s' & Hst & Hend);
       exists ((TMain, ALoopEnd) :: tr'), s'; (split; [|done]);
       (eapply steps_cons; [|done]); cbn; unfold main_step; by rewrite Hpc, E.
  apply Z.ltb_lt in E.
  pose (s1 := set_main (MSetup (i + 1))
                (set_pumps (MyQueue.push (Some (length (heap s))) (openPumps s))
                   (set_heap (heap s ++ [{| obj := new_GasPump (i + 1);
                                            live := true |}]) s))).
  destruct (IH s1 (i + 1)) as (tr' & s' & Hst & Hend); [done|lia|].
  exists ((TMain, ANewPump (length (heap s))) :: tr'), s'. split; [|done].
  eapply steps_cons; [|done]. cbn. unfold main_step. rewrite Hpc.
  by rewrite (proj2 (Z.ltb_lt _ _) E).
Qed.

Lemma main_can_stop cfg s :
  before_stop (main_pc s) = true →
  ∃ tr' s', steps cfg s tr' s' ∧ main_pc s' = MJoin 0.
Proof.
  intros Hb. destruct (main_pc s) as [|i|i| | |k| | | |] eqn:Hpc; try done.
  - destruct (main_stops_from_setup cfg _
                (set_main (MSetup 0) (print [banner cfg] s)) 0 eq_refl (le_n _))
      as (tr' & s' & Hst & Hend).
    exists ((TMain, ABanner) :: tr'), s'. split; [|done].
    eapply steps_cons; [|done]. cbn. unfold main_step. by rewrite Hpc.
  - by eapply main_stops_from_setup.
  - by eapply main_stops_from_spawn.
  - apply main_stops_from_sleep. by left.
  - apply main_stops_from_sleep. by right.
Qed.

(* Once every car has left its loop, the joins go through. *)
Lemma joins_finish cfg (m : nat) :
  ∀ s k,
    main_pc s = MJoin k → all_exited s → (length (cars s) - k ≤ m)%nat →
    ∃ tr' s', steps cfg s tr' s' ∧ main_pc s' = MDrainCheck.
Proof.
  induction m as [|m IH]; intros s k Hpc Hall Hm;
    destruct (cars s !! k) as [c|] eqn:Hk.
  2,4: exists [(TMain, ALoopEnd)], (set_main MDrainCheck s); (split; [|done]);
       apply steps_one; cbn; unfold main_step; by rewrite Hpc, Hk.
  - apply lookup_lt_Some in Hk. lia.
  - pose proof (lookup_lt_Some _ _ _ Hk) as Hlt.
    destruct (IH (set_main (MJoin (S k)) s) (S k)) as (tr' & s' & Hst & Hend);
      [done|done|cbn; lia|].
    exists ((TMain, AJoin k) :: tr'), s'. split; [|done].
    eapply steps_cons; [|done]. cbn. unfold main_step. rewrite Hpc, Hk.
    by rewrite (Hall _ _ Hk).
Qed.

(* The drain loop of lines 172-175 deletes one pump per round. *)
Lemma drain_body cfg s :
  Inv cfg s → main_pc s = MDrainBody →
  ∃ a s', step cfg TMain s = Some (a, s') ∧ main_pc s' = MDrainCheck ∧
          S (length (openPumps s')) = length (openPumps s).
Proof.
  intros HI Hpc. pose proof (inv_main _ _ HI) as HM.
  unfold main_inv in HM. rewrite Hpc in HM. destruct HM as (_ & _ & _ & Hne).
  destruct (openPumps s) as [|x rest] eqn:Eq; [done|].
  destruct (pool_live _ _ _ (inv_pool _ _ HI) x) as (p & -> & g & Hg).
  { rewrite Eq. left. }
  cbn. unfold main_step. rewrite Hpc, Eq. cbn. rewrite Hg.
  do 2 eexists. split; [done|]. done.
Qed.

Lemma drain_finishes cfg (m : nat) :
  ∀ s,
    Inv cfg s → main_pc s = MDrainCheck → (length (openPumps s) ≤ m)%nat →
    ∃ tr' s', steps cfg s tr' s' ∧ main_pc s' = MExit.
Proof.
  induction m as [|m IH]; intros s HI Hpc Hm;
    destruct (openPumps s) as [|x rest] eqn:Eq; cbn in Hm; try lia.
  1,2: exists [(TMain, ADrainCheck true)], (set_main MExit s); (split; [|done]);
       apply steps_one; cbn; unfold main_step; by rewrite Hpc, Eq.
  assert (Hs1 : step cfg TMain s =
                Some (ADrainCheck false, set_main MDrainBody s)).
  { cbn. unfold main_step. by rewrite Hpc, Eq. }
  pose proof (inv_step _ _ _ _ _ HI Hs1) as HI1.
  destruct (drain_body cfg _ HI1 eq_refl) as (a & s2 & Hs2 & Hpc2 & Hlen).
  cbn in Hlen. rewrite Eq in Hlen. cbn in Hlen.
  destruct (IH s2) as (tr' & s' & Hst & Hend);
    [by eapply inv_step|done|lia|].
  exists ((TMain, ADrainCheck false) :: (TMain, a) :: tr'), s'. split; [|done].
  eapply steps_cons; [done|]. by eapply steps_cons.
Qed.

Lemma finish_from_drain cfg tr s :
  reach cfg tr s → main_pc s = MDrainCheck ∨ main_pc s = MDrainBody →
  ∃ tr' s', steps cfg s tr' s' ∧ main_pc s' = MExit.
Proof.
  intros Hr [Hpc|Hpc]; pose proof (reach_inv _ _ _ Hr) as HI.
  - by eapply (drain_finishes cfg (length (openPumps s))).
  - destruct (drain_body cfg _ HI Hpc) as (a & s2 & Hs2 & Hpc2 & _).
    destruct (drain_finishes cfg (length (openPumps s2)) s2)
      as (tr' & s' & Hst & Hend); [by eapply inv_step|done|done|].
    exists ((TMain, a) :: tr'), s'. split; [by eapply steps_cons|done].
Qed.

Lemma finish_from_join cfg tr s k :
  1 ≤ MAX_PUMPS cfg → reach cfg tr s → main_pc s = MJoin k →
  ∃ tr' s', steps cfg s tr' s' ∧ main_pc s' = MExit.
Proof.
  intros Hp Hr Hpc.
  destruct (flag_inv _ _ _ Hr) as [Hflag _]. rewrite Hpc in Hflag. cbn in Hflag.
  destruct (all_cars_can_stop cfg (Z.to_nat (unstopped s)) tr s)
    as (tr1 & s1 & Hst1 & Hpc1 & Hall); [done|done|done|by rewrite Hpc|lia|].
  rewrite Hpc in Hpc1.
  destruct (joins_finish cfg (length (cars s1) - k) s1 k Hpc1 Hall (le_n _))
    as (tr2 & s2 & Hst2 & Hpc2).
  pose proof (steps_trans _ _ _ _ _ _ Hst1 Hst2) as Hst12.
  destruct (finish_from_drain cfg _ s2 (reach_steps _ _ _ _ _ Hr Hst12))
    as (tr3 & s3 & Hst3 & Hpc3); [by left|].
  exists ((tr1 ++ tr2) ++ tr3), s3. split; [by eapply steps_trans|done].
Qed.

(** X14.  With at least one pump configured, the program can finish from every
    reachable state: there is a continuation of the execution in which main
    clears the flag (line 166), every car leaves its loop and is joined
    (line 169), the pool is drained (lines 172-175) and main returns
    (line 179).  At the end every car thread has stopped and the pool is
    empty.  No reachable state is a deadlock or a dead end. *)
Theorem can_always_finish cfg tr s :
  1 ≤ MAX_PUMPS cfg → reach cfg tr s →
  ∃ tr' s',
    steps cfg s tr' s' ∧ main_pc s' = MExit ∧ all_exited s' ∧
    openPumps s' = [].
Proof.
  intros Hp Hr.
  assert (Hfin : ∃ tr' s', steps cfg s tr' s' ∧ main_pc s' = MExit).
  { destruct (before_stop (main_pc s)) eqn:Hb.
    - destruct (main_can_stop cfg s Hb) as (tr1 & s1 & Hst1 & Hpc1).
      destruct (finish_from_join cfg _ s1 0%nat Hp
                  (reach_steps _ _ _ _ _ Hr Hst1) Hpc1)
        as (tr2 & s2 & Hst2 & Hpc2).
      exists (tr1 ++ tr2), s2. split; [by eapply steps_trans|done].
    - pose proof (inv_main _ _ (reach_inv _ _ _ Hr)) as HM. unfold main_inv in HM.
      destruct (main_pc s) as [|i|i| | |k| | | |] eqn:Hpc; try done.
      + by eapply finish_from_join.
      + eapply finish_from_drain; [done|]. by left.
      + eapply finish_from_drain; [done|]. by right.
      + exists [], s. split; [constructor|done]. }
  destruct Hfin as (tr' & s' & Hst & Hpc). exists tr', s'.
  split; [done|]. split; [done|].
  pose proof (inv_main _ _ (reach_inv _ _ _ (reach_steps _ _ _ _ _ Hr Hst))) as HM.
  unfold main_inv in HM. rewrite Hpc in HM. tauto.
Qed.

Lemma can_always_finish_witness :
  ∃ tr' s',
    steps gas_station (run_state gas_station starved) tr' s' ∧
    main_pc s' = MExit ∧ all_exited s' ∧ openPumps s' = [].
Proof.
  exact (can_always_finish gas_station _ _ ltac:(by vm_compute)
           (reach_run gas_station starved)).
Defined.

(** ** A station without pumps *)

Lemma no_pumps_empty cfg tr s :
  MAX_PUMPS cfg ≤ 0 → reach cfg tr s → heap s = [] ∧ openPumps s = [].
Proof.
  intros Hp Hr. pose proof (reach_inv _ _ _ Hr) as HI.
  assert (Hh : heap s = []).
  { pose proof (inv_main _ _ HI) as HM. unfold main_inv, pumps_built in HM.
    apply length_zero_iff_nil.
    destruct (main_pc s) as [|i|i| | |k| | | |]; try done.
    1: by destruct HM as (_ & -> & _).
    1: destruct HM as (_ & ? & ?); lia.
    all: destruct HM as [HM _]; lia. }
  split; [done|].
  destruct (openPumps s) as [|x q] eqn:Eq; [done|].
  destruct (pool_live _ _ _ (inv_pool _ _ HI) x) as (p & _ & g & Hg).
  { rewrite Eq. left. }
  by rewrite Hh in Hg.
Qed.

Lemma wait_without_pumps cfg tr s i t a s' :
  MAX_PUMPS cfg ≤ 0 → reach cfg tr s → pc_of i s = Some AtPumpsEmpty →
  step cfg t s = Some (a, s') → pc_of i s' = Some AtPumpsEmpty.
Proof.
  intros Hp Hr Hpc Hs. unfold pc_of in *.
  destruct (cars s !! i) as [c|] eqn:Hc; [|done]. cbn in Hpc.
  destruct t as [|j]; cbn in Hs.
  - destruct (main_step_flag _ _ _ _ Hs) as [_ [->|[id ->]]].
    + by rewrite Hc.
    + by rewrite (lookup_app_l_Some _ _ _ _ Hc).
  - destruct (decide (j = i)) as [->|Hne].
    + destruct c as [me pc]. cbn in Hpc. injection Hpc as ->.
      pose proof (poll_empty_pool cfg s i me Hc
                    (proj2 (no_pumps_empty _ _ _ Hp Hr))) as Hpoll.
      cbn in Hpoll. rewrite Hs in Hpoll. injection Hpoll as _ ->.
      by rewrite Hc.
    + destruct (cars s !! j) as [d|] eqn:Hd; [|done].
      destruct (car_step_flag _ _ _ _ _ Hs) as (_ & _ & d' & -> & _).
      by rewrite list_lookup_insert_ne, Hc.
Qed.

(** X15.  Built with MAX_PUMPS <= 0, the program cannot end once a car waits
    for a pump (line 127): the pool stays empty, so in every continuation
    of the execution that car is still in the loop of line 127, whatever
    the flag says, and main, which joins it at line 169, never returns. *)
Theorem no_pumps_no_exit cfg tr s i :
  MAX_PUMPS cfg ≤ 0 → reach cfg tr s → pc_of i s = Some AtPumpsEmpty →
  ∀ tr' s',
    steps cfg s tr' s' →
    pc_of i s' = Some AtPumpsEmpty ∧ openPumps s' = [] ∧ main_pc s' ≠ MExit.
Proof.
  intros Hp Hr Hpc tr' s' Hst.
  assert (Hw : pc_of i s' = Some AtPumpsEmpty ∧ reach cfg (tr ++ tr') s').
  { induction Hst as [|s tr' s1 t a s2 Hst IH Hs].
    - by rewrite app_nil_r.
    - destruct (IH Hr Hpc) as [Hpc1 Hr1]. split.
      + by eapply wait_without_pumps.
      + rewrite app_assoc. by eapply reach_step. }
  destruct Hw as [Hpc' Hr']. split; [done|].
  split; [by eapply no_pumps_empty|].
  intros Hexit. pose proof (inv_main _ _ (reach_inv _ _ _ Hr')) as HM.
  unfold main_inv in HM. rewrite Hexit in HM. destruct HM as (_ & _ & Hall & _).
  unfold pc_of in Hpc'. destruct (cars s' !! i) as [c|] eqn:Hc; [|done].
  cbn in Hpc'. injection Hpc' as Hpc'. rewrite (Hall _ _ Hc) in Hpc'. done.
Qed.

Lemma no_pumps_no_exit_witness :
  pc_of 0 (run_state no_pumps (to_the_pumps ++ [TCar 0; TMain; TMain; TCar 0])) =
    Some AtPumpsEmpty ∧
  main_pc (run_state no_pumps (to_the_pumps ++ [TCar 0; TMain; TMain; TCar 0]))
    ≠ MExit.
Proof.
  assert (Hmore : steps no_pumps (run_state no_pumps to_the_pumps)
            [(TCar 0%nat, APumpsEmpty true); (TMain, AMainSleep); (TMain, AStop);
             (TCar 0%nat, APumpsEmpty true)]
            (run_state no_pumps
               (to_the_pumps ++ [TCar 0; TMain; TMain; TCar 0]))).
  { apply (run_steps no_pumps [TCar 0; TMain; TMain; TCar 0]%nat).
    vm_compute. reflexivity. }
  destruct (no_pumps_no_exit no_pumps _ _ 0%nat ltac:(by vm_compute)
              (reach_run no_pumps to_the_pumps) eq_refl _ _ Hmore)
    as (H1 & _ & H2).
  exact (conj H1 H2).
Defined.
